(** * Fixed-point reciprocal square root (Q16) for RV32I: model and properties

    Shallow embedding of the two [fast_rsqrt] variants of the repository:

    - the reference variant (64-bit shift-add multiplier, two Newton steps);
    - the optimal variant, [quiz3_fast_reciprocal_square_root_Optimal.c]
      (16x16->32 multiplier, one Newton step).

    C's [uint32_t] and [uint64_t] are modelled as [Z] with the wrap-around
    written out ([u32], [u64]).  The only loop without a static bound,
    [while (b)] in [mul32_shift_add], runs on fuel and reports exhaustion;
    table reads are checked and logged, so that an out-of-range index is a
    fault and the sequence of indices read is observable. *)

From Stdlib Require Import ZArith List Lia Bool Reals Lra Ascii.
Import ListNotations.

Local Open Scope Z_scope.

(** ** Machine integers *)

Module Machine.

Definition u32 (z : Z) : Z := z mod 2 ^ 32.
Definition u64 (z : Z) : Z := z mod 2 ^ 64.

Definition add32 (a b : Z) : Z := u32 (a + b).
Definition sub32 (a b : Z) : Z := u32 (a - b).
Definition shl32 (a n : Z) : Z := u32 (Z.shiftl a n).
Definition add64 (a b : Z) : Z := u64 (a + b).
Definition sub64 (a b : Z) : Z := u64 (a - b).
Definition shl64 (a n : Z) : Z := u64 (Z.shiftl a n).

Definition is_u16 (z : Z) : Prop := 0 <= z < 2 ^ 16.
Definition is_u32 (z : Z) : Prop := 0 <= z < 2 ^ 32.
Definition is_u64 (z : Z) : Prop := 0 <= z < 2 ^ 64.

(** [UINT16_MAX] of [<stdint.h>]. *)
Definition UINT16_MAX : Z := 65535.

End Machine.
Export Machine.

(** ** Faults, outcomes and the run monad

    A run carries the log of the table indices read so far, oldest first. *)

Inductive fault : Type :=
| OutOfFuel
| TableIndex (i : Z).

Inductive outcome (A : Type) : Type :=
| Ok (a : A)
| Fault (f : fault).
Arguments Ok {A} a.
Arguments Fault {A} f.

Definition M (A : Type) : Type := list Z -> outcome (A * list Z).

Definition ret {A : Type} (a : A) : M A := fun log => Ok (a, log).

Definition bind {A B : Type} (c : M A) (k : A -> M B) : M B :=
  fun log =>
    match c log with
    | Ok (a, log') => k a log'
    | Fault f => Fault f
    end.

Definition fail {A : Type} (f : fault) : M A := fun _ => Fault f.

Declare Scope run_scope.
Delimit Scope run_scope with run.
Notation "x <- c ;; k" := (bind c (fun x => k))
  (at level 100, c at next level, right associativity) : run_scope.
Local Open Scope run_scope.

(** [run c] executes [c] from the empty log. *)
Definition run {A : Type} (c : M A) : outcome (A * list Z) := c [].

(** The value of a run, when there is one. *)
Definition value {A : Type} (o : outcome (A * list Z)) : option A :=
  match o with
  | Ok (a, _) => Some a
  | Fault _ => None
  end.

(** [table[i]] for a [static const uint16_t table[N]]: a read outside
    [0 .. N-1] is a fault, a read inside is logged. *)
Definition table_read (table : list Z) (i : Z) : M Z :=
  fun log =>
    if (0 <=? i) && (i <? Z.of_nat (length table))
    then match nth_error table (Z.to_nat i) with
         | Some v => Ok (v, log ++ [i])
         | None => Fault (TableIndex i)
         end
    else Fault (TableIndex i).

(** ** clz32 (identical text in both variants) *)

Definition clz32 (x : Z) : Z :=
  if x =? 0 then 32 else
  let n := 0 in
  let '(n, x) := if Z.shiftr x 16 =? 0 then (add32 n 16, shl32 x 16) else (n, x) in
  let '(n, x) := if Z.shiftr x 24 =? 0 then (add32 n 8, shl32 x 8) else (n, x) in
  let '(n, x) := if Z.shiftr x 28 =? 0 then (add32 n 4, shl32 x 4) else (n, x) in
  let '(n, x) := if Z.shiftr x 30 =? 0 then (add32 n 2, shl32 x 2) else (n, x) in
  let n := if Z.shiftr x 31 =? 0 then add32 n 1 else n in
  n.

(** ** Reference variant *)

Module Reference.

(** [while (b) { if (b & 1u) acc += aa; aa <<= 1; b >>= 1; }] *)
Fixpoint mul32_loop (fuel : nat) (acc aa b : Z) : M Z :=
  if b =? 0 then ret acc
  else match fuel with
       | O => fail OutOfFuel
       | S fuel' =>
           let acc := if Z.land b 1 =? 0 then acc else add64 acc aa in
           let aa := shl64 aa 1 in
           let b := Z.shiftr b 1 in
           mul32_loop fuel' acc aa b
       end.

(** [b] is a [uint32_t]: it is zero after at most 32 right shifts. *)
Definition mul32_fuel : nat := 32.

Definition mul32_shift_add (a b : Z) : M Z :=
  let acc := 0 in
  let aa := u64 a in
  mul32_loop mul32_fuel acc aa b.

Definition rsqrt_table : list Z :=
  [ UINT16_MAX; 46341; 32768; 23170; 16384;
    11585;  8192;  5793;  4096;  2896;
     2048;  1448;  1024;   724;   512;
      362;   256;   181;   128;    90;
       64;    45;    32;    23;    16;
       11;     8;     6;     4;     3;
        2;     1 ].

(** The locals of [q16_newton_step] up to [term]. *)
Definition newton_xy2_q16 (y x : Z) : M Z :=
  y2 <- mul32_shift_add y y ;;
  let y2_lo := u32 y2 in
  let y2_hi := u32 (Z.shiftr y2 32) in
  prod_lo <- mul32_shift_add x y2_lo ;;
  prod_hi <- mul32_shift_add x y2_hi ;;
  let xy2_q16_64 :=
    add64 (shl64 prod_hi 16) (Z.shiftr (add64 prod_lo (shl64 1 15)) 16) in
  ret (u32 xy2_q16_64).

Definition newton_term (y x : Z) : M Z :=
  xy2_q16 <- newton_xy2_q16 y x ;;
  ret (sub32 (shl32 3 16) xy2_q16).

Definition q16_newton_step (y x : Z) : M Z :=
  term <- newton_term y x ;;
  prod <- mul32_shift_add y term ;;
  ret (u32 (Z.shiftr (add64 prod (shl64 1 16)) 17)).

(** The locals of [fast_rsqrt] before the Newton iterations. *)
Record seed_locals : Type := mk_seed {
  s_exp : Z;
  s_y_base : Z;
  s_y_next : Z;
  s_frac : Z;
  s_delta : Z;
  s_y : Z
}.

(** Steps 1 to 3 of [fast_rsqrt], for [x <> 0]. *)
Definition fast_rsqrt_seed (x : Z) : M seed_locals :=
  let exp := sub32 31 (clz32 x) in
  y_base <- table_read rsqrt_table exp ;;
  y_next <- (if exp <? 31 then table_read rsqrt_table (add32 exp 1) else ret 1) ;;
  let one_exp := if exp <? 31 then shl32 1 exp else 0 in
  let frac := u32 (Z.shiftr (shl64 (sub64 (u64 x) (u64 one_exp)) 16) exp) in
  let delta := sub32 y_base y_next in
  p <- mul32_shift_add delta frac ;;
  let y := sub32 y_base (u32 (Z.shiftr p 16)) in
  ret (mk_seed exp y_base y_next frac delta y).

Definition fast_rsqrt (x : Z) : M Z :=
  if x =? 0 then ret 0 else
  s <- fast_rsqrt_seed x ;;
  y <- q16_newton_step (s_y s) x ;;
  y <- q16_newton_step y x ;;
  ret y.

End Reference.

(** ** Optimal variant *)

Module Optimal.

(** One pass of the body of [for (shift = 0; shift < 16; shift += 4)]. *)
Definition mul16_body (a b16 acc shift : Z) : Z :=
  let nib := Z.land (Z.shiftr b16 shift) 0xF in
  let p := 0 in
  let p := if Z.land nib 1 =? 0 then p else add32 p a in
  let p := if Z.land nib 2 =? 0 then p else add32 p (shl32 a 1) in
  let p := if Z.land nib 4 =? 0 then p else add32 p (shl32 a 2) in
  let p := if Z.land nib 8 =? 0 then p else add32 p (shl32 a 3) in
  add32 acc (shl32 p shift).

(** The loop visits [shift = 0, 4, 8, 12]. *)
Definition mul16x16_32 (a16 b16 : Z) : Z :=
  let a := Z.land a16 0xFFFF in
  let acc := 0 in
  fold_left (mul16_body a b16) [0; 4; 8; 12] acc.

Definition mul32x16_shr16 (x32 y16 : Z) : Z :=
  let x_lo := Z.land x32 0xFFFF in
  let x_hi := Z.shiftr x32 16 in
  let p_hi := mul16x16_32 x_hi y16 in
  let p_lo := Z.shiftr (mul16x16_32 x_lo y16) 16 in
  add32 p_hi p_lo.

Definition rsqrt_table : list Z :=
  [ 65535; 46341; 32768; 23170; 16384;
    11585;  8192;  5793;  4096;  2896;
     2048;  1448;  1024;   724;   512;
      362;   256;   181;   128;    90;
       64;    45;    32;    23;    16;
       11;     8;     6;     4;     3;
        2;     1 ].

(** The locals of [q16_newton_step] up to [term]. *)
Definition newton_term (y x : Z) : Z :=
  let y := Z.land y 0xFFFF in
  let y2 := mul16x16_32 y y in
  let y2_lo := Z.land y2 0xFFFF in
  let y2_hi := Z.shiftr y2 16 in
  let x_lo := Z.land x 0xFFFF in
  let x_hi := Z.shiftr x 16 in
  let acc := 0 in
  let acc := add64 acc (shl64 (mul16x16_32 x_hi y2_hi) 16) in
  let acc := add64 acc (mul16x16_32 x_lo y2_hi) in
  let acc := add64 acc (mul16x16_32 x_hi y2_lo) in
  let acc := add64 acc (Z.shiftr (mul16x16_32 x_lo y2_lo) 16) in
  let xy2_q16 := u32 acc in
  sub32 (shl32 3 16) xy2_q16.

Definition q16_newton_step (y x : Z) : Z :=
  let term := newton_term y x in
  let y := Z.land y 0xFFFF in
  let term_hi := Z.shiftr term 16 in
  let term_lo := Z.land term 0xFFFF in
  let y_mul_hi :=
    if term_hi =? 3 then add32 (shl32 y 1) y
    else if term_hi =? 2 then shl32 y 1
    else if term_hi =? 1 then y else 0 in
  let t0 := Z.shiftr y_mul_hi 1 in
  let t1 := Z.shiftr (mul16x16_32 y term_lo) 17 in
  add32 t0 t1.

(** The locals of [fast_rsqrt] before the Newton iteration. *)
Record seed_locals : Type := mk_seed {
  s_e : Z;
  s_y0 : Z;
  s_y1 : Z;
  s_frac : Z;
  s_dy : Z;
  s_y : Z
}.

(** Steps 1 to 3 of [fast_rsqrt], for [x <> 0]. *)
Definition fast_rsqrt_seed (x : Z) : M seed_locals :=
  let e := sub32 31 (clz32 x) in
  y0 <- table_read rsqrt_table e ;;
  y1 <- (if e <? 31 then table_read rsqrt_table (add32 e 1) else ret 1) ;;
  let base := shl32 1 e in
  let diff := sub32 x base in
  let frac := if 16 <=? e then Z.shiftr diff (sub32 e 16)
              else shl32 diff (sub32 16 e) in
  let dy := sub32 y0 y1 in
  let y := sub32 y0 (Z.shiftr (mul16x16_32 dy frac) 16) in
  ret (mk_seed e y0 y1 frac dy y).

Definition fast_rsqrt (x : Z) : M Z :=
  if x =? 0 then ret 0 else
  s <- fast_rsqrt_seed x ;;
  let y := q16_newton_step (s_y s) x in
  ret y.

End Optimal.

(** ** Derived definitions

    The same computations with the products of the multiply primitives
    taken exact; the lemmas below show that the model returns them. *)

(** [exp = 31 - clz32(x)], as both variants compute it. *)
Definition exp_of (x : Z) : Z := sub32 31 (clz32 x).

Definition ref_tbl (i : Z) : Z := nth (Z.to_nat i) Reference.rsqrt_table 0.
Definition opt_tbl (i : Z) : Z := nth (Z.to_nat i) Optimal.rsqrt_table 0.

Definition ref_xy2_value (y x : Z) : Z :=
  let y2 := y * y in
  let y2_lo := u32 y2 in
  let y2_hi := u32 (Z.shiftr y2 32) in
  let prod_lo := x * y2_lo in
  let prod_hi := x * y2_hi in
  u32 (add64 (shl64 prod_hi 16) (Z.shiftr (add64 prod_lo (shl64 1 15)) 16)).

Definition ref_term_value (y x : Z) : Z := sub32 (shl32 3 16) (ref_xy2_value y x).

Definition ref_step_value (y x : Z) : Z :=
  u32 (Z.shiftr (add64 (y * ref_term_value y x) (shl64 1 16)) 17).

Definition ref_seed_value (x : Z) : Reference.seed_locals :=
  let exp := exp_of x in
  let y_base := ref_tbl exp in
  let y_next := if exp <? 31 then ref_tbl (add32 exp 1) else 1 in
  let one_exp := if exp <? 31 then shl32 1 exp else 0 in
  let frac := u32 (Z.shiftr (shl64 (sub64 (u64 x) (u64 one_exp)) 16) exp) in
  let delta := sub32 y_base y_next in
  let y := sub32 y_base (u32 (Z.shiftr (delta * frac) 16)) in
  Reference.mk_seed exp y_base y_next frac delta y.

(** The table indices one call reads, in order (the same in both variants). *)
Definition reads (x : Z) : list Z :=
  let exp := exp_of x in
  exp :: (if exp <? 31 then [add32 exp 1] else []).

Definition ref_rsqrt_value (x : Z) : Z :=
  if x =? 0 then 0 else
  ref_step_value (ref_step_value (Reference.s_y (ref_seed_value x)) x) x.

Definition opt_seed_value (x : Z) : Optimal.seed_locals :=
  let e := exp_of x in
  let y0 := opt_tbl e in
  let y1 := if e <? 31 then opt_tbl (add32 e 1) else 1 in
  let base := shl32 1 e in
  let diff := sub32 x base in
  let frac := if 16 <=? e then Z.shiftr diff (sub32 e 16)
              else shl32 diff (sub32 16 e) in
  let dy := sub32 y0 y1 in
  let y := sub32 y0 (Z.shiftr (Optimal.mul16x16_32 dy frac) 16) in
  Optimal.mk_seed e y0 y1 frac dy y.

Definition opt_rsqrt_value (x : Z) : Z :=
  if x =? 0 then 0 else Optimal.q16_newton_step (Optimal.s_y (opt_seed_value x)) x.

(** The partial product [p] that one pass of [mul16x16_32] builds from the
    nibble [nib]. *)
Definition nibble_product (a nib : Z) : Z :=
  let p := 0 in
  let p := if Z.land nib 1 =? 0 then p else add32 p a in
  let p := if Z.land nib 2 =? 0 then p else add32 p (shl32 a 1) in
  let p := if Z.land nib 4 =? 0 then p else add32 p (shl32 a 2) in
  let p := if Z.land nib 8 =? 0 then p else add32 p (shl32 a 3) in
  p.

(** ** Specification-side definitions *)

(** The interpolation fraction as the spec words it:
    [((x - 2^exp) << 16) >> exp], [exp] the index of the highest set bit. *)
Definition frac_spec (x : Z) : Z :=
  let exp := Z.log2 x in
  Z.shiftr (Z.shiftl (x - 2 ^ exp) 16) exp.

(** The table entry as the spec words it: [round(2^16 / sqrt(2^i))].  With
    [t = 2^17 / sqrt(2^i)], the nearest integer to [t / 2] is
    [floor ((floor t + 1) / 2)], and [floor t] is the integer square root
    of [2^(34 - i)]. *)
Definition round_rsqrt_pow2 (i : Z) : Z := (Z.sqrt (2 ^ (34 - i)) + 1) / 2.

(** [r] is the nearest integer to [2^16 / sqrt(2^i)]:
    [r - 1/2 <= 2^16 / sqrt(2^i) < r + 1/2], squared and scaled by 4. *)
Definition nearest_rsqrt_pow2 (i r : Z) : bool :=
  (1 <=? r) && ((2 * r - 1) ^ 2 * 2 ^ i <=? 2 ^ 34)
  && (2 ^ 34 <? (2 * r + 1) ^ 2 * 2 ^ i).

(** What the table entries satisfy: 16 bits wide; entry 0 saturated to
    [UINT16_MAX]; the others, entry 19 left aside, rounded to nearest. *)
Definition table_entry_ok (table : list Z) (i : Z) : bool :=
  let v := nth (Z.to_nat i) table 0 in
  (0 <=? v) && (v <? 2 ^ 16)
  && (if i =? 0 then v =? UINT16_MAX
      else if i =? 19 then true
      else v =? round_rsqrt_pow2 i).


(** ** Definitions for the error analysis

    Inside one power-of-two bucket the computation is free of wrap-around
    and is given by the following closed forms on unbounded integers. *)

Definition tbl_next (tbl : Z -> Z) (e : Z) : Z :=
  if e <? 31 then tbl (e + 1) else 1.

Definition lin_frac (e x : Z) : Z :=
  Z.shiftr (Z.shiftl (x - Z.shiftl 1 e) 16) e.

Definition lin_seed (tbl : Z -> Z) (e x : Z) : Z :=
  tbl e - Z.shiftr ((tbl e - tbl_next tbl e) * lin_frac e x) 16.

Definition ref_lin_R (y x : Z) : Z := Z.shiftr (x * (y * y) + 32768) 16.

Definition ref_lin_step (y x : Z) : Z :=
  Z.shiftr (y * (196608 - ref_lin_R y x) + 65536) 17.

(** No wrap-around in the reference step for seed [y] on inputs up to [b]. *)
Definition ref_step_ok (y b : Z) : bool :=
  if 0 <=? y then if y <=? 65536 then ref_lin_R y b <=? 196608 else false
  else false.

Definition opt_lin_Q (y x : Z) : Z := Z.shiftr (x * (y * y)) 16.

Definition opt_lin_G (y t : Z) : Z :=
  Z.shiftr (y * Z.shiftr t 16) 1 + Z.shiftr (y * Z.land t 65535) 17.

Definition opt_lin_step (y x : Z) : Z := opt_lin_G y (196608 - opt_lin_Q y x).

Definition opt_step_ok (y b : Z) : bool :=
  if 0 <=? y then if y <? 65536 then opt_lin_Q y b <=? 196608 else false
  else false.

(** [ref_leaf a b = Some v]: every stage of the reference variant has the
    same value at [a] and at [b], none wraps, and the result is [v]. *)
Definition ref_leaf (a b : Z) : option Z :=
  let e := Z.log2 a in
  if Z.log2 b =? e then
    let y := lin_seed ref_tbl e a in
    if lin_seed ref_tbl e b =? y then
      if ref_step_ok y b then
        let y1 := ref_lin_step y a in
        if ref_lin_step y b =? y1 then
          if ref_step_ok y1 b then
            let y2 := ref_lin_step y1 a in
            if ref_lin_step y1 b =? y2 then Some y2 else None
          else None
        else None
      else None
    else None
  else None.

Definition opt_leaf (a b : Z) : option Z :=
  let e := Z.log2 a in
  if Z.log2 b =? e then
    let y := lin_seed opt_tbl e a in
    if lin_seed opt_tbl e b =? y then
      if opt_step_ok y b then
        let y1 := opt_lin_step y a in
        if opt_lin_step y b =? y1 then Some y1 else None
      else None
    else None
  else None.

(** Bounds on a result [v] against [T = 2^16 / sqrt x], squared so as to
    stay in the integers:
    [upper_ok q p c x v] is [v <= T * (1 + p/q) + c],
    [lower_ok q p c x v] is [T * (1 - p/q) - c <= v]. *)
Definition upper_ok (q p c x v : Z) : bool :=
  if v <=? c then true
  else (q * (v - c)) * (q * (v - c)) * x <=? (q + p) * (q + p) * 2 ^ 32.

Definition lower_ok (q p c x v : Z) : bool :=
  (q - p) * (q - p) * 2 ^ 32 <=? (q * (v + c)) * (q * (v + c)) * x.

(** The same bounds as propositions. *)
Definition upper_le (q p c x v : Z) : Prop :=
  v <= c \/ (q * (v - c)) * (q * (v - c)) * x <= (q + p) * (q + p) * 2 ^ 32.

Definition lower_le (q p c x v : Z) : Prop :=
  (q - p) * (q - p) * 2 ^ 32 <= (q * (v + c)) * (q * (v + c)) * x.

(** The bounds checked for the reference variant on a piece [a .. b] of
    constant result [v]: [T - 2 <= v <= T + 1] throughout, and
    [|v - T| <= T / 1000] below [2^14]. *)
Definition ref_good (a b v : Z) : bool :=
  if 0 <=? v then
    if upper_ok 1 0 1 b v then
      if lower_ok 1 0 2 a v then
        if a <? 2 ^ 14 then
          if upper_ok 1000 1 0 b v then lower_ok 1000 1 0 a v else false
        else true
      else false
    else false
  else false.

(** For the optimal variant: [T * (1 - 4/1000) - 2 <= v <= T + 1]
    throughout, and [T * (1 - 6/1000) <= v <= T * (1 + 1/1000)] below
    [2^14]. *)
Definition opt_good (a b v : Z) : bool :=
  if 0 <=? v then
    if upper_ok 1 0 1 b v then
      if lower_ok 1000 4 2 a v then
        if a <? 2 ^ 14 then
          if upper_ok 1000 1 0 b v then lower_ok 1000 6 0 a v else false
        else true
      else false
    else false
  else false.

Definition ref_bounds (x v : Z) : Prop :=
  0 <= v /\ upper_le 1 0 1 x v /\ lower_le 1 0 2 x v
  /\ (x < 2 ^ 14 -> upper_le 1000 1 0 x v /\ lower_le 1000 1 0 x v).

Definition opt_bounds (x v : Z) : Prop :=
  0 <= v /\ upper_le 1 0 1 x v /\ lower_le 1000 4 2 x v
  /\ (x < 2 ^ 14 -> upper_le 1000 1 0 x v /\ lower_le 1000 6 0 x v).

(** The true value as the spec words it: [2^16 / sqrt(x)], a real number. *)
Definition rsqrt_true (x : Z) : R := (65536 / sqrt (IZR x))%R.

Section Sweep.

Variable f : Z -> Z.
Variable leaf : Z -> Z -> option Z.
Variable good : Z -> Z -> Z -> bool.
Variable tol : Z.

(** The common value of [f] on [a .. b], when the leaf test finds one. *)
Definition piece_value (a b : Z) : option Z :=
  if a =? b then Some (f a) else leaf a b.

(** [sweep fuel a b m] walks [a .. b] from left to right, halving the
    interval until [f] is constant on each piece.  [m] is the least value
    seen to the left of [a]; the result is the least value seen up to [b].
    It fails when a piece violates [good] or exceeds the running least
    value by more than [tol]. *)
Fixpoint sweep (fuel : nat) (a b m : Z) : option Z :=
  match piece_value a b with
  | Some v =>
      if good a b v then
        if v <=? m + tol then Some (Z.min m v) else None
      else None
  | None =>
      match fuel with
      | O => None
      | S k =>
          let mid := Z.shiftr (a + b) 1 in
          match sweep k a mid m with
          | Some m' => sweep k (mid + 1) b m'
          | None => None
          end
      end
  end.

End Sweep.

(** ** The test driver: software arithmetic, [memcpy] and printing

    The driver runs on the same RV32I target, where [unsigned long] and
    [size_t] are 32 bits wide.  A local [char buf[20]] is a list of cells,
    [None] while uninitialised; writing outside it, reading a cell never
    written and running out of fuel are crashes.  The state of an [IO] run
    is the byte stream written to standard output so far. *)

Module Driver.

Inductive crash : Type :=
| NoFuel
| BufferIndex (i : Z)
| Uninitialised (i : Z).

Inductive result (A : Type) : Type :=
| Done (a : A)
| Crash (c : crash).
Arguments Done {A} a.
Arguments Crash {A} c.

Definition IO (A : Type) : Type := list Z -> result (A * list Z).

Definition io_ret {A : Type} (a : A) : IO A := fun out => Done (a, out).

Definition io_bind {A B : Type} (c : IO A) (k : A -> IO B) : IO B :=
  fun out =>
    match c out with
    | Done (a, out') => k a out'
    | Crash e => Crash e
    end.

(** The loop indices of [for (int i = n - 1; i >= 0; i--)]. *)
Fixpoint countdown (n : nat) : list Z :=
  match n with
  | O => []
  | S k => Z.of_nat k :: countdown k
  end.

(** One pass of the loop of [udiv], on the pair [(q, r)]. *)
Definition udiv_body (dividend divisor : Z) (st : Z * Z) (i : Z) : Z * Z :=
  let '(q, r) := st in
  let r := shl32 r 1 in
  let r := Z.lor r (Z.land (Z.shiftr dividend i) 1) in
  if divisor <=? r then (Z.lor q (shl32 1 i), sub32 r divisor) else (q, r).

Definition udiv (dividend divisor : Z) : Z :=
  if divisor =? 0 then 0 else
  let '(q, _) := fold_left (udiv_body dividend divisor) (countdown 32) (0, 0) in
  q.

Definition umod_body (dividend divisor r i : Z) : Z :=
  let r := shl32 r 1 in
  let r := Z.lor r (Z.land (Z.shiftr dividend i) 1) in
  if divisor <=? r then sub32 r divisor else r.

Definition umod (dividend divisor : Z) : Z :=
  if divisor =? 0 then 0 else
  fold_left (umod_body dividend divisor) (countdown 32) 0.

(** [while (b) { if (b & 1U) res += a; a <<= 1; b >>= 1; }] *)
Fixpoint umul_loop (fuel : nat) (res a b : Z) : result Z :=
  if b =? 0 then Done res
  else match fuel with
       | O => Crash NoFuel
       | S fuel' =>
           let res := if Z.land b 1 =? 0 then res else add32 res a in
           let a := shl32 a 1 in
           let b := Z.shiftr b 1 in
           umul_loop fuel' res a b
       end.

Definition umul (a b : Z) : result Z :=
  let res := 0 in
  umul_loop 32 res a b.

Definition __mulsi3 (a b : Z) : result Z := umul a b.

(** Byte-addressed memory; pointers are 32-bit addresses. *)
Definition memory : Type := Z -> Z.

Definition mem_store (m : memory) (a v : Z) : memory :=
  fun a' => if a' =? a then v else m a'.

(** [while (n--) *d++ = *s++;], one pass per unit of [n]. *)
Fixpoint memcpy_loop (n : nat) (m : memory) (d s : Z) : memory :=
  match n with
  | O => m
  | S k => memcpy_loop k (mem_store m d (m s)) (add32 d 1) (add32 s 1)
  end.

(** [memcpy] returns the memory it leaves and [dest]. *)
Definition memcpy (m : memory) (dest src n : Z) : memory * Z :=
  (memcpy_loop (Z.to_nat n) m dest src, dest).

(** *** Buffers and output *)

Definition buffer : Type := list (option Z).

Fixpoint upd {A : Type} (n : nat) (v : A) (l : list A) : list A :=
  match l, n with
  | [], _ => []
  | _ :: t, O => v :: t
  | h :: t, S k => h :: upd k v t
  end.

(** [buf[i] = c] *)
Definition buf_store (buf : buffer) (i c : Z) : result buffer :=
  if (0 <=? i) && (i <? Z.of_nat (length buf))
  then Done (upd (Z.to_nat i) (Some c) buf)
  else Crash (BufferIndex i).

(** The next [n] cells, the first of them at index [i]. *)
Fixpoint load_cells (cells : buffer) (i : Z) (n : nat) {struct n}
  : result (list Z) :=
  match n with
  | O => Done []
  | S k =>
      match cells with
      | Some c :: rest =>
          match load_cells rest (i + 1) k with
          | Done l => Done (c :: l)
          | Crash e => Crash e
          end
      | None :: _ => Crash (Uninitialised i)
      | [] => Crash (BufferIndex i)
      end
  end.

(** [printstr(buf + ptr, length)]: the system call writes [length] bytes. *)
Definition printstr (buf : buffer) (ptr length : Z) : IO unit :=
  fun out =>
    if ptr <? 0 then Crash (BufferIndex ptr)
    else match load_cells (skipn (Z.to_nat ptr) buf) ptr (Z.to_nat length) with
         | Done bytes => Done (tt, out ++ bytes)
         | Crash e => Crash e
         end.

(** [printstr(ptr, length)] on bytes that lie in memory. *)
Definition printstr_at (m : memory) (ptr length : Z) : IO unit :=
  fun out =>
    Done (tt, out ++ map (fun i => m (add32 ptr (Z.of_nat i)))
                         (seq 0 (Z.to_nat length))).

(** [while ( *p ) p++;], leaving [p]. *)
Fixpoint str_end (fuel : nat) (m : memory) (p : Z) : result Z :=
  if m p =? 0 then Done p
  else match fuel with
       | O => Crash NoFuel
       | S fuel' => str_end fuel' m (add32 p 1)
       end.

Definition print_str (fuel : nat) (m : memory) (s : Z) : IO unit :=
  fun out =>
    let p := s in
    match str_end fuel m p with
    | Done p => printstr_at m s (sub32 p s) out
    | Crash e => Crash e
    end.

(** A character constant, and the conversion [(char)]. *)
Definition chr (c : ascii) : Z := Z.of_nat (nat_of_ascii c).
Definition newline : Z := chr "010".
Definition char_of (z : Z) : Z := z mod 256.

Definition BUF_SIZE : Z := 20.
Definition fresh_buf : buffer := repeat None (Z.to_nat BUF_SIZE).

Definition hex_digit (d : Z) : Z :=
  char_of (if d <? 10 then chr "0" + d else chr "a" + (d - 10)).

(** [while (val) { d = val & 0xF; *p-- = ...; val >>= 4; }] *)
Fixpoint hex_loop (fuel : nat) (buf : buffer) (p val : Z)
  : result (buffer * Z) :=
  if val =? 0 then Done (buf, p)
  else match fuel with
       | O => Crash NoFuel
       | S fuel' =>
           let d := Z.land val 0xF in
           match buf_store buf p (hex_digit d) with
           | Done buf => hex_loop fuel' buf (p - 1) (Z.shiftr val 4)
           | Crash e => Crash e
           end
       end.

Definition print_hex (val : Z) : IO unit :=
  fun out =>
    let p := BUF_SIZE - 1 in
    match buf_store fresh_buf p newline with
    | Crash e => Crash e
    | Done buf =>
        let p := p - 1 in
        match (if val =? 0
               then match buf_store buf p (chr "0") with
                    | Done buf => Done (buf, p - 1)
                    | Crash e => Crash e
                    end
               else hex_loop 20 buf p val) with
        | Crash e => Crash e
        | Done (buf, p) =>
            let p := p + 1 in
            printstr buf p (BUF_SIZE - p) out
        end
    end.

(** [while (val) { *p-- = '0' + umod(val, 10); val = udiv(val, 10); }] *)
Fixpoint dec_loop (fuel : nat) (buf : buffer) (p val : Z)
  : result (buffer * Z) :=
  if val =? 0 then Done (buf, p)
  else match fuel with
       | O => Crash NoFuel
       | S fuel' =>
           match buf_store buf p (char_of (chr "0" + umod val 10)) with
           | Done buf => dec_loop fuel' buf (p - 1) (udiv val 10)
           | Crash e => Crash e
           end
       end.

Definition print_dec (val : Z) : IO unit :=
  fun out =>
    let p := BUF_SIZE - 1 in
    match buf_store fresh_buf p newline with
    | Crash e => Crash e
    | Done buf =>
        let p := p - 1 in
        match (if val =? 0
               then match buf_store buf p (chr "0") with
                    | Done buf => Done (buf, p - 1)
                    | Crash e => Crash e
                    end
               else dec_loop 20 buf p val) with
        | Crash e => Crash e
        | Done (buf, p) =>
            let p := p + 1 in
            printstr buf p (BUF_SIZE - p) out
        end
    end.

(** [do { *--p = '0' + umod(val, 10); val = udiv(val, 10); } while (val);] *)
Fixpoint dec_inline_loop (fuel : nat) (buf : buffer) (p val : Z)
  : result (buffer * Z) :=
  match fuel with
  | O => Crash NoFuel
  | S fuel' =>
      let p := p - 1 in
      match buf_store buf p (char_of (chr "0" + umod val 10)) with
      | Done buf =>
          let val := udiv val 10 in
          if val =? 0 then Done (buf, p) else dec_inline_loop fuel' buf p val
      | Crash e => Crash e
      end
  end.

Definition print_dec_inline (val : Z) : IO unit :=
  fun out =>
    let p := BUF_SIZE in
    match dec_inline_loop 20 fresh_buf p val with
    | Crash e => Crash e
    | Done (buf, p) => printstr buf p (BUF_SIZE - p) out
    end.

(** [printstr(&c, 1)] *)
Definition print_ch (c : Z) : IO unit := printstr [Some c] 0 1.

(** The body of [for (int i = 0; i < frac_digits; i++)], [n] passes. *)
Fixpoint frac_loop (n : nat) (frac : Z) : IO unit :=
  match n with
  | O => io_ret tt
  | S k =>
      let frac10 := add32 (shl32 frac 3) (shl32 frac 1) in
      let digit := Z.shiftr frac10 16 in
      let frac := Z.land frac10 0xFFFF in
      io_bind (print_ch (char_of (chr "0" + digit))) (fun _ => frac_loop k frac)
  end.

Definition print_q16_u (y_q16 frac_digits : Z) : IO unit :=
  io_bind (print_dec_inline (Z.shiftr y_q16 16)) (fun _ =>
  if frac_digits <=? 0 then print_ch newline
  else
    io_bind (print_ch (chr ".")) (fun _ =>
    let frac := Z.land y_q16 0xFFFF in
    io_bind (frac_loop (Z.to_nat frac_digits) frac) (fun _ =>
    print_ch newline))).

End Driver.

(** A memory that holds the string [x=] of [test_Fast_rsqrt] at address
    100, and zero bytes elsewhere. *)
Definition text_x_eq : Driver.memory :=
  fun a => if a =? 100 then Driver.chr "x"
           else if a =? 101 then Driver.chr "=" else 0.

(** *** Reading printed digits back *)

(** The number a string of decimal digit characters denotes. *)
Definition decimal_value (s : list Z) : Z :=
  fold_left (fun acc c => 10 * acc + (c - 48)) s 0.

Definition is_dec_digit (c : Z) : Prop := 48 <= c <= 57.

(** The value of one lower-case hexadecimal digit character. *)
Definition hex_digit_value (c : Z) : Z :=
  if c <=? 57 then c - 48 else c - 97 + 10.

Definition hex_value (s : list Z) : Z :=
  fold_left (fun acc c => 16 * acc + hex_digit_value c) s 0.

Definition is_hex_digit (c : Z) : Prop := 48 <= c <= 57 \/ 97 <= c <= 102.

(** * Properties *)

(** ** Bit operations as arithmetic *)

Lemma shiftr_div (a n : Z) : 0 <= n -> Z.shiftr a n = a / 2 ^ n.
Proof. intros; apply Z.shiftr_div_pow2; assumption. Qed.

Lemma land_low (a n : Z) : 0 <= n -> Z.land a (2 ^ n - 1) = a mod 2 ^ n.
Proof.
  intros Hn. rewrite <- Z.land_ones by assumption.
  f_equal. rewrite Z.ones_equiv. lia.
Qed.

Lemma land_1 (b : Z) : Z.land b 1 = b mod 2.
Proof. apply (land_low b 1); lia. Qed.

Lemma u32_range (z : Z) : is_u32 (u32 z).
Proof. apply Z.mod_pos_bound. lia. Qed.

Lemma u64_range (z : Z) : is_u64 (u64 z).
Proof. apply Z.mod_pos_bound. lia. Qed.

Lemma u32_small (z : Z) : is_u32 z -> u32 z = z.
Proof. apply Z.mod_small. Qed.

Lemma shiftr_u32 (z n : Z) : is_u32 z -> 0 <= n -> is_u32 (Z.shiftr z n).
Proof.
  unfold is_u32. intros Hz Hn. rewrite shiftr_div by assumption.
  assert (0 < 2 ^ n) by (apply Z.pow_pos_nonneg; lia).
  split.
  - apply Z.div_pos; lia.
  - apply Z.le_lt_trans with z; [|lia]. apply Z.div_le_upper_bound; nia.
Qed.

Lemma land_u16 (z : Z) : is_u16 (Z.land z 0xFFFF).
Proof.
  change 0xFFFF with (2 ^ 16 - 1). rewrite land_low by lia.
  apply Z.mod_pos_bound. lia.
Qed.

Lemma mul_u32_u64 (a b : Z) :
  is_u32 a -> is_u32 b -> 0 <= a * b <= 2 ^ 64 - 2 ^ 33 + 1.
Proof.
  unfold is_u32. intros Ha Hb. split; [nia|].
  assert (a * b <= (2 ^ 32 - 1) * (2 ^ 32 - 1))
    by (apply Z.mul_le_mono_nonneg; lia).
  lia.
Qed.

Create HintDb u32.
#[local] Hint Resolve u32_range u64_range shiftr_u32 land_u16 : u32.
#[local] Hint Unfold add32 sub32 shl32 : u32.

(** Bounded quantification over [0 .. n-1] by evaluation. *)
Lemma forallb_range (P : Z -> bool) (n : nat) :
  forallb P (map Z.of_nat (seq 0 n)) = true ->
  forall i, 0 <= i < Z.of_nat n -> P i = true.
Proof.
  intros H i Hi. rewrite forallb_forall in H. apply H.
  apply in_map_iff. exists (Z.to_nat i). split; [lia|].
  apply in_seq. lia.
Qed.

(** ** clz32 and the bucket index *)

Lemma clz32_bucket (x : Z) :
  0 < x < 2 ^ 32 ->
  0 <= clz32 x <= 31 /\ 2 ^ (31 - clz32 x) <= x < 2 ^ (32 - clz32 x).
Proof.
  intros Hx. unfold clz32.
  destruct (Z.eqb_spec x 0) as [->|_]; [lia|].
  cbv beta iota zeta.
  repeat match goal with
  | |- context [if ?c =? 0 then _ else _] =>
      destruct (Z.eqb_spec c 0); cbv beta iota zeta
  end.
  all: unfold add32, shl32, u32 in *.
  all: rewrite ?Z.shiftl_mul_pow2, ?shiftr_div in * by lia.
  all: repeat match goal with
       | |- context [(?a + ?b) mod 2 ^ 32] =>
           let v := eval vm_compute in ((a + b) mod 2 ^ 32) in
           change ((a + b) mod 2 ^ 32) with v
       end.
  all: repeat match goal with
       | |- context [2 ^ ?k] =>
           let v := eval vm_compute in (2 ^ k) in change (2 ^ k) with v
       | H : context [2 ^ ?k] |- _ =>
           let v := eval vm_compute in (2 ^ k) in change (2 ^ k) with v in H
       end.
  all: Z.to_euclidean_division_equations; lia.
Qed.

Lemma clz32_samples :
  clz32 0 = 32 /\ clz32 1 = 31 /\ clz32 0x80000000 = 0.
Proof. repeat split. Qed.

Lemma exp_of_bucket (x : Z) :
  0 < x < 2 ^ 32 ->
  0 <= exp_of x <= 31 /\ exp_of x = 31 - clz32 x
  /\ 2 ^ exp_of x <= x < 2 ^ (exp_of x + 1).
Proof.
  intros Hx. destruct (clz32_bucket x Hx) as [Hc Hb].
  unfold exp_of, sub32, u32. rewrite Z.mod_small by lia.
  replace (31 - clz32 x + 1) with (32 - clz32 x) by lia. lia.
Qed.

(** The bucket index is the index of the highest set bit. *)
Lemma exp_of_log2 (x : Z) : 0 < x < 2 ^ 32 -> exp_of x = Z.log2 x.
Proof.
  intros Hx. destruct (exp_of_bucket x Hx) as (He & _ & Hb).
  symmetry. apply Z.log2_unique; lia.
Qed.

Lemma clz32_log2 (x : Z) : 0 < x < 2 ^ 32 -> clz32 x = 31 - Z.log2 x.
Proof.
  intros Hx. destruct (exp_of_bucket x Hx) as (_ & He & _).
  rewrite <- (exp_of_log2 x Hx). lia.
Qed.

Lemma exp_of_top (x : Z) : 2 ^ 31 <= x < 2 ^ 32 -> exp_of x = 31.
Proof.
  intros Hx. rewrite exp_of_log2 by lia. apply Z.log2_unique; lia.
Qed.

Lemma shl32_one (e : Z) : 0 <= e <= 31 -> shl32 1 e = 2 ^ e.
Proof.
  intros He. unfold shl32, u32. rewrite Z.shiftl_mul_pow2, Z.mul_1_l by lia.
  apply Z.mod_small. split; [apply Z.pow_nonneg; lia|].
  apply Z.pow_lt_mono_r; lia.
Qed.

(** ** Table reads *)

Lemma table_read_ok (table : list Z) (i : Z) (log : list Z) :
  0 <= i < Z.of_nat (length table) ->
  table_read table i log = Ok (nth (Z.to_nat i) table 0, log ++ [i]).
Proof.
  intros Hi. unfold table_read.
  destruct (Z.leb_spec 0 i); [|lia].
  destruct (Z.ltb_spec i (Z.of_nat (length table))); [|lia].
  cbn [andb]. rewrite (nth_error_nth' table 0) by lia. reflexivity.
Qed.

Lemma table_read_fault (table : list Z) (i : Z) (log : list Z) :
  ~ 0 <= i < Z.of_nat (length table) ->
  table_read table i log = Fault (TableIndex i).
Proof.
  intros Hi. unfold table_read.
  destruct (Z.leb_spec 0 i); destruct (Z.ltb_spec i (Z.of_nat (length table)));
    cbn [andb]; try reflexivity. lia.
Qed.

Lemma reads_in_table (x : Z) :
  0 < x < 2 ^ 32 -> Forall (fun i => 0 <= i <= 31) (reads x).
Proof.
  intros Hx. destruct (exp_of_bucket x Hx) as (He & _ & _).
  unfold reads. destruct (Z.ltb_spec (exp_of x) 31).
  - repeat constructor; unfold add32, u32; try rewrite Z.mod_small; lia.
  - repeat constructor; lia.
Qed.

(** ** The multiply primitives *)

(** Loop invariant of [mul32_shift_add]: [acc + aa * b] is preserved. *)
Lemma mul32_loop_exact (fuel : nat) :
  forall acc aa b log,
    0 <= b < 2 ^ Z.of_nat fuel ->
    0 <= acc -> 0 <= aa -> acc + aa * b < 2 ^ 64 ->
    Reference.mul32_loop fuel acc aa b log = Ok (acc + aa * b, log).
Proof.
  induction fuel as [|fuel IH]; intros acc aa b log Hb Hacc Haa Hsum.
  - change (2 ^ Z.of_nat 0) with 1 in Hb. assert (b = 0) by lia. subst b.
    cbn. unfold ret. do 2 f_equal. lia.
  - cbn [Reference.mul32_loop].
    destruct (Z.eqb_spec b 0) as [->|Hb0].
    + unfold ret. do 2 f_equal. lia.
    + rewrite Nat2Z.inj_succ, Z.pow_succ_r in Hb by lia.
      rewrite land_1, shiftr_div by lia. change (2 ^ 1) with 2.
      assert (Hdm : b = 2 * (b / 2) + b mod 2) by (apply Z.div_mod; lia).
      assert (Hm : 0 <= b mod 2 < 2) by (apply Z.mod_pos_bound; lia).
      assert (Hq : 0 <= b / 2 < 2 ^ Z.of_nat fuel) by lia.
      assert (Hprod : 0 <= aa * (b / 2)) by nia.
      destruct (Z.eqb_spec (b / 2) 0) as [Hz|Hnz].
      * (* last iteration: the shifted [aa] is never used again *)
        rewrite Hz. destruct fuel; cbn [Reference.mul32_loop Z.eqb]; unfold ret;
          destruct (Z.eqb_spec (b mod 2) 0); unfold add64, u64;
          rewrite ?Z.mod_small by nia; do 2 f_equal; nia.
      * assert (H2aa : 2 * aa < 2 ^ 64) by nia.
        unfold shl64, u64. rewrite Z.shiftl_mul_pow2 by lia.
        change (2 ^ 1) with 2. rewrite (Z.mod_small (aa * 2)) by lia.
        destruct (Z.eqb_spec (b mod 2) 0) as [H0|H1].
        -- rewrite IH by nia. do 2 f_equal. nia.
        -- unfold add64, u64. rewrite Z.mod_small by nia.
           rewrite IH by nia. do 2 f_equal. nia.
Qed.

Lemma mul32_shift_add_exact (a b : Z) (log : list Z) :
  is_u32 a -> is_u32 b ->
  Reference.mul32_shift_add a b log = Ok (a * b, log).
Proof.
  intros Ha Hb. pose proof (mul_u32_u64 a b Ha Hb) as Hab.
  unfold is_u32 in *. unfold Reference.mul32_shift_add, Reference.mul32_fuel, u64.
  rewrite Z.mod_small by lia.
  apply mul32_loop_exact; lia.
Qed.

(** A zero multiplier leaves the loop before its first iteration, whatever
    the fuel. *)
Lemma mul32_loop_zero (fuel : nat) (acc aa : Z) (log : list Z) :
  Reference.mul32_loop fuel acc aa 0 log = Ok (acc, log).
Proof. destruct fuel; reflexivity. Qed.

Lemma mul16_body_unfold (a b16 acc shift : Z) :
  Optimal.mul16_body a b16 acc shift
  = add32 acc (shl32 (nibble_product a (Z.land (Z.shiftr b16 shift) 0xF)) shift).
Proof. reflexivity. Qed.

Lemma nibble_times (a nib : Z) :
  0 <= a < 2 ^ 16 -> 0 <= nib < 16 -> nibble_product a nib = a * nib.
Proof.
  intros Ha Hn. unfold nibble_product.
  assert (Hc : nib = 0 \/ nib = 1 \/ nib = 2 \/ nib = 3 \/ nib = 4 \/ nib = 5
               \/ nib = 6 \/ nib = 7 \/ nib = 8 \/ nib = 9 \/ nib = 10
               \/ nib = 11 \/ nib = 12 \/ nib = 13 \/ nib = 14 \/ nib = 15) by lia.
  unfold add32, shl32, u32. rewrite !Z.shiftl_mul_pow2 by lia.
  change (2 ^ 1) with 2; change (2 ^ 2) with 4; change (2 ^ 3) with 8.
  change (2 ^ 16) with 65536 in Ha. change (2 ^ 32) with 4294967296.
  repeat (destruct Hc as [->|Hc]); try subst nib;
    repeat match goal with
    | |- context [Z.land ?n ?k =? 0] =>
        let v := eval vm_compute in (Z.land n k =? 0) in
        change (Z.land n k =? 0) with v
    end; cbv beta iota zeta;
    rewrite ?Z.add_0_l; Z.to_euclidean_division_equations; lia.
Qed.

Lemma mul16_body_exact (a b16 acc shift : Z) :
  0 <= a < 2 ^ 16 -> 0 <= shift <= 12 -> 0 <= acc ->
  acc + a * ((b16 / 2 ^ shift) mod 16) * 2 ^ shift < 2 ^ 32 ->
  Optimal.mul16_body a b16 acc shift
  = acc + a * ((b16 / 2 ^ shift) mod 16) * 2 ^ shift.
Proof.
  intros Ha Hs Hacc Hsum. rewrite mul16_body_unfold.
  change 0xF with (2 ^ 4 - 1). rewrite land_low, shiftr_div by lia.
  change (2 ^ 4) with 16.
  set (nib := (b16 / 2 ^ shift) mod 16) in *.
  assert (Hn : 0 <= nib < 16) by (apply Z.mod_pos_bound; lia).
  rewrite (nibble_times a nib Ha Hn).
  unfold add32, shl32, u32. rewrite Z.shiftl_mul_pow2 by lia.
  assert (0 < 2 ^ shift) by (apply Z.pow_pos_nonneg; lia).
  assert (0 <= a * nib * 2 ^ shift) by nia.
  rewrite (Z.mod_small (a * nib * 2 ^ shift)) by lia.
  apply Z.mod_small. lia.
Qed.

Ltac mul16_pass n :=
  fold n; change (2 ^ 0) with 1; change (2 ^ 4) with 16;
  change (2 ^ 8) with 256; change (2 ^ 12) with 4096;
  change (2 ^ 16) with 65536; change (2 ^ 32) with 4294967296; nia.

(** [mul16x16_32] multiplies the low 16 bits of its operands exactly. *)
Lemma mul16x16_32_low (a16 b16 : Z) :
  Optimal.mul16x16_32 a16 b16 = (a16 mod 2 ^ 16) * (b16 mod 2 ^ 16).
Proof.
  unfold Optimal.mul16x16_32. change 0xFFFF with (2 ^ 16 - 1).
  rewrite land_low by lia.
  set (a := a16 mod 2 ^ 16).
  assert (Ha : 0 <= a < 2 ^ 16) by (apply Z.mod_pos_bound; lia).
  set (n0 := (b16 / 2 ^ 0) mod 16). set (n1 := (b16 / 2 ^ 4) mod 16).
  set (n2 := (b16 / 2 ^ 8) mod 16). set (n3 := (b16 / 2 ^ 12) mod 16).
  assert (H0 : 0 <= n0 < 16) by (apply Z.mod_pos_bound; lia).
  assert (H1 : 0 <= n1 < 16) by (apply Z.mod_pos_bound; lia).
  assert (H2 : 0 <= n2 < 16) by (apply Z.mod_pos_bound; lia).
  assert (H3 : 0 <= n3 < 16) by (apply Z.mod_pos_bound; lia).
  assert (Hb : b16 mod 2 ^ 16 = n0 + 16 * n1 + 256 * n2 + 4096 * n3).
  { subst n0 n1 n2 n3.
    change (2 ^ 0) with 1; change (2 ^ 4) with 16; change (2 ^ 8) with 256;
      change (2 ^ 12) with 4096; change (2 ^ 16) with 65536.
    Z.to_euclidean_division_equations; lia. }
  rewrite Hb. cbn [fold_left].
  change (2 ^ 16) with 65536 in Ha.
  rewrite (mul16_body_exact a b16 0 0) by mul16_pass n0.
  fold n0. change (2 ^ 0) with 1.
  rewrite (mul16_body_exact a b16 _ 4) by mul16_pass n1.
  fold n1. change (2 ^ 4) with 16.
  rewrite (mul16_body_exact a b16 _ 8) by mul16_pass n2.
  fold n2. change (2 ^ 8) with 256.
  rewrite (mul16_body_exact a b16 _ 12) by mul16_pass n3.
  fold n3. change (2 ^ 12) with 4096.
  lia.
Qed.

Lemma mul16x16_32_exact (a b : Z) :
  is_u16 a -> is_u16 b -> Optimal.mul16x16_32 a b = a * b.
Proof.
  unfold is_u16. intros Ha Hb. rewrite mul16x16_32_low, !Z.mod_small by lia.
  reflexivity.
Qed.

(** ** The model returns the derived values *)

Lemma ref_newton_xy2_q16_value (y x : Z) (log : list Z) :
  is_u32 y -> is_u32 x ->
  Reference.newton_xy2_q16 y x log = Ok (ref_xy2_value y x, log).
Proof.
  intros Hy Hx. unfold Reference.newton_xy2_q16, bind.
  rewrite (mul32_shift_add_exact y y) by assumption.
  rewrite (mul32_shift_add_exact x (u32 (y * y))) by auto with u32.
  rewrite (mul32_shift_add_exact x (u32 (Z.shiftr (y * y) 32))) by auto with u32.
  reflexivity.
Qed.

Lemma ref_newton_term_value (y x : Z) (log : list Z) :
  is_u32 y -> is_u32 x ->
  Reference.newton_term y x log = Ok (ref_term_value y x, log).
Proof.
  intros Hy Hx. unfold Reference.newton_term, bind.
  rewrite ref_newton_xy2_q16_value by assumption. reflexivity.
Qed.

Lemma ref_term_value_u32 (y x : Z) : is_u32 (ref_term_value y x).
Proof. unfold ref_term_value, sub32. auto with u32. Qed.

Lemma ref_q16_newton_step_value (y x : Z) (log : list Z) :
  is_u32 y -> is_u32 x ->
  Reference.q16_newton_step y x log = Ok (ref_step_value y x, log).
Proof.
  intros Hy Hx. unfold Reference.q16_newton_step, bind.
  rewrite ref_newton_term_value by assumption.
  rewrite mul32_shift_add_exact; [reflexivity|assumption|].
  apply ref_term_value_u32.
Qed.

Lemma ref_step_value_u32 (y x : Z) : is_u32 (ref_step_value y x).
Proof. unfold ref_step_value. auto with u32. Qed.

Lemma ref_fast_rsqrt_seed_value (x : Z) (log : list Z) :
  0 < x < 2 ^ 32 ->
  Reference.fast_rsqrt_seed x log = Ok (ref_seed_value x, log ++ reads x).
Proof.
  intros Hx. destruct (exp_of_bucket x Hx) as (He & _ & _).
  unfold Reference.fast_rsqrt_seed, ref_seed_value, reads, bind.
  fold (exp_of x).
  rewrite table_read_ok by (cbn; lia). fold (ref_tbl (exp_of x)).
  destruct (Z.ltb_spec (exp_of x) 31) as [Hlt|Hge].
  - assert (Hs : add32 (exp_of x) 1 = exp_of x + 1)
      by (unfold add32, u32; apply Z.mod_small; lia).
    rewrite table_read_ok by (rewrite Hs; cbn; lia).
    fold (ref_tbl (add32 (exp_of x) 1)).
    rewrite mul32_shift_add_exact by (unfold sub32; auto with u32).
    unfold ret. rewrite <- app_assoc. reflexivity.
  - unfold ret at 1.
    rewrite mul32_shift_add_exact by (unfold sub32; auto with u32).
    reflexivity.
Qed.

Lemma ref_seed_value_u32 (x : Z) : is_u32 (Reference.s_y (ref_seed_value x)).
Proof. cbn. unfold sub32. auto with u32. Qed.

Lemma ref_fast_rsqrt_value (x : Z) (log : list Z) :
  is_u32 x ->
  Reference.fast_rsqrt x log
  = Ok (ref_rsqrt_value x, if x =? 0 then log else log ++ reads x).
Proof.
  intros Hx. unfold Reference.fast_rsqrt, ref_rsqrt_value.
  destruct (Z.eqb_spec x 0) as [->|Hnz]; [reflexivity|].
  unfold bind. unfold is_u32 in Hx. rewrite ref_fast_rsqrt_seed_value by lia.
  rewrite ref_q16_newton_step_value
    by (unfold is_u32; try apply ref_seed_value_u32; lia).
  rewrite ref_q16_newton_step_value
    by (unfold is_u32; try apply ref_step_value_u32; lia).
  reflexivity.
Qed.

Lemma ref_rsqrt_value_u32 (x : Z) : is_u32 (ref_rsqrt_value x).
Proof.
  unfold ref_rsqrt_value. destruct (x =? 0).
  - unfold is_u32; lia.
  - apply ref_step_value_u32.
Qed.

Lemma opt_fast_rsqrt_seed_value (x : Z) (log : list Z) :
  0 < x < 2 ^ 32 ->
  Optimal.fast_rsqrt_seed x log = Ok (opt_seed_value x, log ++ reads x).
Proof.
  intros Hx. destruct (exp_of_bucket x Hx) as (He & _ & _).
  unfold Optimal.fast_rsqrt_seed, opt_seed_value, reads, bind.
  fold (exp_of x).
  rewrite table_read_ok by (cbn; lia). fold (opt_tbl (exp_of x)).
  destruct (Z.ltb_spec (exp_of x) 31) as [Hlt|Hge].
  - assert (Hs : add32 (exp_of x) 1 = exp_of x + 1)
      by (unfold add32, u32; apply Z.mod_small; lia).
    rewrite table_read_ok by (rewrite Hs; cbn; lia).
    fold (opt_tbl (add32 (exp_of x) 1)).
    unfold ret. rewrite <- app_assoc. reflexivity.
  - reflexivity.
Qed.

Lemma opt_fast_rsqrt_value (x : Z) (log : list Z) :
  is_u32 x ->
  Optimal.fast_rsqrt x log
  = Ok (opt_rsqrt_value x, if x =? 0 then log else log ++ reads x).
Proof.
  intros Hx. unfold Optimal.fast_rsqrt, opt_rsqrt_value.
  destruct (Z.eqb_spec x 0) as [->|Hnz]; [reflexivity|].
  unfold bind. unfold is_u32 in Hx. rewrite opt_fast_rsqrt_seed_value by lia.
  reflexivity.
Qed.

Lemma opt_step_u32 (y x : Z) : is_u32 (Optimal.q16_newton_step y x).
Proof. unfold Optimal.q16_newton_step, add32. apply u32_range. Qed.

Lemma opt_rsqrt_value_u32 (x : Z) : is_u32 (opt_rsqrt_value x).
Proof.
  unfold opt_rsqrt_value. destruct (x =? 0).
  - unfold is_u32; lia.
  - apply opt_step_u32.
Qed.

(** ** Totality and the zero input *)

Lemma reference_total (x : Z) :
  is_u32 x ->
  exists v log, run (Reference.fast_rsqrt x) = Ok (v, log) /\ is_u32 v.
Proof.
  intros Hx. unfold run. rewrite ref_fast_rsqrt_value by exact Hx.
  eexists; eexists; split; [reflexivity|]. apply ref_rsqrt_value_u32.
Qed.

Lemma optimal_total (x : Z) :
  is_u32 x ->
  exists v log, run (Optimal.fast_rsqrt x) = Ok (v, log) /\ is_u32 v.
Proof.
  intros Hx. unfold run. rewrite opt_fast_rsqrt_value by exact Hx.
  eexists; eexists; split; [reflexivity|]. apply opt_rsqrt_value_u32.
Qed.

(** C2.  [fast_rsqrt 0] is 0 in both variants, a plain result reached
    without reading the table; and on every 32-bit input both variants
    return a 32-bit value: no fault (fuel, table index) can occur. *)
Theorem fast_rsqrt_zero_and_total (x : Z) :
  is_u32 x ->
  run (Reference.fast_rsqrt 0) = Ok (0, [])
  /\ run (Optimal.fast_rsqrt 0) = Ok (0, [])
  /\ (exists v log, run (Reference.fast_rsqrt x) = Ok (v, log) /\ is_u32 v)
  /\ (exists v log, run (Optimal.fast_rsqrt x) = Ok (v, log) /\ is_u32 v).
Proof.
  intros Hx. repeat split; try reflexivity.
  - apply reference_total; assumption.
  - apply optimal_total; assumption.
Qed.

Lemma fast_rsqrt_zero_and_total_witness :
  is_u32 1000
  /\ (run (Reference.fast_rsqrt 0) = Ok (0, [])
      /\ run (Optimal.fast_rsqrt 0) = Ok (0, [])
      /\ (exists v log, run (Reference.fast_rsqrt 1000) = Ok (v, log) /\ is_u32 v)
      /\ (exists v log, run (Optimal.fast_rsqrt 1000) = Ok (v, log) /\ is_u32 v)).
Proof.
  assert (H : is_u32 1000) by (unfold is_u32; lia).
  split; [exact H | apply (fast_rsqrt_zero_and_total 1000 H)].
Defined.

(** ** Exact products *)

(** C4.  [mul32_shift_add a b] returns the exact product [a * b], which
    fits in 64 bits, for all 32-bit [a] and [b]; with multiplier 0 the loop
    is left before any iteration (no fuel is needed) with result 0; and
    [mul16x16_32 c d] is the exact product [c * d], which fits in 32 bits,
    for all 16-bit [c] and [d]. *)
Theorem multiply_primitives_exact (a b c d : Z) :
  is_u32 a -> is_u32 b -> is_u16 c -> is_u16 d ->
  (forall log, Reference.mul32_shift_add a b log = Ok (a * b, log))
  /\ is_u64 (a * b)
  /\ (forall log, Reference.mul32_loop 0 0 (u64 a) 0 log = Ok (0, log))
  /\ Optimal.mul16x16_32 c d = c * d
  /\ is_u32 (c * d).
Proof.
  intros Ha Hb Hc Hd. repeat split.
  - intros log. apply mul32_shift_add_exact; assumption.
  - apply (mul_u32_u64 a b Ha Hb).
  - pose proof (mul_u32_u64 a b Ha Hb). lia.
  - apply mul16x16_32_exact; assumption.
  - unfold is_u16 in *. nia.
  - unfold is_u16 in *.
    assert (c * d < 2 ^ 16 * 2 ^ 16) by (apply Z.mul_lt_mono_nonneg; lia). lia.
Qed.

Lemma multiply_primitives_exact_witness :
  (is_u32 4000000000 /\ is_u32 3000000001 /\ is_u16 65535 /\ is_u16 54321)
  /\ ((forall log, Reference.mul32_shift_add 4000000000 3000000001 log
                   = Ok (4000000000 * 3000000001, log))
      /\ is_u64 (4000000000 * 3000000001)
      /\ (forall log, Reference.mul32_loop 0 0 (u64 4000000000) 0 log = Ok (0, log))
      /\ Optimal.mul16x16_32 65535 54321 = 65535 * 54321
      /\ is_u32 (65535 * 54321)).
Proof.
  assert (Ha : is_u32 4000000000) by (unfold is_u32; lia).
  assert (Hb : is_u32 3000000001) by (unfold is_u32; lia).
  assert (Hc : is_u16 65535) by (unfold is_u16; lia).
  assert (Hd : is_u16 54321) by (unfold is_u16; lia).
  split; [exact (conj Ha (conj Hb (conj Hc Hd)))|].
  apply (multiply_primitives_exact 4000000000 3000000001 65535 54321 Ha Hb Hc Hd).
Defined.

(** ** The lookup table *)

Lemma round_rsqrt_pow2_nearest (i : Z) :
  0 <= i <= 31 -> nearest_rsqrt_pow2 i (round_rsqrt_pow2 i) = true.
Proof.
  intros Hi.
  apply (forallb_range (fun i => nearest_rsqrt_pow2 i (round_rsqrt_pow2 i)) 32);
    [vm_compute; reflexivity | lia].
Qed.

(** Entry 0 is [UINT16_MAX], one below the rounded value 65536, which does
    not fit the 16-bit entry type. *)
Lemma table_entry0_not_rounded :
  ~ (forall i, 0 <= i <= 31 -> ref_tbl i = round_rsqrt_pow2 i)
  /\ ~ (forall i, 0 <= i <= 31 -> opt_tbl i = round_rsqrt_pow2 i).
Proof.
  split; intros H; specialize (H 0 ltac:(lia)); vm_compute in H; discriminate.
Qed.

(** Entry 19 holds 90, where [2^16 / sqrt(2^19) = 90.51] rounds to 91. *)
Lemma table_entry19 :
  ref_tbl 19 = 90 /\ opt_tbl 19 = 90 /\ round_rsqrt_pow2 19 = 91.
Proof. repeat split. Qed.

(** C5 (amended).  The two variants hold the same 32-entry table; every
    entry is an unsigned 16-bit value; entry 0 is [UINT16_MAX], one below
    [round(2^16 / sqrt(2^0)) = 65536]; and every entry [i] in [1 .. 31] other
    than [i = 19] is [round(2^16 / sqrt(2^i))].  The table is a constant of
    the model: no operation takes or returns it. *)
Theorem table_entries (i : Z) :
  0 <= i <= 31 ->
  Reference.rsqrt_table = Optimal.rsqrt_table
  /\ length Reference.rsqrt_table = 32%nat
  /\ is_u16 (ref_tbl i)
  /\ (i <> 0 -> i <> 19 -> ref_tbl i = round_rsqrt_pow2 i)
  /\ ref_tbl 0 = UINT16_MAX
  /\ UINT16_MAX = round_rsqrt_pow2 0 - 1.
Proof.
  intros Hi.
  assert (H : table_entry_ok Reference.rsqrt_table i = true).
  { apply (forallb_range (table_entry_ok Reference.rsqrt_table) 32);
      [vm_compute; reflexivity | lia]. }
  unfold table_entry_ok in H. fold (ref_tbl i) in H.
  apply andb_prop in H. destruct H as [H1 H2]. apply andb_prop in H1.
  destruct H1 as [Hlo Hhi].
  repeat split; try reflexivity.
  - lia.
  - lia.
  - intros H0 H19. destruct (Z.eqb_spec i 0); [contradiction|].
    destruct (Z.eqb_spec i 19); [contradiction|]. lia.
Qed.

Lemma table_entries_witness :
  0 <= 7 <= 31
  /\ (Reference.rsqrt_table = Optimal.rsqrt_table
      /\ length Reference.rsqrt_table = 32%nat
      /\ is_u16 (ref_tbl 7)
      /\ (7 <> 0 -> 7 <> 19 -> ref_tbl 7 = round_rsqrt_pow2 7)
      /\ ref_tbl 0 = UINT16_MAX
      /\ UINT16_MAX = round_rsqrt_pow2 0 - 1).
Proof.
  assert (H : 0 <= 7 <= 31) by lia.
  split; [exact H | apply (table_entries 7 H)].
Defined.

(** ** Rounding in the Newton step *)





(** The optimal step shifts its two partial results without adding
    anything before either shift. *)
Lemma opt_step_truncates (y x : Z) :
  let y16 := y mod 2 ^ 16 in
  let term := Optimal.newton_term y x in
  let term_hi := term / 2 ^ 16 in
  let term_lo := term mod 2 ^ 16 in
  Optimal.q16_newton_step y x
  = (if (1 <=? term_hi) && (term_hi <=? 3) then y16 * term_hi / 2 else 0)
    + y16 * term_lo / 2 ^ 17.
Proof.
  intros y16 term term_hi term_lo. unfold Optimal.q16_newton_step.
  fold term. change 0xFFFF with (2 ^ 16 - 1). rewrite !land_low by lia.
  fold y16 term_lo. rewrite !shiftr_div by lia. fold term_hi.
  rewrite mul16x16_32_low. fold y16.
  assert (Hy : 0 <= y16 < 2 ^ 16) by (apply Z.mod_pos_bound; lia).
  assert (Hl : 0 <= term_lo < 2 ^ 16) by (apply Z.mod_pos_bound; lia).
  rewrite (Z.mod_small y16), (Z.mod_small term_lo) by lia.
  assert (Hp : 0 <= y16 * term_lo < 2 ^ 32).
  { split; [nia|].
    assert (y16 * term_lo < 2 ^ 16 * 2 ^ 16)
      by (apply Z.mul_lt_mono_nonneg; lia). lia. }
  assert (Ht1 : 0 <= y16 * term_lo / 2 ^ 17 < 2 ^ 15).
  { split; [apply Z.div_pos|apply Z.div_lt_upper_bound]; lia. }
  change (2 ^ 1) with 2.
  unfold add32, shl32, u32. rewrite Z.shiftl_mul_pow2 by lia.
  change (2 ^ 1) with 2.
  destruct (Z.eqb_spec term_hi 3) as [->|H3];
    [|destruct (Z.eqb_spec term_hi 2) as [->|H2];
      [|destruct (Z.eqb_spec term_hi 1) as [->|H1]]].
  - cbn [Z.leb Z.compare Pos.compare Pos.compare_cont andb].
    rewrite (Z.mod_small (y16 * 2)) by lia.
    rewrite (Z.mod_small (y16 * 2 + y16)) by lia.
    replace (y16 * 2 + y16) with (y16 * 3) by lia.
    apply Z.mod_small.
    assert (0 <= y16 * 3 / 2 < 2 ^ 18)
      by (split; [apply Z.div_pos|apply Z.div_lt_upper_bound]; lia).
    lia.
  - cbn [Z.leb Z.compare Pos.compare Pos.compare_cont andb].
    rewrite (Z.mod_small (y16 * 2)) by lia.
    apply Z.mod_small.
    assert (0 <= y16 * 2 / 2 < 2 ^ 18)
      by (split; [apply Z.div_pos|apply Z.div_lt_upper_bound]; lia).
    lia.
  - cbn [Z.leb Z.compare Pos.compare Pos.compare_cont andb].
    rewrite Z.mul_1_r. apply Z.mod_small.
    assert (0 <= y16 / 2 < 2 ^ 18)
      by (split; [apply Z.div_pos|apply Z.div_lt_upper_bound]; lia).
    lia.
  - replace ((1 <=? term_hi) && (term_hi <=? 3)) with false
      by (symmetry; apply andb_false_iff;
          destruct (Z.leb_spec 1 term_hi); destruct (Z.leb_spec term_hi 3);
          auto; lia).
    change (0 / 2) with 0. apply Z.mod_small. lia.
Qed.





(** ** The interpolation fraction *)

Lemma frac_spec_range (x : Z) : 0 < x -> 0 <= frac_spec x < 2 ^ 16.
Proof.
  intros Hx. unfold frac_spec.
  destruct (Z.log2_spec x Hx) as [Hlo Hhi].
  pose proof (Z.log2_nonneg x) as He.
  set (e := Z.log2 x) in *.
  rewrite Z.shiftl_mul_pow2, shiftr_div by lia.
  assert (0 < 2 ^ e) by (apply Z.pow_pos_nonneg; lia).
  rewrite Z.pow_succ_r in Hhi by lia.
  split.
  - apply Z.div_pos; nia.
  - apply Z.div_lt_upper_bound; nia.
Qed.

Lemma opt_frac_spec (x : Z) :
  0 < x < 2 ^ 32 ->
  Optimal.s_frac (opt_seed_value x) = frac_spec x.
Proof.
  intros Hx. destruct (exp_of_bucket x Hx) as (He & _ & Hb).
  pose proof (frac_spec_range x (proj1 Hx)) as Hr. revert Hr.
  unfold frac_spec. rewrite <- (exp_of_log2 x Hx).
  cbn [opt_seed_value Optimal.s_frac].
  set (e := exp_of x) in *. intros Hr.
  rewrite shl32_one by lia.
  assert (H2e : 0 < 2 ^ e) by (apply Z.pow_pos_nonneg; lia).
  assert (Hd : sub32 x (2 ^ e) = x - 2 ^ e)
    by (unfold sub32, u32; apply Z.mod_small; lia).
  rewrite Hd.
  destruct (Z.leb_spec 16 e) as [Hge|Hlt].
  - assert (Hs : sub32 e 16 = e - 16)
      by (unfold sub32, u32; apply Z.mod_small; lia).
    rewrite Hs. symmetry. apply Z.shiftr_shiftl_r. lia.
  - assert (Hs : sub32 16 e = 16 - e)
      by (unfold sub32, u32; apply Z.mod_small; lia).
    rewrite Hs, Z.shiftr_shiftl_l in * by lia.
    unfold shl32, u32. apply Z.mod_small. lia.
Qed.

Lemma ref_frac_spec (x : Z) :
  0 < x < 2 ^ 31 ->
  Reference.s_frac (ref_seed_value x) = frac_spec x.
Proof.
  intros Hx. assert (Hx' : 0 < x < 2 ^ 32) by lia.
  destruct (exp_of_bucket x Hx') as (He & _ & Hb).
  pose proof (frac_spec_range x (proj1 Hx)) as Hr. revert Hr.
  unfold frac_spec. rewrite <- (exp_of_log2 x Hx').
  cbn [ref_seed_value Reference.s_frac].
  set (e := exp_of x) in *. intros Hr.
  assert (He31 : e < 31).
  { destruct (Z.lt_ge_cases e 31) as [|Hge]; [assumption|].
    assert (2 ^ 31 <= 2 ^ e) by (apply Z.pow_le_mono_r; lia). lia. }
  destruct (Z.ltb_spec e 31) as [_|]; [|lia].
  rewrite shl32_one by lia.
  assert (H2e : 0 < 2 ^ e) by (apply Z.pow_pos_nonneg; lia).
  assert (H2e' : 2 ^ e < 2 ^ 32) by (apply Z.pow_lt_mono_r; lia).
  unfold sub64, shl64, u64.
  rewrite (Z.mod_small x), (Z.mod_small (2 ^ e)) by lia.
  rewrite (Z.mod_small (x - 2 ^ e)) by lia.
  rewrite Z.shiftl_mul_pow2 in * by lia.
  rewrite (Z.mod_small ((x - 2 ^ e) * 2 ^ 16)) by lia.
  apply u32_small. unfold is_u32. lia.
Qed.

(** In the top bucket the reference variant subtracts nothing from [x]:
    [one_exp] is 0 there, not [2^31]. *)
Lemma ref_frac_top (x : Z) :
  2 ^ 31 <= x < 2 ^ 32 ->
  Reference.s_frac (ref_seed_value x) = Z.shiftr (Z.shiftl x 16) 31
  /\ 2 ^ 16 <= Reference.s_frac (ref_seed_value x) < 2 ^ 17.
Proof.
  intros Hx. pose proof (exp_of_top x Hx) as He31.
  cbn [ref_seed_value Reference.s_frac].
  rewrite He31. change (31 <? 31) with false. cbv iota.
  unfold sub64, shl64, u64. change (0 mod 2 ^ 64) with 0.
  rewrite (Z.mod_small x), Z.sub_0_r by lia.
  rewrite (Z.mod_small x) by lia.
  rewrite !Z.shiftl_mul_pow2, !shiftr_div by lia.
  rewrite (Z.mod_small (x * 2 ^ 16)) by lia.
  assert (2 ^ 16 <= x * 2 ^ 16 / 2 ^ 31 < 2 ^ 17).
  { split; [apply Z.div_le_lower_bound|apply Z.div_lt_upper_bound]; lia. }
  rewrite u32_small by (unfold is_u32; lia). lia.
Qed.

(** C7 (the code at the failing input).  For [x = 2^31] the reference
    variant finds [exp = 31] and computes the fraction 65536, which is
    neither [((x - 2^exp) << 16) >> exp = 0] nor below [2^16]. *)
Theorem reference_frac_at_top_bit :
  exists s log,
    run (Reference.fast_rsqrt_seed (2 ^ 31)) = Ok (s, log)
    /\ Reference.s_exp s = 31
    /\ Reference.s_frac s = 65536
    /\ frac_spec (2 ^ 31) = 0
    /\ ~ (0 <= Reference.s_frac s < 2 ^ 16).
Proof.
  eexists; eexists. split; [vm_compute; reflexivity|].
  cbn [Reference.s_exp Reference.s_frac]. repeat split; try reflexivity.
  intros [_ H]. vm_compute in H. discriminate.
Qed.

(** Where the fraction is as specified: everywhere in the optimal variant,
    below [2^31] in the reference variant. *)
Lemma frac_where_it_holds (x : Z) :
  0 < x < 2 ^ 32 ->
  (exists s log, run (Optimal.fast_rsqrt_seed x) = Ok (s, log)
     /\ Optimal.s_e s = Z.log2 x
     /\ Optimal.s_frac s = frac_spec x /\ 0 <= Optimal.s_frac s < 2 ^ 16)
  /\ (x < 2 ^ 31 ->
      exists s log, run (Reference.fast_rsqrt_seed x) = Ok (s, log)
     /\ Reference.s_exp s = Z.log2 x
     /\ Reference.s_frac s = frac_spec x /\ 0 <= Reference.s_frac s < 2 ^ 16).
Proof.
  intros Hx. split.
  - exists (opt_seed_value x). eexists. unfold run.
    rewrite opt_fast_rsqrt_seed_value by assumption.
    split; [reflexivity|]. rewrite opt_frac_spec by assumption.
    repeat split; try apply frac_spec_range; try lia.
    apply exp_of_log2; assumption.
  - intros Hlt. exists (ref_seed_value x). eexists. unfold run.
    rewrite ref_fast_rsqrt_seed_value by assumption.
    split; [reflexivity|]. rewrite ref_frac_spec by lia.
    repeat split; try apply frac_spec_range; try lia.
    apply exp_of_log2; assumption.
Qed.

(** ** The top bucket *)

(** C8.  For every input [x] whose highest set bit is bit 31,
    [fast_rsqrt x] in both variants takes the clamp path: it finds
    [exp = 31], sets [y_next] to the constant 1 without a table fetch, and
    the whole call reads the table exactly once, at index 31; its result is
    what the Newton steps make of the seed built with that constant.  And
    on every 32-bit input [z] both variants run without a table fault,
    every index they read lying in [0 .. 31]. *)
Theorem top_bucket_clamp (x z : Z) :
  2 ^ 31 <= x < 2 ^ 32 -> is_u32 z ->
  (exists s v,
      run (Reference.fast_rsqrt_seed x) = Ok (s, [31])
      /\ Reference.s_exp s = 31 /\ Reference.s_y_next s = 1
      /\ run (Reference.fast_rsqrt x) = Ok (v, [31])
      /\ run (y <- Reference.q16_newton_step (Reference.s_y s) x ;;
              Reference.q16_newton_step y x) = Ok (v, []))
  /\ (exists s,
      run (Optimal.fast_rsqrt_seed x) = Ok (s, [31])
      /\ Optimal.s_e s = 31 /\ Optimal.s_y1 s = 1
      /\ run (Optimal.fast_rsqrt x)
         = Ok (Optimal.q16_newton_step (Optimal.s_y s) x, [31]))
  /\ (exists v log, run (Reference.fast_rsqrt z) = Ok (v, log)
             /\ Forall (fun i => 0 <= i <= 31) log)
  /\ (exists v log, run (Optimal.fast_rsqrt z) = Ok (v, log)
             /\ Forall (fun i => 0 <= i <= 31) log).
Proof.
  intros Hx Hz. pose proof (exp_of_top x Hx) as He.
  assert (Hx' : 0 < x < 2 ^ 32) by lia.
  assert (Hu : is_u32 x) by (unfold is_u32; lia).
  assert (Hr : reads x = [31]) by (unfold reads; rewrite He; reflexivity).
  assert (Hnz : (x =? 0) = false) by (apply Z.eqb_neq; lia).
  unfold run.
  split; [|split; [|split]].
  - exists (ref_seed_value x), (ref_rsqrt_value x).
    rewrite ref_fast_rsqrt_seed_value by assumption.
    rewrite ref_fast_rsqrt_value by assumption.
    rewrite Hnz, Hr.
    split; [reflexivity|].
    split; [cbn [ref_seed_value Reference.s_exp]; exact He|].
    split; [cbn [ref_seed_value Reference.s_y_next]; rewrite He; reflexivity|].
    split; [reflexivity|].
    unfold bind.
    rewrite ref_q16_newton_step_value
      by (try apply ref_seed_value_u32; assumption).
    rewrite ref_q16_newton_step_value
      by (try apply ref_step_value_u32; assumption).
    unfold ref_rsqrt_value. rewrite Hnz. reflexivity.
  - exists (opt_seed_value x).
    rewrite opt_fast_rsqrt_seed_value by assumption.
    rewrite opt_fast_rsqrt_value by assumption.
    rewrite Hnz, Hr.
    split; [reflexivity|].
    split; [cbn [opt_seed_value Optimal.s_e]; exact He|].
    split; [cbn [opt_seed_value Optimal.s_y1]; rewrite He; reflexivity|].
    unfold opt_rsqrt_value. rewrite Hnz. reflexivity.
  - rewrite ref_fast_rsqrt_value by assumption.
    eexists; eexists; split; [reflexivity|].
    destruct (Z.eqb_spec z 0); [constructor|].
    apply reads_in_table. unfold is_u32 in Hz. lia.
  - rewrite opt_fast_rsqrt_value by assumption.
    eexists; eexists; split; [reflexivity|].
    destruct (Z.eqb_spec z 0); [constructor|].
    apply reads_in_table. unfold is_u32 in Hz. lia.
Qed.

Lemma top_bucket_clamp_witness :
  (2 ^ 31 <= 2 ^ 31 < 2 ^ 32 /\ is_u32 0xFFFFFFFF)
  /\ ((exists s v,
      run (Reference.fast_rsqrt_seed (2 ^ 31)) = Ok (s, [31])
      /\ Reference.s_exp s = 31 /\ Reference.s_y_next s = 1
      /\ run (Reference.fast_rsqrt (2 ^ 31)) = Ok (v, [31])
      /\ run (y <- Reference.q16_newton_step (Reference.s_y s) (2 ^ 31) ;;
              Reference.q16_newton_step y (2 ^ 31)) = Ok (v, []))
  /\ (exists s,
      run (Optimal.fast_rsqrt_seed (2 ^ 31)) = Ok (s, [31])
      /\ Optimal.s_e s = 31 /\ Optimal.s_y1 s = 1
      /\ run (Optimal.fast_rsqrt (2 ^ 31))
         = Ok (Optimal.q16_newton_step (Optimal.s_y s) (2 ^ 31), [31]))
  /\ (exists v log, run (Reference.fast_rsqrt 0xFFFFFFFF) = Ok (v, log)
             /\ Forall (fun i => 0 <= i <= 31) log)
  /\ (exists v log, run (Optimal.fast_rsqrt 0xFFFFFFFF) = Ok (v, log)
             /\ Forall (fun i => 0 <= i <= 31) log)).
Proof.
  assert (Hx : 2 ^ 31 <= 2 ^ 31 < 2 ^ 32) by lia.
  assert (Hz : is_u32 0xFFFFFFFF) by (unfold is_u32; lia).
  split; [exact (conj Hx Hz)|].
  exact (top_bucket_clamp (2 ^ 31) 0xFFFFFFFF Hx Hz).
Defined.

(** ** Sample inputs *)

(** On [x = 1] the optimal variant returns 65535, not 65536. *)
Lemma optimal_one_is_65535 :
  value (run (Optimal.fast_rsqrt 1)) <> Some 65536.
Proof. vm_compute. discriminate. Qed.

(** C9 (amended).  [fast_rsqrt 1] is exactly 65536 in the reference variant
    and 65535 in the optimal variant; in both variants [fast_rsqrt 4] is
    32768, [fast_rsqrt 1000] is 2072 and [fast_rsqrt 0xFFFFFFFF] is 1. *)
Theorem sample_values :
  value (run (Reference.fast_rsqrt 1)) = Some 65536
  /\ value (run (Optimal.fast_rsqrt 1)) = Some 65535
  /\ value (run (Reference.fast_rsqrt 4)) = Some 32768
  /\ value (run (Optimal.fast_rsqrt 4)) = Some 32768
  /\ value (run (Reference.fast_rsqrt 1000)) = Some 2072
  /\ value (run (Optimal.fast_rsqrt 1000)) = Some 2072
  /\ value (run (Reference.fast_rsqrt 0xFFFFFFFF)) = Some 1
  /\ value (run (Optimal.fast_rsqrt 0xFFFFFFFF)) = Some 1.
Proof. vm_compute. repeat split. Qed.

(** The inputs of [test_Fast_rsqrt], the test driver of the repository. *)
Lemma test_driver_values :
  map (fun x => value (run (Reference.fast_rsqrt x)))
      [1; 2; 4; 5; 10; 16; 20; 100; 1000; 0xFFFFFFFF]
  = map Some [65536; 46341; 32768; 29308; 20724; 16384; 14654; 6553; 2072; 1]
  /\ map (fun x => value (run (Optimal.fast_rsqrt x)))
      [1; 2; 4; 5; 10; 16; 20; 100; 1000; 0xFFFFFFFF]
  = map Some [65535; 46341; 32768; 29249; 20683; 16384; 14624; 6533; 2072; 1].
Proof. vm_compute. split; reflexivity. Qed.

(** ** The optimal step and the high bits of its seed *)

Lemma land_low16_idem (y : Z) :
  Z.land (y mod 2 ^ 16) 0xFFFF = Z.land y 0xFFFF.
Proof.
  change 0xFFFF with (2 ^ 16 - 1). rewrite !land_low by lia.
  apply Z.mod_mod. lia.
Qed.

(** C10.  The optimal [q16_newton_step] depends on its seed [y] only through
    [y mod 2^16], for every [y] and [x]. *)
Theorem optimal_newton_low16 (y x : Z) :
  Optimal.q16_newton_step y x = Optimal.q16_newton_step (y mod 2 ^ 16) x.
Proof.
  unfold Optimal.q16_newton_step, Optimal.newton_term.
  rewrite land_low16_idem. reflexivity.
Qed.

(** The discarded bits can matter: a seed of 65536 acts as 0. *)
Lemma optimal_newton_discards :
  Optimal.q16_newton_step 65536 1 = 0 /\ ref_step_value 65536 1 = 65536.
Proof. vm_compute. split; reflexivity. Qed.

(** ** Closed forms inside a bucket *)

Lemma same_bucket (a b x : Z) :
  0 < a -> a <= x <= b -> Z.log2 b = Z.log2 a -> Z.log2 x = Z.log2 a.
Proof.
  intros Ha Hx Hb.
  pose proof (Z.log2_le_mono a x ltac:(lia)).
  pose proof (Z.log2_le_mono x b ltac:(lia)). lia.
Qed.

Lemma lin_frac_spec (x : Z) : lin_frac (Z.log2 x) x = frac_spec x.
Proof.
  unfold lin_frac, frac_spec. cbv zeta.
  rewrite Z.shiftl_1_l. reflexivity.
Qed.

Lemma lin_frac_mono (e x x' : Z) :
  0 <= e -> x <= x' -> lin_frac e x <= lin_frac e x'.
Proof.
  intros He Hx. unfold lin_frac.
  rewrite !Z.shiftl_mul_pow2, !shiftr_div by lia.
  assert (0 < 2 ^ e) by (apply Z.pow_pos_nonneg; lia).
  apply Z.div_le_mono; lia.
Qed.

Lemma tbl_pair (e : Z) :
  0 <= e <= 31 -> 0 <= tbl_next ref_tbl e <= ref_tbl e /\ ref_tbl e < 2 ^ 16.
Proof.
  intros He.
  pose (P := fun e => (0 <=? tbl_next ref_tbl e)
                      && (tbl_next ref_tbl e <=? ref_tbl e)
                      && (ref_tbl e <? 2 ^ 16)).
  assert (H : P e = true)
    by (apply (forallb_range P 32); [vm_compute; reflexivity | lia]).
  unfold P in H.
  cbv beta in H. apply andb_prop in H. destruct H as [H H3].
  apply andb_prop in H. destruct H as [H1 H2]. lia.
Qed.

Lemma opt_tbl_ref (e : Z) : opt_tbl e = ref_tbl e.
Proof. reflexivity. Qed.

Lemma lin_seed_anti (tbl : Z -> Z) (e x x' : Z) :
  0 <= e -> tbl_next tbl e <= tbl e -> x <= x' ->
  lin_seed tbl e x' <= lin_seed tbl e x.
Proof.
  intros He Hd Hx. unfold lin_seed.
  pose proof (lin_frac_mono e x x' He Hx) as Hf.
  rewrite !shiftr_div by lia.
  assert ((tbl e - tbl_next tbl e) * lin_frac e x
          <= (tbl e - tbl_next tbl e) * lin_frac e x') by nia.
  pose proof (Z.div_le_mono _ _ (2 ^ 16) ltac:(lia) H). lia.
Qed.

(** The interpolated seed, given a fraction below [2^16]. *)
Lemma seed_arith (yb yn frac : Z) :
  0 <= yn <= yb -> yb < 2 ^ 16 -> 0 <= frac < 2 ^ 16 ->
  0 <= (yb - yn) * frac / 2 ^ 16 <= yb - yn
  /\ 0 <= (yb - yn) * frac < 2 ^ 32.
Proof.
  intros Hy Hb Hf.
  assert (0 <= (yb - yn) * frac) by nia.
  assert ((yb - yn) * frac <= (yb - yn) * 2 ^ 16) by nia.
  repeat split; try lia.
  - apply Z.div_pos; lia.
  - apply Z.div_le_upper_bound; lia.
Qed.

Lemma ref_seed_lin (x : Z) :
  0 < x < 2 ^ 32 ->
  Reference.s_y (ref_seed_value x) = lin_seed ref_tbl (Z.log2 x) x.
Proof.
  intros Hx. destruct (exp_of_bucket x Hx) as (He & _ & _).
  pose proof (exp_of_log2 x Hx) as Hl.
  pose proof (tbl_pair (exp_of x) He) as [Hp Hb].
  unfold lin_seed. rewrite <- Hl.
  destruct (Z.lt_ge_cases x (2 ^ 31)) as [Hlt|Hge].
  - pose proof (ref_frac_spec x ltac:(lia)) as Hf.
    pose proof (frac_spec_range x ltac:(lia)) as Hr.
    rewrite <- lin_frac_spec, <- Hl in Hf, Hr.
    cbn [ref_seed_value Reference.s_y Reference.s_frac] in *.
    rewrite Hf. unfold tbl_next in *.
    assert (He31 : exp_of x < 31).
    { destruct (Z.lt_ge_cases (exp_of x) 31) as [|Hge]; [assumption|].
      rewrite Hl in Hge.
      pose proof (Z.log2_lt_pow2 x 31 ltac:(lia)). lia. }
    destruct (Z.ltb_spec (exp_of x) 31) as [_|]; [|lia].
    replace (add32 (exp_of x) 1) with (exp_of x + 1)
      by (unfold add32, u32; symmetry; apply Z.mod_small; lia).
    set (yb := ref_tbl (exp_of x)) in *.
    set (yn := ref_tbl (exp_of x + 1)) in *.
    set (fr := lin_frac (exp_of x) x) in *.
    destruct (seed_arith yb yn fr Hp Hb Hr) as [Hq Hm].
    unfold sub32, u32. rewrite (Z.mod_small (yb - yn)) by lia.
    rewrite shiftr_div in * by lia.
    rewrite (Z.mod_small ((yb - yn) * fr / 2 ^ 16)) by lia.
    apply Z.mod_small. lia.
  - assert (He31 : exp_of x = 31) by (apply exp_of_top; lia).
    cbn [ref_seed_value Reference.s_y Reference.s_frac].
    unfold tbl_next. rewrite He31. reflexivity.
Qed.

Lemma opt_seed_lin (x : Z) :
  0 < x < 2 ^ 32 ->
  Optimal.s_y (opt_seed_value x) = lin_seed opt_tbl (Z.log2 x) x.
Proof.
  intros Hx. destruct (exp_of_bucket x Hx) as (He & _ & _).
  pose proof (exp_of_log2 x Hx) as Hl.
  pose proof (tbl_pair (exp_of x) He) as [Hp Hb].
  unfold lin_seed. rewrite <- Hl.
  pose proof (opt_frac_spec x Hx) as Hf.
  pose proof (frac_spec_range x ltac:(lia)) as Hr.
  rewrite <- lin_frac_spec, <- Hl in Hf, Hr.
  cbn [opt_seed_value Optimal.s_y Optimal.s_frac] in *.
  rewrite Hf. unfold tbl_next in *. change opt_tbl with ref_tbl.
  destruct (Z.ltb_spec (exp_of x) 31) as [Hlt|Hge].
  - replace (add32 (exp_of x) 1) with (exp_of x + 1)
      by (unfold add32, u32; symmetry; apply Z.mod_small; lia).
    set (yb := ref_tbl (exp_of x)) in *.
    set (yn := ref_tbl (exp_of x + 1)) in *.
    set (fr := lin_frac (exp_of x) x) in *.
    destruct (seed_arith yb yn fr Hp Hb Hr) as [Hq Hm].
    unfold sub32, u32. rewrite (Z.mod_small (yb - yn)) by lia.
    rewrite mul16x16_32_low.
    rewrite (Z.mod_small (yb - yn)), (Z.mod_small fr) by lia.
    rewrite !shiftr_div by lia.
    apply Z.mod_small. lia.
  - set (yb := ref_tbl (exp_of x)) in *.
    set (fr := lin_frac (exp_of x) x) in *.
    destruct (seed_arith yb 1 fr Hp Hb Hr) as [Hq Hm].
    unfold sub32, u32. rewrite (Z.mod_small (yb - 1)) by lia.
    rewrite mul16x16_32_low.
    rewrite (Z.mod_small (yb - 1)), (Z.mod_small fr) by lia.
    rewrite !shiftr_div by lia.
    apply Z.mod_small. lia.
Qed.

(** ** The reference step without wrap-around *)

Lemma ref_lin_R_mono (y x x' : Z) :
  x <= x' -> ref_lin_R y x <= ref_lin_R y x'.
Proof.
  intros Hx. unfold ref_lin_R. rewrite !shiftr_div by lia.
  apply Z.div_le_mono; [lia|]. nia.
Qed.

Lemma ref_lin_step_anti (y x x' : Z) :
  0 <= y -> x <= x' -> ref_lin_step y x' <= ref_lin_step y x.
Proof.
  intros Hy Hx. unfold ref_lin_step. rewrite !shiftr_div by lia.
  pose proof (ref_lin_R_mono y x x' Hx).
  apply Z.div_le_mono; [lia|]. nia.
Qed.

Lemma ref_lin_R_nonneg (y x : Z) : 0 <= x -> 0 <= ref_lin_R y x.
Proof.
  intros Hx. unfold ref_lin_R. rewrite shiftr_div by lia.
  apply Z.div_pos; [nia|lia].
Qed.

Lemma ref_xy2_lin (y x : Z) :
  0 <= y <= 65536 -> is_u32 x -> ref_lin_R y x <= 196608 ->
  ref_xy2_value y x = ref_lin_R y x.
Proof.
  unfold is_u32. intros Hy Hx HR.
  pose proof (ref_lin_R_nonneg y x ltac:(lia)) as HR0.
  unfold ref_xy2_value, ref_lin_R in *. cbv zeta.
  assert (Hcase : y = 65536 \/ y < 65536) by lia.
  destruct Hcase as [->|Hlt].
  - change (65536 * 65536) with (2 ^ 32) in *.
    change (u32 (2 ^ 32)) with 0. change (u32 (Z.shiftr (2 ^ 32) 32)) with 1.
    rewrite Z.mul_0_r, Z.mul_1_r.
    change (Z.shiftr (add64 0 (shl64 1 15)) 16) with 0.
    unfold add64, shl64, u64, u32 in *.
    rewrite Z.shiftl_mul_pow2, shiftr_div in * by lia.
    rewrite Z.add_0_r.
    replace ((x * 2 ^ 32 + 32768) / 2 ^ 16) with (x * 2 ^ 16) in *
      by (Z.to_euclidean_division_equations; lia).
    rewrite (Z.mod_small (x * 2 ^ 16)) by lia.
    rewrite (Z.mod_small (x * 2 ^ 16)) by lia.
    apply Z.mod_small. lia.
  - assert (Hy2 : 0 <= y * y < 2 ^ 32).
    { split; [nia|].
      assert (y * y < 65536 * 65536) by (apply Z.mul_lt_mono_nonneg; lia). lia. }
    rewrite (u32_small (y * y)) by exact Hy2.
    replace (Z.shiftr (y * y) 32) with 0
      by (rewrite shiftr_div by lia; symmetry; apply Z.div_small; lia).
    change (u32 0) with 0. rewrite Z.mul_0_r.
    change (shl64 0 16) with 0.
    pose proof (mul_u32_u64 x (y * y) Hx Hy2) as Hp.
    unfold add64, shl64, u64 in *.
    change (Z.shiftl 1 15 mod 2 ^ 64) with 32768.
    rewrite (Z.mod_small (x * (y * y) + 32768)) by lia.
    rewrite Z.add_0_l. rewrite shiftr_div in * by lia.
    rewrite (Z.mod_small ((x * (y * y) + 32768) / 2 ^ 16)) by lia.
    apply u32_small. unfold is_u32. lia.
Qed.

Lemma ref_step_lin (y x : Z) :
  0 <= y <= 65536 -> is_u32 x -> ref_lin_R y x <= 196608 ->
  ref_step_value y x = ref_lin_step y x.
Proof.
  intros Hy Hx HR.
  pose proof (ref_lin_R_nonneg y x ltac:(unfold is_u32 in Hx; lia)) as HR0.
  unfold ref_step_value, ref_term_value, ref_lin_step.
  rewrite ref_xy2_lin by assumption.
  change (shl32 3 16) with 196608.
  unfold sub32. rewrite (u32_small (196608 - ref_lin_R y x))
    by (unfold is_u32; lia).
  set (t := 196608 - ref_lin_R y x) in *.
  assert (Ht : 0 <= y * t <= 65536 * 196608).
  { split; [nia|]. apply Z.mul_le_mono_nonneg; lia. }
  unfold add64, shl64, u64. change (Z.shiftl 1 16 mod 2 ^ 64) with 65536.
  rewrite (Z.mod_small (y * t + 65536)) by lia.
  apply u32_small. unfold is_u32. rewrite shiftr_div by lia.
  split; [apply Z.div_pos; lia|]. apply Z.div_lt_upper_bound; lia.
Qed.

Lemma ref_step_ok_spec (y b : Z) :
  ref_step_ok y b = true -> 0 <= y <= 65536 /\ ref_lin_R y b <= 196608.
Proof.
  unfold ref_step_ok.
  destruct (Z.leb_spec 0 y); [|discriminate].
  destruct (Z.leb_spec y 65536); [|discriminate].
  destruct (Z.leb_spec (ref_lin_R y b) 196608); [|discriminate]. lia.
Qed.

(** On [a .. b] a step that does not wrap at [b] and agrees at both ends
    is constant. *)
Lemma ref_step_const (y a b x : Z) :
  0 <= a -> b < 2 ^ 32 -> a <= x <= b ->
  ref_step_ok y b = true -> ref_lin_step y b = ref_lin_step y a ->
  ref_step_value y x = ref_lin_step y a.
Proof.
  intros Ha Hb Hx Hok Heq.
  destruct (ref_step_ok_spec y b Hok) as [Hy HR].
  pose proof (ref_lin_R_mono y x b ltac:(lia)).
  rewrite ref_step_lin by (unfold is_u32; lia).
  pose proof (ref_lin_step_anti y a x ltac:(lia) ltac:(lia)).
  pose proof (ref_lin_step_anti y x b ltac:(lia) ltac:(lia)).
  lia.
Qed.

(** ** The optimal step without wrap-around *)

Lemma opt_lin_Q_mono (y x x' : Z) :
  x <= x' -> opt_lin_Q y x <= opt_lin_Q y x'.
Proof.
  intros Hx. unfold opt_lin_Q. rewrite !shiftr_div by lia.
  apply Z.div_le_mono; [lia|]. nia.
Qed.

Lemma opt_lin_Q_nonneg (y x : Z) : 0 <= x -> 0 <= opt_lin_Q y x.
Proof.
  intros Hx. unfold opt_lin_Q. rewrite shiftr_div by lia.
  apply Z.div_pos; [nia|lia].
Qed.

Lemma half_split (z : Z) :
  is_u32 z -> z = 2 ^ 16 * (z / 2 ^ 16) + z mod 2 ^ 16
  /\ is_u16 (z / 2 ^ 16) /\ is_u16 (z mod 2 ^ 16).
Proof.
  unfold is_u32, is_u16. intros Hz.
  pose proof (Z.div_mod z (2 ^ 16) ltac:(lia)).
  pose proof (Z.mod_pos_bound z (2 ^ 16) ltac:(lia)).
  assert (0 <= z / 2 ^ 16) by (apply Z.div_pos; lia).
  assert (z / 2 ^ 16 < 2 ^ 16) by (apply Z.div_lt_upper_bound; lia).
  lia.
Qed.

(** The four 16x16 partial products add up to [(x * y^2) >> 16]. *)
Lemma opt_term_lin (y x : Z) :
  0 <= y < 65536 -> is_u32 x -> opt_lin_Q y x <= 196608 ->
  Optimal.newton_term y x = 196608 - opt_lin_Q y x.
Proof.
  intros Hy Hx HQ.
  pose proof (opt_lin_Q_nonneg y x ltac:(unfold is_u32 in Hx; lia)) as HQ0.
  unfold Optimal.newton_term. cbv zeta.
  change 0xFFFF with (2 ^ 16 - 1). rewrite !land_low, !shiftr_div by lia.
  rewrite (Z.mod_small y) by lia.
  rewrite (mul16x16_32_exact y y) by (unfold is_u16; lia).
  assert (Hy2 : is_u32 (y * y)).
  { unfold is_u32. split; [nia|].
    assert (y * y < 65536 * 65536) by (apply Z.mul_lt_mono_nonneg; lia). lia. }
  destruct (half_split (y * y) Hy2) as (Hyd & Hyh & Hyl).
  destruct (half_split x Hx) as (Hxd & Hxh & Hxl).
  set (y2h := y * y / 2 ^ 16) in *. set (y2l := (y * y) mod 2 ^ 16) in *.
  set (xh := x / 2 ^ 16) in *. set (xl := x mod 2 ^ 16) in *.
  rewrite !mul16x16_32_exact by assumption.
  unfold is_u16 in *.
  assert (Hhh : 0 <= xh * y2h < 2 ^ 32)
    by (split; [nia|]; assert (xh * y2h < 2 ^ 16 * 2 ^ 16)
          by (apply Z.mul_lt_mono_nonneg; lia); lia).
  assert (Hlh : 0 <= xl * y2h < 2 ^ 32)
    by (split; [nia|]; assert (xl * y2h < 2 ^ 16 * 2 ^ 16)
          by (apply Z.mul_lt_mono_nonneg; lia); lia).
  assert (Hhl : 0 <= xh * y2l < 2 ^ 32)
    by (split; [nia|]; assert (xh * y2l < 2 ^ 16 * 2 ^ 16)
          by (apply Z.mul_lt_mono_nonneg; lia); lia).
  assert (Hll : 0 <= xl * y2l < 2 ^ 32)
    by (split; [nia|]; assert (xl * y2l < 2 ^ 16 * 2 ^ 16)
          by (apply Z.mul_lt_mono_nonneg; lia); lia).
  assert (Hq : 0 <= xl * y2l / 2 ^ 16 < 2 ^ 16)
    by (split; [apply Z.div_pos|apply Z.div_lt_upper_bound]; lia).
  assert (HQe : opt_lin_Q y x
                = xh * y2h * 2 ^ 16 + xl * y2h + xh * y2l + xl * y2l / 2 ^ 16).
  { unfold opt_lin_Q. rewrite shiftr_div by lia.
    replace (x * (y * y))
      with ((xh * y2h * 2 ^ 16 + xl * y2h + xh * y2l) * 2 ^ 16 + xl * y2l)
      by (rewrite Hxd, Hyd at 1; change (2 ^ 16) with 65536; lia).
    apply Z.div_add_l. lia. }
  unfold add64, shl64, u64. rewrite Z.shiftl_mul_pow2 by lia.
  rewrite Z.add_0_l.
  rewrite (Z.mod_small (xh * y2h * 2 ^ 16)) by lia.
  rewrite (Z.mod_small (xh * y2h * 2 ^ 16)) by lia.
  rewrite (Z.mod_small (xh * y2h * 2 ^ 16 + xl * y2h)) by lia.
  rewrite (Z.mod_small (xh * y2h * 2 ^ 16 + xl * y2h + xh * y2l)) by lia.
  rewrite (Z.mod_small (_ + xl * y2l / 2 ^ 16)) by lia.
  rewrite <- HQe. rewrite (u32_small (opt_lin_Q y x)) by (unfold is_u32; lia).
  change (shl32 3 16) with 196608. unfold sub32.
  apply u32_small. unfold is_u32. lia.
Qed.

Lemma opt_step_lin (y x : Z) :
  0 <= y < 65536 -> is_u32 x -> opt_lin_Q y x <= 196608 ->
  Optimal.q16_newton_step y x = opt_lin_step y x.
Proof.
  intros Hy Hx HQ.
  pose proof (opt_lin_Q_nonneg y x ltac:(unfold is_u32 in Hx; lia)) as HQ0.
  rewrite opt_step_truncates. cbv zeta.
  rewrite opt_term_lin by assumption.
  unfold opt_lin_step, opt_lin_G.
  set (t := 196608 - opt_lin_Q y x) in *.
  change 65535 with (2 ^ 16 - 1). rewrite land_low, !shiftr_div by lia.
  rewrite (Z.mod_small y) by lia. change (2 ^ 1) with 2.
  assert (Hth : 0 <= t / 2 ^ 16 <= 3)
    by (split; [apply Z.div_pos|apply Z.div_le_upper_bound]; lia).
  destruct (Z.leb_spec 1 (t / 2 ^ 16)); destruct (Z.leb_spec (t / 2 ^ 16) 3);
    cbn [andb]; try lia.
  replace (t / 2 ^ 16) with 0 by lia. rewrite Z.mul_0_r. reflexivity.
Qed.

Lemma opt_lin_G_mono (y t t' : Z) :
  0 <= y < 65536 -> 0 <= t <= t' -> t' <= 196608 ->
  opt_lin_G y t <= opt_lin_G y t'.
Proof.
  intros Hy Ht Ht'. unfold opt_lin_G.
  change 65535 with (2 ^ 16 - 1). rewrite !land_low, !shiftr_div by lia.
  change (2 ^ 1) with 2.
  pose proof (Z.div_mod t (2 ^ 16) ltac:(lia)) as Hd.
  pose proof (Z.mod_pos_bound t (2 ^ 16) ltac:(lia)) as Hm.
  pose proof (Z.div_mod t' (2 ^ 16) ltac:(lia)) as Hd'.
  pose proof (Z.mod_pos_bound t' (2 ^ 16) ltac:(lia)) as Hm'.
  set (h := t / 2 ^ 16) in *. set (l := t mod 2 ^ 16) in *.
  set (h' := t' / 2 ^ 16) in *. set (l' := t' mod 2 ^ 16) in *.
  assert (Hh : 0 <= h <= h' /\ h' <= 3) by lia.
  assert (Hl : 0 <= y * l <= y * 65535) by nia.
  assert (Hl' : 0 <= y * l' <= y * 65535) by nia.
  assert (Hll : h = h' -> y * l <= y * l') by nia.
  set (p := y * l) in *. set (p' := y * l') in *.
  assert (Hc : h = 0 \/ h = 1 \/ h = 2 \/ h = 3) by lia.
  assert (Hc' : h' = 0 \/ h' = 1 \/ h' = 2 \/ h' = 3) by lia.
  clearbody p p' h h' l l'. clear Hd Hd' Hm Hm'.
  change (2 ^ 17) with 131072.
  destruct Hc as [->|[->|[->| ->]]]; destruct Hc' as [->|[->|[->| ->]]];
    try lia; rewrite ?Z.mul_0_r, ?Z.mul_1_r;
    Z.to_euclidean_division_equations; lia.
Qed.

Lemma opt_lin_step_anti (y x x' : Z) :
  0 <= y < 65536 -> 0 <= x <= x' -> opt_lin_Q y x' <= 196608 ->
  opt_lin_step y x' <= opt_lin_step y x.
Proof.
  intros Hy Hx HQ. unfold opt_lin_step.
  pose proof (opt_lin_Q_mono y x x' ltac:(lia)).
  pose proof (opt_lin_Q_nonneg y x ltac:(lia)).
  apply opt_lin_G_mono; lia.
Qed.

Lemma opt_step_ok_spec (y b : Z) :
  opt_step_ok y b = true -> 0 <= y < 65536 /\ opt_lin_Q y b <= 196608.
Proof.
  unfold opt_step_ok.
  destruct (Z.leb_spec 0 y); [|discriminate].
  destruct (Z.ltb_spec y 65536); [|discriminate].
  destruct (Z.leb_spec (opt_lin_Q y b) 196608); [|discriminate]. lia.
Qed.

Lemma opt_step_const (y a b x : Z) :
  0 <= a -> b < 2 ^ 32 -> a <= x <= b ->
  opt_step_ok y b = true -> opt_lin_step y b = opt_lin_step y a ->
  Optimal.q16_newton_step y x = opt_lin_step y a.
Proof.
  intros Ha Hb Hx Hok Heq.
  destruct (opt_step_ok_spec y b Hok) as [Hy HQ].
  pose proof (opt_lin_Q_mono y x b ltac:(lia)).
  pose proof (opt_lin_Q_mono y a b ltac:(lia)).
  rewrite opt_step_lin by (unfold is_u32; lia).
  pose proof (opt_lin_step_anti y a x ltac:(lia) ltac:(lia) ltac:(lia)).
  pose proof (opt_lin_step_anti y x b ltac:(lia) ltac:(lia) ltac:(lia)).
  lia.
Qed.

(** ** Pieces of constant result *)

Lemma ref_leaf_sound (a b v : Z) :
  1 <= a -> b <= 2 ^ 32 - 1 -> ref_leaf a b = Some v ->
  forall x, a <= x <= b -> ref_rsqrt_value x = v.
Proof.
  intros Ha Hb Hleaf x Hx. unfold ref_leaf in Hleaf. cbv zeta in Hleaf.
  destruct (Z.eqb_spec (Z.log2 b) (Z.log2 a)) as [He|]; [|discriminate].
  destruct (Z.eqb_spec (lin_seed ref_tbl (Z.log2 a) b)
                       (lin_seed ref_tbl (Z.log2 a) a)) as [Hs|]; [|discriminate].
  destruct (ref_step_ok (lin_seed ref_tbl (Z.log2 a) a) b) eqn:Hok1;
    [|discriminate].
  destruct (Z.eqb_spec (ref_lin_step (lin_seed ref_tbl (Z.log2 a) a) b)
                       (ref_lin_step (lin_seed ref_tbl (Z.log2 a) a) a))
    as [H1|]; [|discriminate].
  destruct (ref_step_ok (ref_lin_step (lin_seed ref_tbl (Z.log2 a) a) a) b)
    eqn:Hok2; [|discriminate].
  destruct (Z.eqb_spec
              (ref_lin_step (ref_lin_step (lin_seed ref_tbl (Z.log2 a) a) a) b)
              (ref_lin_step (ref_lin_step (lin_seed ref_tbl (Z.log2 a) a) a) a))
    as [H2|]; [|discriminate].
  injection Hleaf as <-.
  set (e := Z.log2 a) in *. set (y := lin_seed ref_tbl e a) in *.
  set (y1 := ref_lin_step y a) in *.
  assert (Hex : Z.log2 x = e) by (apply (same_bucket a b x); lia).
  assert (He31 : 0 <= e <= 31).
  { split; [apply Z.log2_nonneg|].
    pose proof (Z.log2_lt_pow2 a 32 ltac:(lia)). unfold e. lia. }
  pose proof (tbl_pair e He31) as [Hp _].
  assert (Hseed : Reference.s_y (ref_seed_value x) = y).
  { rewrite ref_seed_lin, Hex by lia.
    pose proof (lin_seed_anti ref_tbl e a x ltac:(lia) ltac:(lia) ltac:(lia)).
    pose proof (lin_seed_anti ref_tbl e x b ltac:(lia) ltac:(lia) ltac:(lia)).
    fold y in H. lia. }
  unfold ref_rsqrt_value. destruct (Z.eqb_spec x 0); [lia|].
  rewrite Hseed.
  rewrite (ref_step_const y a b x) by (assumption || lia). fold y1.
  apply (ref_step_const y1 a b x); assumption || lia.
Qed.

Lemma opt_leaf_sound (a b v : Z) :
  1 <= a -> b <= 2 ^ 32 - 1 -> opt_leaf a b = Some v ->
  forall x, a <= x <= b -> opt_rsqrt_value x = v.
Proof.
  intros Ha Hb Hleaf x Hx. unfold opt_leaf in Hleaf. cbv zeta in Hleaf.
  destruct (Z.eqb_spec (Z.log2 b) (Z.log2 a)) as [He|]; [|discriminate].
  destruct (Z.eqb_spec (lin_seed opt_tbl (Z.log2 a) b)
                       (lin_seed opt_tbl (Z.log2 a) a)) as [Hs|]; [|discriminate].
  destruct (opt_step_ok (lin_seed opt_tbl (Z.log2 a) a) b) eqn:Hok1;
    [|discriminate].
  destruct (Z.eqb_spec (opt_lin_step (lin_seed opt_tbl (Z.log2 a) a) b)
                       (opt_lin_step (lin_seed opt_tbl (Z.log2 a) a) a))
    as [H1|]; [|discriminate].
  injection Hleaf as <-.
  set (e := Z.log2 a) in *. set (y := lin_seed opt_tbl e a) in *.
  assert (Hex : Z.log2 x = e) by (apply (same_bucket a b x); lia).
  assert (He31 : 0 <= e <= 31).
  { split; [apply Z.log2_nonneg|].
    pose proof (Z.log2_lt_pow2 a 32 ltac:(lia)). unfold e. lia. }
  pose proof (tbl_pair e He31) as [Hp _].
  assert (Hseed : Optimal.s_y (opt_seed_value x) = y).
  { rewrite opt_seed_lin, Hex by lia.
    pose proof (lin_seed_anti opt_tbl e a x ltac:(lia) ltac:(exact (proj2 Hp))
                  ltac:(lia)).
    pose proof (lin_seed_anti opt_tbl e x b ltac:(lia) ltac:(exact (proj2 Hp))
                  ltac:(lia)).
    fold y in H. lia. }
  unfold opt_rsqrt_value. destruct (Z.eqb_spec x 0); [lia|].
  rewrite Hseed.
  apply (opt_step_const y a b x); assumption || lia.
Qed.

Section SweepSound.

Variable f : Z -> Z.
Variable leaf : Z -> Z -> option Z.
Variable good : Z -> Z -> Z -> bool.
Variable tol : Z.
Variable P : Z -> Z -> Prop.
Variables lo hi : Z.

Hypothesis tol_nonneg : 0 <= tol.
Hypothesis leaf_sound :
  forall a b v, lo <= a -> b <= hi -> leaf a b = Some v ->
  forall x, a <= x <= b -> f x = v.
Hypothesis good_sound :
  forall a b v, lo <= a -> b <= hi -> good a b v = true ->
  forall x, a <= x <= b -> P x v.

Lemma piece_value_sound (a b v : Z) :
  lo <= a -> b <= hi -> piece_value f leaf a b = Some v ->
  forall x, a <= x <= b -> f x = v.
Proof.
  intros Ha Hb Hp x Hx. unfold piece_value in Hp.
  destruct (Z.eqb_spec a b) as [->|Hne].
  - injection Hp as <-. f_equal. lia.
  - exact (leaf_sound a b v Ha Hb Hp x Hx).
Qed.

(** A successful sweep of [a .. b]: every result satisfies [P]; results
    never exceed an earlier one by more than [tol]. *)
Lemma sweep_sound (fuel : nat) :
  forall a b m m',
    lo <= a -> a <= b -> b <= hi ->
    sweep f leaf good tol fuel a b m = Some m' ->
    m' <= m
    /\ (forall x, a <= x <= b -> P x (f x) /\ f x <= m + tol /\ m' <= f x)
    /\ (forall x y, a <= x -> x < y -> y <= b -> f y <= f x + tol).
Proof.
  induction fuel as [|k IH]; intros a b m m' Ha Hab Hb Hs; cbn [sweep] in Hs.
  - destruct (piece_value f leaf a b) as [v|] eqn:Hp; [|discriminate].
    destruct (good a b v) eqn:Hg; [|discriminate].
    destruct (Z.leb_spec v (m + tol)); [|discriminate].
    injection Hs as <-.
    pose proof (piece_value_sound a b v Ha Hb Hp) as Hc.
    split; [lia|]. split.
    + intros x Hx. rewrite (Hc x Hx).
      split; [exact (good_sound a b v Ha Hb Hg x Hx)|lia].
    + intros x y Hx Hxy Hy. rewrite (Hc x), (Hc y) by lia. lia.
  - destruct (piece_value f leaf a b) as [v|] eqn:Hp.
    + destruct (good a b v) eqn:Hg; [|discriminate].
      destruct (Z.leb_spec v (m + tol)); [|discriminate].
      injection Hs as <-.
      pose proof (piece_value_sound a b v Ha Hb Hp) as Hc.
      split; [lia|]. split.
      * intros x Hx. rewrite (Hc x Hx).
        split; [exact (good_sound a b v Ha Hb Hg x Hx)|lia].
      * intros x y Hx Hxy Hy. rewrite (Hc x), (Hc y) by lia. lia.
    + assert (Hne : a < b).
      { destruct (Z.eq_dec a b) as [->|]; [|lia].
        unfold piece_value in Hp. rewrite Z.eqb_refl in Hp. discriminate. }
      rewrite shiftr_div in Hs by lia. change (2 ^ 1) with 2 in Hs.
      set (mid := (a + b) / 2) in *.
      assert (Hmid : a <= mid < b)
        by (unfold mid; Z.to_euclidean_division_equations; lia).
      destruct (sweep f leaf good tol k a mid m) as [m1|] eqn:Hl;
        [|discriminate].
      destruct (IH a mid m m1 ltac:(lia) ltac:(lia) ltac:(lia) Hl)
        as (Hm1 & Hl1 & Hl2).
      destruct (IH (mid + 1) b m1 m' ltac:(lia) ltac:(lia) ltac:(lia) Hs)
        as (Hm2 & Hr1 & Hr2).
      split; [lia|]. split.
      * intros x Hx. destruct (Z.le_gt_cases x mid) as [Hxl|Hxr].
        -- destruct (Hl1 x ltac:(lia)) as (HP & Hu & Hlow).
           repeat split; [exact HP|lia|lia].
        -- destruct (Hr1 x ltac:(lia)) as (HP & Hu & Hlow).
           repeat split; [exact HP|lia|lia].
      * intros x y Hx Hxy Hy.
        destruct (Z.le_gt_cases y mid) as [Hyl|Hyr].
        -- apply Hl2; lia.
        -- destruct (Z.le_gt_cases x mid) as [Hxl|Hxr].
           ++ destruct (Hl1 x ltac:(lia)) as (_ & _ & Hlow).
              destruct (Hr1 y ltac:(lia)) as (_ & Hu & _). lia.
           ++ apply Hr2; lia.
Qed.

End SweepSound.

(** ** Bounds against the true value *)

Lemma upper_ok_le (q p c b v x : Z) :
  upper_ok q p c b v = true -> 0 <= x <= b -> upper_le q p c x v.
Proof.
  unfold upper_ok, upper_le. intros H Hx.
  destruct (Z.leb_spec v c); [left; assumption|right].
  apply Z.leb_le in H.
  assert (0 <= q * (v - c) * (q * (v - c))) by apply Z.square_nonneg.
  nia.
Qed.

Lemma lower_ok_le (q p c a v x : Z) :
  lower_ok q p c a v = true -> 0 <= a <= x -> lower_le q p c x v.
Proof.
  unfold lower_ok, lower_le. intros H Hx.
  apply Z.leb_le in H.
  assert (0 <= q * (v + c) * (q * (v + c))) by apply Z.square_nonneg.
  nia.
Qed.

Local Open Scope R_scope.

Lemma sq_le_sqrt (A B X : R) :
  0 <= A -> 0 <= B -> 0 < X -> A * A * X <= B * B -> A <= B / sqrt X.
Proof.
  intros HA HB HX H.
  pose proof (sqrt_lt_R0 X HX) as Hs.
  pose proof (sqrt_sqrt X (Rlt_le _ _ HX)) as Hss.
  set (s := sqrt X) in *.
  apply (Rmult_le_reg_r s); [assumption|].
  unfold Rdiv. rewrite Rmult_assoc, Rinv_l, Rmult_1_r by lra.
  destruct (Rle_lt_dec (A * s) B) as [|Hgt]; [assumption|exfalso].
  assert (B * B < (A * s) * (A * s)) by nra.
  assert ((A * s) * (A * s) = A * A * X) by (rewrite <- Hss; ring).
  lra.
Qed.

Lemma sq_ge_sqrt (A B X : R) :
  0 <= A -> 0 <= B -> 0 < X -> B * B <= A * A * X -> B / sqrt X <= A.
Proof.
  intros HA HB HX H.
  pose proof (sqrt_lt_R0 X HX) as Hs.
  pose proof (sqrt_sqrt X (Rlt_le _ _ HX)) as Hss.
  set (s := sqrt X) in *.
  apply (Rmult_le_reg_r s); [assumption|].
  unfold Rdiv. rewrite Rmult_assoc, Rinv_l, Rmult_1_r by lra.
  destruct (Rle_lt_dec B (A * s)) as [|Hgt]; [assumption|exfalso].
  assert (0 <= A * s) by (apply Rmult_le_pos; lra).
  assert ((A * s) * (A * s) < B * B) by nra.
  assert ((A * s) * (A * s) = A * A * X) by (rewrite <- Hss; ring).
  lra.
Qed.

Lemma sq_lt_sqrt (A B X : R) :
  0 <= A -> 0 <= B -> 0 < X -> A * A * X < B * B -> A < B / sqrt X.
Proof.
  intros HA HB HX H.
  pose proof (sqrt_lt_R0 X HX) as Hs.
  pose proof (sqrt_sqrt X (Rlt_le _ _ HX)) as Hss.
  set (s := sqrt X) in *.
  apply (Rmult_lt_reg_r s); [assumption|].
  unfold Rdiv. rewrite Rmult_assoc, Rinv_l, Rmult_1_r by lra.
  destruct (Rlt_le_dec (A * s) B) as [|Hge]; [assumption|exfalso].
  assert (0 <= A * s) by (apply Rmult_le_pos; lra).
  assert (B * B <= (A * s) * (A * s)) by nra.
  assert ((A * s) * (A * s) = A * A * X) by (rewrite <- Hss; ring).
  lra.
Qed.

Lemma rsqrt_true_pos (x : Z) : (0 < x)%Z -> 0 < rsqrt_true x.
Proof.
  intros Hx. unfold rsqrt_true.
  apply Rdiv_lt_0_compat; [lra|]. apply sqrt_lt_R0. apply IZR_lt. assumption.
Qed.

(** The squared integer bounds, read in the reals. *)
Lemma upper_le_real (q p c x v : Z) :
  (0 < x)%Z -> (0 < q)%Z -> (0 <= p)%Z -> (0 <= c)%Z ->
  upper_le q p c x v ->
  IZR v <= rsqrt_true x * (1 + IZR p / IZR q) + IZR c.
Proof.
  intros Hx Hq Hp Hc [Hle|Hsq].
  - pose proof (rsqrt_true_pos x Hx). apply IZR_le in Hle.
    apply IZR_lt in Hq. apply IZR_le in Hp.
    assert (0 <= IZR p / IZR q) by (apply Rle_mult_inv_pos; assumption).
    nra.
  - destruct (Z.le_gt_cases v c) as [Hle|Hgt].
    + pose proof (rsqrt_true_pos x Hx). apply IZR_le in Hle.
      apply IZR_lt in Hq. apply IZR_le in Hp.
      assert (0 <= IZR p / IZR q) by (apply Rle_mult_inv_pos; assumption).
      nra.
    + apply IZR_le in Hsq. rewrite !mult_IZR, !plus_IZR, !minus_IZR in Hsq.
      replace (IZR (2 ^ 32)%Z) with (65536 * 65536) in Hsq
        by (rewrite <- mult_IZR; reflexivity).
      apply IZR_lt in Hx, Hq, Hgt. apply IZR_le in Hp, Hc.
      assert (HA : IZR q * (IZR v - IZR c)
                   <= ((IZR q + IZR p) * 65536) / sqrt (IZR x)).
      { apply sq_le_sqrt; try nra. }
      unfold rsqrt_true. unfold Rdiv in *.
      assert (Hqi : 0 < / IZR q) by (apply Rinv_0_lt_compat; assumption).
      assert (IZR v - IZR c
              <= (IZR q + IZR p) * 65536 * / sqrt (IZR x) * / IZR q).
      { apply (Rmult_le_reg_l (IZR q)); [assumption|].
        replace (IZR q * ((IZR q + IZR p) * 65536 * / sqrt (IZR x) * / IZR q))
          with ((IZR q + IZR p) * 65536 * / sqrt (IZR x) * (IZR q * / IZR q))
          by ring.
        rewrite Rinv_r by lra. lra. }
      replace (65536 * / sqrt (IZR x) * (1 + IZR p * / IZR q))
        with ((IZR q + IZR p) * 65536 * / sqrt (IZR x) * / IZR q); [lra|].
      field. split; [lra|].
      apply Rgt_not_eq. apply sqrt_lt_R0. assumption.
Qed.

Lemma lower_le_real (q p c x v : Z) :
  (0 < x)%Z -> (0 < q)%Z -> (0 <= p <= q)%Z -> (0 <= v + c)%Z ->
  lower_le q p c x v ->
  rsqrt_true x * (1 - IZR p / IZR q) - IZR c <= IZR v.
Proof.
  intros Hx Hq Hp Hvc Hsq. unfold lower_le in Hsq.
  apply IZR_le in Hsq. rewrite !mult_IZR, !plus_IZR, !minus_IZR in Hsq.
  replace (IZR (2 ^ 32)%Z) with (65536 * 65536) in Hsq
        by (rewrite <- mult_IZR; reflexivity).
  destruct Hp as [Hp0 Hpq].
  apply IZR_lt in Hx, Hq. apply IZR_le in Hp0, Hpq, Hvc.
  rewrite plus_IZR in Hvc.
  assert (HA : ((IZR q - IZR p) * 65536) / sqrt (IZR x)
               <= IZR q * (IZR v + IZR c)).
  { apply sq_ge_sqrt; try nra. }
  unfold rsqrt_true. unfold Rdiv in *.
  assert (Hqi : 0 < / IZR q) by (apply Rinv_0_lt_compat; assumption).
  assert ((IZR q - IZR p) * 65536 * / sqrt (IZR x) * / IZR q
          <= IZR v + IZR c).
  { apply (Rmult_le_reg_l (IZR q)); [assumption|].
    replace (IZR q * ((IZR q - IZR p) * 65536 * / sqrt (IZR x) * / IZR q))
      with ((IZR q - IZR p) * 65536 * / sqrt (IZR x) * (IZR q * / IZR q))
      by ring.
    rewrite Rinv_r by lra. lra. }
  replace (65536 * / sqrt (IZR x) * (1 - IZR p * / IZR q))
    with ((IZR q - IZR p) * 65536 * / sqrt (IZR x) * / IZR q); [lra|].
  field. split; [lra|].
  apply Rgt_not_eq. apply sqrt_lt_R0. assumption.
Qed.

Local Close Scope R_scope.

(** ** The sweeps over all nonzero inputs *)

Lemma ref_good_sound (a b v : Z) :
  1 <= a -> b <= 2 ^ 32 - 1 -> ref_good a b v = true ->
  forall x, a <= x <= b -> ref_bounds x v.
Proof.
  intros Ha _ Hg x Hx. unfold ref_good in Hg.
  destruct (Z.leb_spec 0 v) as [Hv|]; [|discriminate].
  destruct (upper_ok 1 0 1 b v) eqn:Hu; [|discriminate].
  destruct (lower_ok 1 0 2 a v) eqn:Hl; [|discriminate].
  unfold ref_bounds. split; [assumption|].
  split; [apply (upper_ok_le _ _ _ b); [assumption|lia]|].
  split; [apply (lower_ok_le _ _ _ a); [assumption|lia]|].
  intros Hsmall. destruct (Z.ltb_spec a (2 ^ 14)); [|lia].
  destruct (upper_ok 1000 1 0 b v) eqn:Hu'; [|discriminate].
  split; [apply (upper_ok_le _ _ _ b); [assumption|lia]|].
  apply (lower_ok_le _ _ _ a); [assumption|lia].
Qed.

Lemma opt_good_sound (a b v : Z) :
  1 <= a -> b <= 2 ^ 32 - 1 -> opt_good a b v = true ->
  forall x, a <= x <= b -> opt_bounds x v.
Proof.
  intros Ha _ Hg x Hx. unfold opt_good in Hg.
  destruct (Z.leb_spec 0 v) as [Hv|]; [|discriminate].
  destruct (upper_ok 1 0 1 b v) eqn:Hu; [|discriminate].
  destruct (lower_ok 1000 4 2 a v) eqn:Hl; [|discriminate].
  unfold opt_bounds. split; [assumption|].
  split; [apply (upper_ok_le _ _ _ b); [assumption|lia]|].
  split; [apply (lower_ok_le _ _ _ a); [assumption|lia]|].
  intros Hsmall. destruct (Z.ltb_spec a (2 ^ 14)); [|lia].
  destruct (upper_ok 1000 1 0 b v) eqn:Hu'; [|discriminate].
  split; [apply (upper_ok_le _ _ _ b); [assumption|lia]|].
  apply (lower_ok_le _ _ _ a); [assumption|lia].
Qed.

(** The sweeps succeed: evaluated once each, about twenty thousand pieces.
    The running least value starts at [2^32], above every result. *)
Lemma ref_sweep_ok :
  sweep ref_rsqrt_value ref_leaf ref_good 1 40 1 (2 ^ 32 - 1) (2 ^ 32) = Some 1.
Proof. vm_compute. reflexivity. Qed.

Lemma opt_sweep_ok :
  sweep opt_rsqrt_value opt_leaf opt_good 1 40 1 (2 ^ 32 - 1) (2 ^ 32) = Some 1.
Proof. vm_compute. reflexivity. Qed.

Lemma top_input_bound : 1 <= 2 ^ 32 - 1.
Proof. lia. Qed.

Lemma ref_sweep_facts :
  (forall x, 1 <= x <= 2 ^ 32 - 1 -> ref_bounds x (ref_rsqrt_value x))
  /\ (forall x y, 1 <= x -> x < y -> y <= 2 ^ 32 - 1 ->
      ref_rsqrt_value y <= ref_rsqrt_value x + 1).
Proof.
  pose proof (sweep_sound ref_rsqrt_value ref_leaf ref_good 1 ref_bounds
                1 (2 ^ 32 - 1) Z.le_0_1 ref_leaf_sound ref_good_sound
                40 1 (2 ^ 32 - 1) (2 ^ 32) 1
                (Z.le_refl 1) top_input_bound (Z.le_refl (2 ^ 32 - 1))
                ref_sweep_ok)
    as (_ & H1 & H2).
  split; [intros x Hx; exact (proj1 (H1 x Hx)) | exact H2].
Qed.

Lemma opt_sweep_facts :
  (forall x, 1 <= x <= 2 ^ 32 - 1 -> opt_bounds x (opt_rsqrt_value x))
  /\ (forall x y, 1 <= x -> x < y -> y <= 2 ^ 32 - 1 ->
      opt_rsqrt_value y <= opt_rsqrt_value x + 1).
Proof.
  pose proof (sweep_sound opt_rsqrt_value opt_leaf opt_good 1 opt_bounds
                1 (2 ^ 32 - 1) Z.le_0_1 opt_leaf_sound opt_good_sound
                40 1 (2 ^ 32 - 1) (2 ^ 32) 1
                (Z.le_refl 1) top_input_bound (Z.le_refl (2 ^ 32 - 1))
                opt_sweep_ok)
    as (_ & H1 & H2).
  split; [intros x Hx; exact (proj1 (H1 x Hx)) | exact H2].
Qed.

Lemma ref_value_of_run (x : Z) :
  is_u32 x -> value (run (Reference.fast_rsqrt x)) = Some (ref_rsqrt_value x).
Proof.
  intros Hx. unfold run. rewrite ref_fast_rsqrt_value by assumption. reflexivity.
Qed.

Lemma opt_value_of_run (x : Z) :
  is_u32 x -> value (run (Optimal.fast_rsqrt x)) = Some (opt_rsqrt_value x).
Proof.
  intros Hx. unfold run. rewrite opt_fast_rsqrt_value by assumption. reflexivity.
Qed.

(** ** Accuracy *)

Lemma ref_bounds_real (x v : Z) :
  0 < x -> ref_bounds x v ->
  (rsqrt_true x - 2 <= IZR v <= rsqrt_true x + 1)%R
  /\ (x < 2 ^ 14 ->
      (Rabs (IZR v - rsqrt_true x) <= rsqrt_true x / 1000)%R).
Proof.
  intros Hx (Hv & Hu & Hl & Hs).
  pose proof (upper_le_real 1 0 1 x v Hx ltac:(lia) ltac:(lia) ltac:(lia) Hu) as Hu'.
  pose proof (lower_le_real 1 0 2 x v Hx ltac:(lia) ltac:(lia) ltac:(lia) Hl) as Hl'.
  split; [lra|].
  intros Hsmall. destruct (Hs Hsmall) as [Hu2 Hl2].
  pose proof (upper_le_real 1000 1 0 x v Hx ltac:(lia) ltac:(lia) ltac:(lia) Hu2).
  pose proof (lower_le_real 1000 1 0 x v Hx ltac:(lia) ltac:(lia) ltac:(lia) Hl2).
  apply Rabs_le. lra.
Qed.

Lemma opt_bounds_real (x v : Z) :
  0 < x -> opt_bounds x v ->
  (rsqrt_true x * (1 - 4 / 1000) - 2 <= IZR v <= rsqrt_true x + 1)%R
  /\ (x < 2 ^ 14 ->
      (Rabs (IZR v - rsqrt_true x) <= rsqrt_true x * (6 / 1000))%R).
Proof.
  intros Hx (Hv & Hu & Hl & Hs).
  pose proof (upper_le_real 1 0 1 x v Hx ltac:(lia) ltac:(lia) ltac:(lia) Hu) as Hu'.
  pose proof (lower_le_real 1000 4 2 x v Hx ltac:(lia) ltac:(lia) ltac:(lia) Hl) as Hl'.
  split; [lra|].
  intros Hsmall. destruct (Hs Hsmall) as [Hu2 Hl2].
  pose proof (upper_le_real 1000 1 0 x v Hx ltac:(lia) ltac:(lia) ltac:(lia) Hu2).
  pose proof (lower_le_real 1000 6 0 x v Hx ltac:(lia) ltac:(lia) ltac:(lia) Hl2).
  pose proof (rsqrt_true_pos x Hx).
  apply Rabs_le. lra.
Qed.

(** At [x = 2^31] the true value is [sqrt 2 = 1.414...]; the reference
    variant returns 1, off by more than a quarter of the true value. *)
Lemma reference_error_at_top_bit :
  value (run (Reference.fast_rsqrt (2 ^ 31))) = Some 1
  /\ (Rabs (IZR 1 - rsqrt_true (2 ^ 31)) > rsqrt_true (2 ^ 31) / 4)%R.
Proof.
  split; [vm_compute; reflexivity|].
  assert (H : (4 < (3 * 65536) / sqrt (IZR (2 ^ 31)))%R).
  { change (2 ^ 31) with 2147483648. apply sq_lt_sqrt; lra. }
  unfold rsqrt_true.
  set (T := (65536 / sqrt (IZR (2 ^ 31)))%R) in *.
  assert (HT : (4 < 3 * T)%R) by (unfold T, Rdiv in *; lra).
  rewrite Rabs_left by lra. lra.
Qed.

(** C1 (amended).  For every 32-bit [x > 0], with [T = 2^16 / sqrt(x)]:
    the reference variant (two Newton steps) returns [y] with
    [T - 2 <= y <= T + 1], and with [|y - T| <= 0.1% * T] when [x < 2^14];
    the optimal variant (one step) returns [y] with
    [T * (1 - 0.4%) - 2 <= y <= T + 1], and with [|y - T| <= 0.6% * T]
    when [x < 2^14]. *)
Theorem rsqrt_error_bounds (x : Z) :
  0 < x < 2 ^ 32 ->
  exists yr yo : Z,
    value (run (Reference.fast_rsqrt x)) = Some yr
    /\ value (run (Optimal.fast_rsqrt x)) = Some yo
    /\ (rsqrt_true x - 2 <= IZR yr <= rsqrt_true x + 1)%R
    /\ (x < 2 ^ 14 ->
        (Rabs (IZR yr - rsqrt_true x) <= rsqrt_true x / 1000)%R)
    /\ (rsqrt_true x * (1 - 4 / 1000) - 2 <= IZR yo <= rsqrt_true x + 1)%R
    /\ (x < 2 ^ 14 ->
        (Rabs (IZR yo - rsqrt_true x) <= rsqrt_true x * (6 / 1000))%R).
Proof.
  intros Hx. exists (ref_rsqrt_value x), (opt_rsqrt_value x).
  assert (Hu : is_u32 x) by (unfold is_u32; lia).
  split; [apply ref_value_of_run; assumption|].
  split; [apply opt_value_of_run; assumption|].
  destruct (ref_bounds_real x _ ltac:(lia)
              (proj1 ref_sweep_facts x ltac:(lia))) as [Hr1 Hr2].
  destruct (opt_bounds_real x _ ltac:(lia)
              (proj1 opt_sweep_facts x ltac:(lia))) as [Ho1 Ho2].
  repeat split; try assumption; lra.
Qed.

Lemma rsqrt_error_bounds_witness :
  0 < 1000 < 2 ^ 32
  /\ exists yr yo : Z,
    value (run (Reference.fast_rsqrt 1000)) = Some yr
    /\ value (run (Optimal.fast_rsqrt 1000)) = Some yo
    /\ (rsqrt_true 1000 - 2 <= IZR yr <= rsqrt_true 1000 + 1)%R
    /\ (1000 < 2 ^ 14 ->
        (Rabs (IZR yr - rsqrt_true 1000) <= rsqrt_true 1000 / 1000)%R)
    /\ (rsqrt_true 1000 * (1 - 4 / 1000) - 2 <= IZR yo
        <= rsqrt_true 1000 + 1)%R
    /\ (1000 < 2 ^ 14 ->
        (Rabs (IZR yo - rsqrt_true 1000) <= rsqrt_true 1000 * (6 / 1000))%R).
Proof.
  assert (H : 0 < 1000 < 2 ^ 32) by lia.
  split; [exact H | exact (rsqrt_error_bounds 1000 H)].
Defined.

(** One Newton step is looser than two: at [x = 3] the optimal variant is
    more than 0.3% below the true value, where the reference variant is
    within 0.1%. *)
Lemma optimal_error_at_3 :
  value (run (Optimal.fast_rsqrt 3)) = Some 37718
  /\ (IZR 37718 < rsqrt_true 3 * (1 - 3 / 1000))%R.
Proof.
  split; [vm_compute; reflexivity|].
  assert (H : (37718 * 1000 < (997 * 65536) / sqrt (IZR 3))%R)
    by (apply sq_lt_sqrt; lra).
  unfold rsqrt_true, Rdiv in *. lra.
Qed.

(** ** Monotonicity *)

(** Both variants step up by one somewhere: the reference variant from
    [2^30 - 1] to [2^30], the optimal variant from 1563 to 1564. *)
Lemma monotonicity_fails :
  ~ (forall a b va vb, 0 < a -> a < b -> b < 2 ^ 32 ->
       value (run (Reference.fast_rsqrt a)) = Some va ->
       value (run (Reference.fast_rsqrt b)) = Some vb -> va >= vb)
  /\ ~ (forall a b va vb, 0 < a -> a < b -> b < 2 ^ 32 ->
       value (run (Optimal.fast_rsqrt a)) = Some va ->
       value (run (Optimal.fast_rsqrt b)) = Some vb -> va >= vb).
Proof.
  split; intros H.
  - specialize (H (2 ^ 30 - 1) (2 ^ 30) 1 2 ltac:(lia) ltac:(lia) ltac:(lia)).
    assert (1 >= 2); [|lia].
    apply H; vm_compute; reflexivity.
  - specialize (H 1563 1564 1651 1652 ltac:(lia) ltac:(lia) ltac:(lia)).
    assert (1651 >= 1652); [|lia].
    apply H; vm_compute; reflexivity.
Qed.

(** C3 (amended).  For all 32-bit [a], [b] with [0 < a < b], in both
    variants [fast_rsqrt b <= fast_rsqrt a + 1]: the function is
    non-increasing up to one unit. *)
Theorem rsqrt_nearly_monotone (a b : Z) :
  0 < a -> a < b -> b < 2 ^ 32 ->
  exists ra rb oa ob : Z,
    value (run (Reference.fast_rsqrt a)) = Some ra
    /\ value (run (Reference.fast_rsqrt b)) = Some rb
    /\ value (run (Optimal.fast_rsqrt a)) = Some oa
    /\ value (run (Optimal.fast_rsqrt b)) = Some ob
    /\ rb <= ra + 1
    /\ ob <= oa + 1.
Proof.
  intros Ha Hab Hb.
  exists (ref_rsqrt_value a), (ref_rsqrt_value b),
         (opt_rsqrt_value a), (opt_rsqrt_value b).
  assert (Hua : is_u32 a) by (unfold is_u32; lia).
  assert (Hub : is_u32 b) by (unfold is_u32; lia).
  repeat split;
    try (apply ref_value_of_run; assumption);
    try (apply opt_value_of_run; assumption).
  - apply (proj2 ref_sweep_facts); lia.
  - apply (proj2 opt_sweep_facts); lia.
Qed.

Lemma rsqrt_nearly_monotone_witness :
  (0 < 1563 /\ 1563 < 1564 /\ 1564 < 2 ^ 32)
  /\ exists ra rb oa ob : Z,
    value (run (Reference.fast_rsqrt 1563)) = Some ra
    /\ value (run (Reference.fast_rsqrt 1564)) = Some rb
    /\ value (run (Optimal.fast_rsqrt 1563)) = Some oa
    /\ value (run (Optimal.fast_rsqrt 1564)) = Some ob
    /\ rb <= ra + 1
    /\ ob <= oa + 1.
Proof.
  assert (H1 : 0 < 1563) by lia.
  assert (H2 : 1563 < 1564) by lia.
  assert (H3 : 1564 < 2 ^ 32) by lia.
  split; [exact (conj H1 (conj H2 H3))|].
  exact (rsqrt_nearly_monotone 1563 1564 H1 H2 H3).
Defined.

(** * Further properties of the code *)

(** ** Further properties of the approximator *)

(** X1.  [clz32] counts the leading zero bits of a 32-bit word: it is 32 for
    0, and for a nonzero [x] it is [31 - floor(log2 x)], so bit
    [31 - clz32 x] of [x] is set and every bit above it is clear.
    (Both variants have the same [clz32].) *)
Theorem clz32_counts_leading_zeros (x : Z) :
  is_u32 x ->
  (x = 0 -> clz32 x = 32)
  /\ (0 < x ->
      clz32 x = 31 - Z.log2 x
      /\ Z.testbit x (31 - clz32 x) = true
      /\ forall i, 31 - clz32 x < i -> Z.testbit x i = false).
Proof.
  unfold is_u32. intros Hx. split; [intros ->; reflexivity|].
  intros Hpos. pose proof (clz32_log2 x ltac:(lia)) as Hc.
  rewrite Hc. replace (31 - (31 - Z.log2 x)) with (Z.log2 x) by lia.
  split; [reflexivity|]. split.
  - apply Z.bit_log2. assumption.
  - intros i Hi. apply Z.bits_above_log2; lia.
Qed.

Lemma clz32_counts_leading_zeros_witness :
  is_u32 1000
  /\ ((1000 = 0 -> clz32 1000 = 32)
      /\ (0 < 1000 ->
          clz32 1000 = 31 - Z.log2 1000
          /\ Z.testbit 1000 (31 - clz32 1000) = true
          /\ forall i, 31 - clz32 1000 < i -> Z.testbit 1000 i = false)).
Proof.
  assert (H : is_u32 1000) by (unfold is_u32; lia).
  split; [exact H | exact (clz32_counts_leading_zeros 1000 H)].
Defined.

(** X2.  [clz32] never increases when its 32-bit argument grows, and its
    result always lies in 0..32. *)
Theorem clz32_antitone (x y : Z) :
  0 <= x -> x <= y -> y < 2 ^ 32 ->
  clz32 y <= clz32 x /\ 0 <= clz32 y /\ clz32 x <= 32.
Proof.
  intros Hx Hxy Hy.
  destruct (Z.eq_dec x 0) as [->|Hx0].
  - change (clz32 0) with 32.
    destruct (Z.eq_dec y 0) as [->|Hy0]; [change (clz32 0) with 32; lia|].
    pose proof (clz32_bucket y ltac:(lia)). lia.
  - pose proof (clz32_log2 x ltac:(lia)). pose proof (clz32_log2 y ltac:(lia)).
    pose proof (Z.log2_le_mono x y Hxy).
    pose proof (clz32_bucket x ltac:(lia)). pose proof (clz32_bucket y ltac:(lia)).
    lia.
Qed.

Lemma clz32_antitone_witness :
  (0 <= 5 /\ 5 <= 70000 /\ 70000 < 2 ^ 32)
  /\ (clz32 70000 <= clz32 5 /\ 0 <= clz32 70000 /\ clz32 5 <= 32).
Proof.
  assert (H1 : 0 <= 5) by lia. assert (H2 : 5 <= 70000) by lia.
  assert (H3 : 70000 < 2 ^ 32) by lia.
  split; [exact (conj H1 (conj H2 H3)) | exact (clz32_antitone 5 70000 H1 H2 H3)].
Defined.

(** X3.  For a 32-bit [x] and a 16-bit [y], [mul32x16_shr16 x y] of the
    optimised variant is exactly [(x * y) >> 16]: the sum of its two partial
    products does not wrap, and the result fits in 32 bits. *)
Theorem mul32x16_shr16_exact (x y : Z) :
  is_u32 x -> is_u16 y ->
  Optimal.mul32x16_shr16 x y = Z.shiftr (x * y) 16
  /\ is_u32 (Optimal.mul32x16_shr16 x y).
Proof.
  intros Hx Hy. destruct (half_split x Hx) as (Hd & Hh & Hl).
  unfold Optimal.mul32x16_shr16. cbv zeta.
  change 0xFFFF with (2 ^ 16 - 1). rewrite land_low, !shiftr_div by lia.
  rewrite !mul16x16_32_exact by assumption.
  set (xh := x / 2 ^ 16) in *. set (xl := x mod 2 ^ 16) in *.
  unfold is_u16, is_u32 in *.
  assert (Hhh : 0 <= xh * y <= (2 ^ 16 - 1) * (2 ^ 16 - 1))
    by (split; [nia|apply Z.mul_le_mono_nonneg; lia]).
  assert (Hll : 0 <= xl * y <= (2 ^ 16 - 1) * (2 ^ 16 - 1))
    by (split; [nia|apply Z.mul_le_mono_nonneg; lia]).
  assert (Hq : 0 <= xl * y / 2 ^ 16 < 2 ^ 16)
    by (split; [apply Z.div_pos|apply Z.div_lt_upper_bound]; lia).
  assert (He : x * y / 2 ^ 16 = xh * y + xl * y / 2 ^ 16).
  { replace (x * y) with (xh * y * 2 ^ 16 + xl * y)
      by (rewrite Hd at 1; change (2 ^ 16) with 65536; lia).
    apply Z.div_add_l. lia. }
  rewrite He. unfold add32, u32. rewrite Z.mod_small by lia. lia.
Qed.

Lemma mul32x16_shr16_exact_witness :
  (is_u32 4000000000 /\ is_u16 65535)
  /\ (Optimal.mul32x16_shr16 4000000000 65535 = Z.shiftr (4000000000 * 65535) 16
      /\ is_u32 (Optimal.mul32x16_shr16 4000000000 65535)).
Proof.
  assert (Hx : is_u32 4000000000) by (unfold is_u32; lia).
  assert (Hy : is_u16 65535) by (unfold is_u16; lia).
  split; [exact (conj Hx Hy) | exact (mul32x16_shr16_exact _ _ Hx Hy)].
Defined.

(** X4.  [mul16x16_32] looks only at the low 16 bits of each operand: for
    any arguments it returns the product of the two arguments reduced modulo
    2^16, the same as on the reduced arguments, and the result fits in 32
    bits. *)
Theorem mul16x16_32_truncates (a b : Z) :
  Optimal.mul16x16_32 a b = (a mod 2 ^ 16) * (b mod 2 ^ 16)
  /\ Optimal.mul16x16_32 a b = Optimal.mul16x16_32 (a mod 2 ^ 16) (b mod 2 ^ 16)
  /\ is_u32 (Optimal.mul16x16_32 a b).
Proof.
  rewrite !mul16x16_32_low, !Z.mod_mod by lia.
  pose proof (Z.mod_pos_bound a (2 ^ 16) ltac:(lia)).
  pose proof (Z.mod_pos_bound b (2 ^ 16) ltac:(lia)).
  assert ((a mod 2 ^ 16) * (b mod 2 ^ 16) < 2 ^ 16 * 2 ^ 16)
    by (apply Z.mul_lt_mono_nonneg; lia).
  unfold is_u32. repeat split; nia.
Qed.

Lemma lin_seed_bracket (e x : Z) :
  0 <= e <= 31 -> 2 ^ e <= x < 2 ^ (e + 1) ->
  tbl_next ref_tbl e <= lin_seed ref_tbl e x <= ref_tbl e.
Proof.
  intros He Hx. pose proof (tbl_pair e He) as [Hp Hb].
  assert (Hl : Z.log2 x = e) by (apply Z.log2_unique; lia).
  assert (H2e : 0 < 2 ^ e) by (apply Z.pow_pos_nonneg; lia).
  pose proof (frac_spec_range x ltac:(lia)) as Hr.
  rewrite <- lin_frac_spec, Hl in Hr.
  unfold lin_seed. rewrite shiftr_div by lia.
  destruct (seed_arith (ref_tbl e) (tbl_next ref_tbl e) (lin_frac e x) Hp Hb Hr)
    as [Hq _].
  lia.
Qed.

Lemma log2_bucket (x : Z) :
  0 < x < 2 ^ 32 ->
  0 <= Z.log2 x <= 31 /\ 2 ^ Z.log2 x <= x < 2 ^ (Z.log2 x + 1).
Proof.
  intros Hx. destruct (exp_of_bucket x Hx) as (He & _ & Hb).
  rewrite (exp_of_log2 x Hx) in *. lia.
Qed.

Lemma ref_seed_next (x : Z) :
  0 < x < 2 ^ 32 ->
  Reference.s_y_next (ref_seed_value x) = tbl_next ref_tbl (Z.log2 x)
  /\ Reference.s_y_base (ref_seed_value x) = ref_tbl (Z.log2 x).
Proof.
  intros Hx. destruct (exp_of_bucket x Hx) as (He & _ & _).
  cbn [ref_seed_value Reference.s_y_next Reference.s_y_base].
  rewrite (exp_of_log2 x Hx) in *. unfold tbl_next.
  destruct (Z.ltb_spec (Z.log2 x) 31); [|split; reflexivity].
  replace (add32 (Z.log2 x) 1) with (Z.log2 x + 1)
    by (unfold add32, u32; symmetry; apply Z.mod_small; lia).
  split; reflexivity.
Qed.

(** X5.  For every nonzero 32-bit input the table lookup and interpolation
    of the two variants read the same table entries and produce the same
    seed, and that seed lies between the next table entry and the entry of
    the input's own bucket. *)
Theorem seeds_agree_in_bracket (x : Z) :
  0 < x < 2 ^ 32 ->
  exists sr so log,
    run (Reference.fast_rsqrt_seed x) = Ok (sr, log)
    /\ run (Optimal.fast_rsqrt_seed x) = Ok (so, log)
    /\ Reference.s_y sr = Optimal.s_y so
    /\ Reference.s_y_next sr <= Reference.s_y sr <= Reference.s_y_base sr.
Proof.
  intros Hx. exists (ref_seed_value x), (opt_seed_value x), (reads x).
  unfold run. rewrite ref_fast_rsqrt_seed_value, opt_fast_rsqrt_seed_value
    by assumption.
  split; [reflexivity|]. split; [reflexivity|].
  destruct (ref_seed_next x Hx) as [Hn Hb]. rewrite Hn, Hb.
  rewrite ref_seed_lin, opt_seed_lin by assumption.
  split; [reflexivity|].
  destruct (log2_bucket x Hx) as [He Hbk].
  apply lin_seed_bracket; assumption.
Qed.

Lemma seeds_agree_in_bracket_witness :
  0 < 1000 < 2 ^ 32
  /\ exists sr so log,
    run (Reference.fast_rsqrt_seed 1000) = Ok (sr, log)
    /\ run (Optimal.fast_rsqrt_seed 1000) = Ok (so, log)
    /\ Reference.s_y sr = Optimal.s_y so
    /\ Reference.s_y_next sr <= Reference.s_y sr <= Reference.s_y_base sr.
Proof.
  assert (H : 0 < 1000 < 2 ^ 32) by lia.
  split; [exact H | exact (seeds_agree_in_bracket 1000 H)].
Defined.

(** X6.  At the first input of a bucket, [x = 2^e] with [0 <= e <= 31],
    both variants find the bucket [e], read the same table entries, and
    their seed is the table entry [rsqrt_table[e]] itself.  The
    interpolation fraction there is 0 in the optimised variant for every
    [e], and in the reference variant for [e <= 30]; at [e = 31] the
    reference fraction is 65536, and its seed is still the table entry
    because [delta] is 0. *)
Theorem seed_at_bucket_start (e : Z) :
  0 <= e <= 31 ->
  exists sr so log,
    run (Reference.fast_rsqrt_seed (2 ^ e)) = Ok (sr, log)
    /\ run (Optimal.fast_rsqrt_seed (2 ^ e)) = Ok (so, log)
    /\ Reference.s_exp sr = e /\ Optimal.s_e so = e
    /\ Reference.s_y sr = ref_tbl e /\ Optimal.s_y so = ref_tbl e
    /\ Optimal.s_frac so = 0
    /\ (e <= 30 -> Reference.s_frac sr = 0)
    /\ (e = 31 -> Reference.s_frac sr = 65536 /\ Reference.s_delta sr = 0).
Proof.
  intros He.
  assert (H2e : 0 < 2 ^ e) by (apply Z.pow_pos_nonneg; lia).
  assert (Hx : 0 < 2 ^ e < 2 ^ 32) by (split; [lia|apply Z.pow_lt_mono_r; lia]).
  assert (Hl : Z.log2 (2 ^ e) = e) by (apply Z.log2_pow2; lia).
  assert (Hf : lin_frac e (2 ^ e) = 0).
  { unfold lin_frac. rewrite Z.shiftl_1_l, Z.sub_diag, Z.shiftl_0_l.
    apply Z.shiftr_0_l. }
  assert (Hs : lin_seed ref_tbl e (2 ^ e) = ref_tbl e).
  { unfold lin_seed. rewrite Hf, Z.mul_0_r. change (Z.shiftr 0 16) with 0. lia. }
  exists (ref_seed_value (2 ^ e)), (opt_seed_value (2 ^ e)), (reads (2 ^ e)).
  unfold run. rewrite ref_fast_rsqrt_seed_value, opt_fast_rsqrt_seed_value
    by assumption.
  split; [reflexivity|]. split; [reflexivity|].
  split; [cbn [ref_seed_value Reference.s_exp];
          rewrite (exp_of_log2 _ Hx); exact Hl|].
  split; [cbn [opt_seed_value Optimal.s_e];
          rewrite (exp_of_log2 _ Hx); exact Hl|].
  split; [rewrite ref_seed_lin, Hl by assumption; exact Hs|].
  split; [rewrite opt_seed_lin, Hl by assumption; exact Hs|].
  split; [rewrite opt_frac_spec, <- lin_frac_spec, Hl by assumption; exact Hf|].
  split.
  - intros He30.
    assert (Hx31 : 0 < 2 ^ e < 2 ^ 31)
      by (split; [lia|apply Z.pow_lt_mono_r; lia]).
    rewrite ref_frac_spec, <- lin_frac_spec, Hl by assumption. exact Hf.
  - intros ->. split; reflexivity.
Qed.

Lemma seed_at_bucket_start_witness :
  0 <= 12 <= 31
  /\ exists sr so log,
    run (Reference.fast_rsqrt_seed (2 ^ 12)) = Ok (sr, log)
    /\ run (Optimal.fast_rsqrt_seed (2 ^ 12)) = Ok (so, log)
    /\ Reference.s_exp sr = 12 /\ Optimal.s_e so = 12
    /\ Reference.s_y sr = ref_tbl 12 /\ Optimal.s_y so = ref_tbl 12
    /\ Optimal.s_frac so = 0
    /\ (12 <= 30 -> Reference.s_frac sr = 0)
    /\ (12 = 31 -> Reference.s_frac sr = 65536 /\ Reference.s_delta sr = 0).
Proof.
  assert (H : 0 <= 12 <= 31) by lia.
  split; [exact H | exact (seed_at_bucket_start 12 H)].
Defined.

(** X7.  An exact value is a fixed point of the Newton step: when
    [x * y^2 = 2^32] (so [y] is exactly [2^16 / sqrt x]) the reference
    [q16_newton_step y x] returns [y], and so does the optimised one when
    [y] fits its 16-bit operand ([y < 65536]). *)
Theorem newton_exact_seed_fixed (y x : Z) :
  0 < y -> y <= 65536 -> is_u32 x -> x * (y * y) = 2 ^ 32 ->
  run (Reference.q16_newton_step y x) = Ok (y, [])
  /\ (y < 65536 -> Optimal.q16_newton_step y x = y).
Proof.
  intros Hy0 Hy Hx Hexact. split.
  - unfold run. rewrite ref_q16_newton_step_value by (unfold is_u32 in *; lia).
    assert (HR : ref_lin_R y x = 65536)
      by (unfold ref_lin_R; rewrite Hexact; reflexivity).
    rewrite ref_step_lin by (try rewrite HR; assumption || lia).
    unfold ref_lin_step. rewrite HR, shiftr_div by lia.
    do 2 f_equal. Z.to_euclidean_division_equations; lia.
  - intros Hlt.
    assert (HQ : opt_lin_Q y x = 65536)
      by (unfold opt_lin_Q; rewrite Hexact; reflexivity).
    rewrite opt_step_lin by (try rewrite HQ; assumption || lia).
    unfold opt_lin_step, opt_lin_G. rewrite HQ.
    change (Z.shiftr (196608 - 65536) 16) with 2.
    change (Z.land (196608 - 65536) 65535) with 0.
    rewrite Z.mul_0_r, !shiftr_div by lia.
    change (0 / 2 ^ 17) with 0. change (2 ^ 1) with 2.
    rewrite Z.div_mul by lia. lia.
Qed.

Lemma newton_exact_seed_fixed_witness :
  (0 < 2048 /\ 2048 <= 65536 /\ is_u32 1024 /\ 1024 * (2048 * 2048) = 2 ^ 32)
  /\ (run (Reference.q16_newton_step 2048 1024) = Ok (2048, [])
      /\ (2048 < 65536 -> Optimal.q16_newton_step 2048 1024 = 2048)).
Proof.
  assert (H1 : 0 < 2048) by lia. assert (H2 : 2048 <= 65536) by lia.
  assert (H3 : is_u32 1024) by (unfold is_u32; lia).
  assert (H4 : 1024 * (2048 * 2048) = 2 ^ 32) by reflexivity.
  split; [exact (conj H1 (conj H2 (conj H3 H4)))|].
  exact (newton_exact_seed_fixed 2048 1024 H1 H2 H3 H4).
Defined.

(** X8.  For a fixed estimate [y <= 65536] the Newton step never increases
    when the input grows, as long as [x' * y^2 <= 3 * 2^32] for the larger
    input [x'] (so that [3 - x y^2] does not go below zero); this holds for
    the reference step, and for the optimised step when [y < 65536]. *)
Theorem newton_step_antitone (y x x' : Z) :
  0 <= y <= 65536 -> 0 <= x -> x <= x' -> x' < 2 ^ 32 ->
  x' * (y * y) <= 3 * 2 ^ 32 ->
  exists v v',
    run (Reference.q16_newton_step y x) = Ok (v, [])
    /\ run (Reference.q16_newton_step y x') = Ok (v', [])
    /\ v' <= v
    /\ (y < 65536 ->
        Optimal.q16_newton_step y x' <= Optimal.q16_newton_step y x).
Proof.
  intros Hy Hx Hxx Hx' Hb.
  assert (Hyy : 0 <= y * y) by nia.
  assert (Hb0 : x * (y * y) <= 3 * 2 ^ 32) by nia.
  assert (HR' : ref_lin_R y x' <= 196608).
  { unfold ref_lin_R. rewrite shiftr_div by lia.
    assert ((x' * (y * y) + 32768) / 2 ^ 16 < 196609)
      by (apply Z.div_lt_upper_bound; lia).
    lia. }
  assert (HR : ref_lin_R y x <= 196608)
    by (pose proof (ref_lin_R_mono y x x' Hxx); lia).
  exists (ref_step_value y x), (ref_step_value y x'). unfold run.
  rewrite !ref_q16_newton_step_value by (unfold is_u32; lia).
  split; [reflexivity|]. split; [reflexivity|]. split.
  - rewrite !ref_step_lin by (unfold is_u32; lia).
    apply ref_lin_step_anti; lia.
  - intros Hlt.
    assert (HQ' : opt_lin_Q y x' <= 196608).
    { unfold opt_lin_Q. rewrite shiftr_div by lia.
      apply Z.div_le_upper_bound; lia. }
    assert (HQ : opt_lin_Q y x <= 196608)
      by (pose proof (opt_lin_Q_mono y x x' Hxx); lia).
    rewrite !opt_step_lin by (unfold is_u32; lia).
    apply opt_lin_step_anti; lia.
Qed.

Lemma newton_step_antitone_witness :
  (0 <= 2088 <= 65536 /\ 0 <= 900 /\ 900 <= 1000 /\ 1000 < 2 ^ 32
   /\ 1000 * (2088 * 2088) <= 3 * 2 ^ 32)
  /\ exists v v',
    run (Reference.q16_newton_step 2088 900) = Ok (v, [])
    /\ run (Reference.q16_newton_step 2088 1000) = Ok (v', [])
    /\ v' <= v
    /\ (2088 < 65536 ->
        Optimal.q16_newton_step 2088 1000 <= Optimal.q16_newton_step 2088 900).
Proof.
  assert (H1 : 0 <= 2088 <= 65536) by lia. assert (H2 : 0 <= 900) by lia.
  assert (H3 : 900 <= 1000) by lia. assert (H4 : 1000 < 2 ^ 32) by lia.
  assert (H5 : 1000 * (2088 * 2088) <= 3 * 2 ^ 32) by lia.
  split; [exact (conj H1 (conj H2 (conj H3 (conj H4 H5))))|].
  exact (newton_step_antitone 2088 900 1000 H1 H2 H3 H4 H5).
Defined.

Lemma sweep_least_values :
  (forall x, 1 <= x <= 2 ^ 32 - 1 -> 1 <= ref_rsqrt_value x)
  /\ (forall x, 1 <= x <= 2 ^ 32 - 1 -> 1 <= opt_rsqrt_value x).
Proof.
  pose proof (sweep_sound ref_rsqrt_value ref_leaf ref_good 1 ref_bounds
                1 (2 ^ 32 - 1) Z.le_0_1 ref_leaf_sound ref_good_sound
                40 1 (2 ^ 32 - 1) (2 ^ 32) 1
                (Z.le_refl 1) top_input_bound (Z.le_refl (2 ^ 32 - 1))
                ref_sweep_ok)
    as (_ & Hr & _).
  pose proof (sweep_sound opt_rsqrt_value opt_leaf opt_good 1 opt_bounds
                1 (2 ^ 32 - 1) Z.le_0_1 opt_leaf_sound opt_good_sound
                40 1 (2 ^ 32 - 1) (2 ^ 32) 1
                (Z.le_refl 1) top_input_bound (Z.le_refl (2 ^ 32 - 1))
                opt_sweep_ok)
    as (_ & Ho & _).
  split; intros x Hx; [apply (Hr x Hx) | apply (Ho x Hx)].
Qed.

Lemma upper_le_cap (x v : Z) :
  2 <= x -> upper_le 1 0 1 x v -> v <= 46341.
Proof.
  intros Hx [Hle|Hsq]; [lia|].
  destruct (Z.le_gt_cases v 46341) as [|Hgt]; [assumption|exfalso].
  assert (46341 * 46341 <= (v - 1) * (v - 1)) by nia.
  nia.
Qed.

(** X9.  For every nonzero 32-bit input both variants return a result at
    least 1; the reference result is at most 65536 and the optimised result
    at most 65535; and from [x = 2] on, both are at most 46341. *)
Theorem rsqrt_result_range (x : Z) :
  0 < x < 2 ^ 32 ->
  exists yr yo,
    value (run (Reference.fast_rsqrt x)) = Some yr
    /\ value (run (Optimal.fast_rsqrt x)) = Some yo
    /\ 1 <= yr <= 65536
    /\ 1 <= yo <= 65535
    /\ (2 <= x -> yr <= 46341 /\ yo <= 46341).
Proof.
  intros Hx. exists (ref_rsqrt_value x), (opt_rsqrt_value x).
  assert (Hu : is_u32 x) by (unfold is_u32; lia).
  split; [apply ref_value_of_run; assumption|].
  split; [apply opt_value_of_run; assumption|].
  pose proof (proj1 sweep_least_values x ltac:(lia)) as Hr1.
  pose proof (proj2 sweep_least_values x ltac:(lia)) as Ho1.
  destruct (proj1 ref_sweep_facts x ltac:(lia)) as (_ & Hru & _).
  destruct (proj1 opt_sweep_facts x ltac:(lia)) as (_ & Hou & _).
  destruct (Z.eq_dec x 1) as [->|Hne].
  - change (ref_rsqrt_value 1) with 65536 in *.
    change (opt_rsqrt_value 1) with 65535 in *. lia.
  - pose proof (upper_le_cap x _ ltac:(lia) Hru).
    pose proof (upper_le_cap x _ ltac:(lia) Hou). lia.
Qed.

Lemma rsqrt_result_range_witness :
  0 < 1000 < 2 ^ 32
  /\ exists yr yo,
    value (run (Reference.fast_rsqrt 1000)) = Some yr
    /\ value (run (Optimal.fast_rsqrt 1000)) = Some yo
    /\ 1 <= yr <= 65536
    /\ 1 <= yo <= 65535
    /\ (2 <= 1000 -> yr <= 46341 /\ yo <= 46341).
Proof.
  assert (H : 0 < 1000 < 2 ^ 32) by lia.
  split; [exact H | exact (rsqrt_result_range 1000 H)].
Defined.

(** X10.  At the powers of four [x = 4^k], [0 <= k <= 15], the reference
    [fast_rsqrt] returns the exact value [2^(16-k)]; the optimised variant
    returns the same exact value for [1 <= k <= 15] (at [k = 0], that is
    [x = 1], it returns 65535). *)
Theorem rsqrt_exact_at_powers_of_four (k : Z) :
  0 <= k <= 15 ->
  value (run (Reference.fast_rsqrt (4 ^ k))) = Some (2 ^ (16 - k))
  /\ (1 <= k ->
      value (run (Optimal.fast_rsqrt (4 ^ k))) = Some (2 ^ (16 - k))).
Proof.
  intros Hk.
  pose (P := fun k =>
    match value (run (Reference.fast_rsqrt (4 ^ k))),
          value (run (Optimal.fast_rsqrt (4 ^ k))) with
    | Some r, Some o =>
        (r =? 2 ^ (16 - k)) && ((k =? 0) || (o =? 2 ^ (16 - k)))
    | _, _ => false
    end).
  assert (H : P k = true)
    by (apply (forallb_range P 16); [vm_compute; reflexivity | lia]).
  unfold P in H.
  destruct (value (run (Reference.fast_rsqrt (4 ^ k)))) as [r|]; [|discriminate].
  destruct (value (run (Optimal.fast_rsqrt (4 ^ k)))) as [o|]; [|discriminate].
  apply andb_prop in H. destruct H as [Hr Ho].
  apply Z.eqb_eq in Hr. subst r. split; [reflexivity|].
  intros Hk1. apply orb_prop in Ho. destruct Ho as [Ho|Ho].
  - apply Z.eqb_eq in Ho. lia.
  - apply Z.eqb_eq in Ho. subst o. reflexivity.
Qed.

Lemma rsqrt_exact_at_powers_of_four_witness :
  0 <= 5 <= 15
  /\ (value (run (Reference.fast_rsqrt (4 ^ 5))) = Some (2 ^ (16 - 5))
      /\ (1 <= 5 ->
          value (run (Optimal.fast_rsqrt (4 ^ 5))) = Some (2 ^ (16 - 5)))).
Proof.
  assert (H : 0 <= 5 <= 15) by lia.
  split; [exact H | exact (rsqrt_exact_at_powers_of_four 5 H)].
Defined.

(** Bounds on [(x * y^2) >> 16] over a bucket, from the table. *)
Lemma bucket_Q_bounds (e : Z) :
  0 <= e <= 31 ->
  (2 ^ (e + 1) - 1) * (ref_tbl e * ref_tbl e) / 2 ^ 16 <= 147455
  /\ 16384 <= 2 ^ e * (tbl_next ref_tbl e * tbl_next ref_tbl e) / 2 ^ 16.
Proof.
  intros He.
  pose (P := fun e =>
    ((2 ^ (e + 1) - 1) * (ref_tbl e * ref_tbl e) / 2 ^ 16 <=? 147455)
    && (16384 <=? 2 ^ e * (tbl_next ref_tbl e * tbl_next ref_tbl e) / 2 ^ 16)).
  assert (H : P e = true)
    by (apply (forallb_range P 32); [vm_compute; reflexivity | lia]).
  unfold P in H. apply andb_prop in H. destruct H as [H1 H2]. lia.
Qed.

(** X11.  In the optimised [fast_rsqrt] the Newton step never wraps on a
    seed the function computes: for every nonzero 32-bit [x] with seed [y],
    the 32-bit subtraction [(3 << 16) - ((x * y^2) >> 16)] does not
    underflow, its value lies in 49153..180224, and the returned result is
    [(y * (term >> 16)) >> 1] plus [(y * (term & 0xFFFF)) >> 17]. *)
Theorem optimal_newton_never_wraps (x : Z) :
  0 < x < 2 ^ 32 ->
  exists s log,
    run (Optimal.fast_rsqrt_seed x) = Ok (s, log)
    /\ let y := Optimal.s_y s in
       let term := 3 * 2 ^ 16 - x * (y * y) / 2 ^ 16 in
       Optimal.newton_term y x = term
       /\ 49153 <= term <= 180224
       /\ value (run (Optimal.fast_rsqrt x))
          = Some (y * (term / 2 ^ 16) / 2 + y * (term mod 2 ^ 16) / 2 ^ 17).
Proof.
  intros Hx. exists (opt_seed_value x), (reads x). unfold run.
  rewrite opt_fast_rsqrt_seed_value by assumption.
  split; [reflexivity|]. cbv zeta.
  rewrite opt_fast_rsqrt_value by (unfold is_u32; lia).
  unfold value, opt_rsqrt_value.
  destruct (Z.eqb_spec x 0); [lia|].
  rewrite opt_seed_lin by assumption.
  destruct (log2_bucket x Hx) as [He Hb].
  set (e := Z.log2 x) in *.
  pose proof (lin_seed_bracket e x He Hb) as Hy.
  change opt_tbl with ref_tbl.
  set (y := lin_seed ref_tbl e x) in *.
  pose proof (tbl_pair e He) as [Hp Ht].
  destruct (bucket_Q_bounds e He) as [Hmax Hmin].
  assert (Hyy : tbl_next ref_tbl e * tbl_next ref_tbl e <= y * y
                /\ y * y <= ref_tbl e * ref_tbl e) by nia.
  assert (H2e : 0 < 2 ^ e) by (apply Z.pow_pos_nonneg; lia).
  assert (Hup : x * (y * y) <= (2 ^ (e + 1) - 1) * (ref_tbl e * ref_tbl e))
    by (apply Z.mul_le_mono_nonneg; nia).
  assert (Hlo : 2 ^ e * (tbl_next ref_tbl e * tbl_next ref_tbl e) <= x * (y * y))
    by (apply Z.mul_le_mono_nonneg; nia).
  pose proof (Z.div_le_mono _ _ (2 ^ 16) ltac:(lia) Hup) as Hq1.
  pose proof (Z.div_le_mono _ _ (2 ^ 16) ltac:(lia) Hlo) as Hq2.
  assert (HQ : opt_lin_Q y x = x * (y * y) / 2 ^ 16)
    by (unfold opt_lin_Q; apply shiftr_div; lia).
  assert (Hy16 : 0 <= y < 65536) by lia.
  assert (Hu : is_u32 x) by (unfold is_u32; lia).
  rewrite opt_term_lin by (try rewrite HQ; assumption || lia).
  rewrite opt_step_lin by (try rewrite HQ; assumption || lia).
  unfold opt_lin_step, opt_lin_G. rewrite HQ.
  change (3 * 2 ^ 16) with 196608.
  change 65535 with (2 ^ 16 - 1). rewrite land_low, !shiftr_div by lia.
  change (2 ^ 1) with 2.
  split; [reflexivity|]. split; [lia|reflexivity].
Qed.

Lemma optimal_newton_never_wraps_witness :
  0 < 1000 < 2 ^ 32
  /\ exists s log,
    run (Optimal.fast_rsqrt_seed 1000) = Ok (s, log)
    /\ let y := Optimal.s_y s in
       let term := 3 * 2 ^ 16 - 1000 * (y * y) / 2 ^ 16 in
       Optimal.newton_term y 1000 = term
       /\ 49153 <= term <= 180224
       /\ value (run (Optimal.fast_rsqrt 1000))
          = Some (y * (term / 2 ^ 16) / 2 + y * (term mod 2 ^ 16) / 2 ^ 17).
Proof.
  assert (H : 0 < 1000 < 2 ^ 32) by lia.
  split; [exact H | exact (optimal_newton_never_wraps 1000 H)].
Defined.

(** ** The driver's software arithmetic *)

Lemma land_shifted_low (a b k : Z) :
  0 <= k -> 0 <= b < 2 ^ k -> Z.land (a * 2 ^ k) b = 0.
Proof.
  intros Hk Hb. apply Z.bits_inj'. intros n Hn.
  rewrite Z.land_spec, Z.bits_0.
  destruct (Z.lt_ge_cases n k) as [Hlt|Hge].
  - rewrite Z.mul_pow2_bits_low by lia. reflexivity.
  - replace (Z.testbit b n) with false; [apply andb_false_r|].
    symmetry. destruct (Z.eq_dec b 0) as [->|Hb0]; [apply Z.bits_0|].
    apply Z.bits_above_log2; [lia|].
    assert (Z.log2 b < k) by (apply Z.log2_lt_pow2; lia). lia.
Qed.

Lemma lor_shifted_low (a b k : Z) :
  0 <= k -> 0 <= b < 2 ^ k -> Z.lor (a * 2 ^ k) b = a * 2 ^ k + b.
Proof.
  intros Hk Hb. pose proof (land_shifted_low a b k Hk Hb) as H.
  rewrite <- Z.lxor_lor by exact H. symmetry.
  apply Z.add_nocarry_lxor. exact H.
Qed.

Lemma low_bit (n i : Z) :
  0 <= i -> Z.land (Z.shiftr n i) 1 = (n / 2 ^ i) mod 2.
Proof. intros Hi. rewrite land_1, shiftr_div by lia. reflexivity. Qed.

(** The next remainder of the restoring division: the running remainder
    doubled, plus the next bit of the dividend. *)
Lemma next_remainder (n d k Q R : Z) :
  0 <= n < 2 ^ 32 -> 0 < d -> 0 <= k ->
  n / 2 ^ (k + 1) = Q * d + R -> 0 <= R < d -> 0 <= Q ->
  let r := Z.lor (shl32 R 1) (Z.land (Z.shiftr n k) 1) in
  r = 2 * R + (n / 2 ^ k) mod 2
  /\ n / 2 ^ k = 2 * Q * d + r
  /\ 0 <= r < 2 * d /\ r < 2 ^ 32.
Proof.
  intros Hn Hd Hk HP HR HQ. cbv zeta.
  assert (H2k : 0 < 2 ^ k) by (apply Z.pow_pos_nonneg; lia).
  assert (Hstep : n / 2 ^ k = 2 * (n / 2 ^ (k + 1)) + (n / 2 ^ k) mod 2).
  { rewrite Z.pow_add_r, <- Z.div_div by lia. change (2 ^ 1) with 2.
    apply Z.div_mod. lia. }
  pose proof (Z.mod_pos_bound (n / 2 ^ k) 2 ltac:(lia)) as Hbit.
  assert (Hle : n / 2 ^ k <= n).
  { apply Z.div_le_upper_bound; [lia|]. nia. }
  assert (HQd : 0 <= Q * d) by nia.
  rewrite low_bit by lia.
  unfold shl32, u32. rewrite Z.shiftl_mul_pow2 by lia.
  rewrite (Z.mod_small (R * 2 ^ 1)) by (change (2 ^ 1) with 2; lia).
  rewrite lor_shifted_low by (change (2 ^ 1) with 2; lia).
  change (2 ^ 1) with 2. lia.
Qed.

Lemma udiv_fold (n d : Z) (k : nat) :
  0 <= n < 2 ^ 32 -> 0 < d < 2 ^ 32 -> (k <= 32)%nat ->
  forall Q R,
    n / 2 ^ Z.of_nat k = Q * d + R -> 0 <= R < d -> 0 <= Q ->
    fold_left (Driver.udiv_body n d) (Driver.countdown k)
              (Q * 2 ^ Z.of_nat k, R)
    = (n / d, n mod d).
Proof.
  intros Hn Hd. induction k as [|k IH]; intros Hk Q R HP HR HQ.
  - cbn [Driver.countdown fold_left]. change (2 ^ Z.of_nat 0) with 1 in *.
    rewrite Z.div_1_r in HP. rewrite Z.mul_1_r.
    assert (Hq : Q = n / d /\ R = n mod d).
    { apply (Z.div_mod_unique d Q (n / d) R (n mod d)); try lia.
      - left. apply Z.mod_pos_bound. lia.
      - rewrite <- Z.div_mod by lia. lia. }
    destruct Hq as [-> ->]. reflexivity.
  - cbn [Driver.countdown fold_left].
    rewrite Nat2Z.inj_succ, <- Z.add_1_r in HP |- *.
    set (i := Z.of_nat k) in *. assert (Hi : 0 <= i <= 31) by lia.
    destruct (next_remainder n d i Q R Hn ltac:(lia) ltac:(lia) HP HR HQ)
      as (Hr & Hdiv & Hrd & Hr32).
    unfold Driver.udiv_body at 2. cbv zeta beta iota.
    set (r := Z.lor (shl32 R 1) (Z.land (Z.shiftr n i) 1)) in *.
    assert (H2i : 0 < 2 ^ i) by (apply Z.pow_pos_nonneg; lia).
    assert (Hpow : 2 ^ (i + 1) = 2 * 2 ^ i)
      by (rewrite Z.pow_add_r by lia; change (2 ^ 1) with 2; lia).
    destruct (Z.leb_spec d r) as [Hge|Hlt].
    + rewrite shl32_one by lia.
      replace (Q * 2 ^ (i + 1)) with ((2 * Q) * 2 ^ i) by (rewrite Hpow; lia).
      assert (Hone : 0 <= 2 ^ i < 2 ^ (i + 1)) by lia.
      replace (Z.lor (2 * Q * 2 ^ i) (2 ^ i)) with ((2 * Q + 1) * 2 ^ i).
      2:{ replace (2 * Q * 2 ^ i) with (Q * 2 ^ (i + 1)) by (rewrite Hpow; lia).
          rewrite lor_shifted_low by lia. rewrite Hpow. lia. }
      unfold sub32, u32. rewrite (Z.mod_small (r - d)) by lia.
      apply IH; lia.
    + replace (Q * 2 ^ (i + 1)) with ((2 * Q) * 2 ^ i) by (rewrite Hpow; lia).
      apply IH; lia.
Qed.

Lemma umod_fold (n d : Z) (k : nat) :
  0 <= n < 2 ^ 32 -> 0 < d < 2 ^ 32 -> (k <= 32)%nat ->
  forall Q R,
    n / 2 ^ Z.of_nat k = Q * d + R -> 0 <= R < d -> 0 <= Q ->
    fold_left (Driver.umod_body n d) (Driver.countdown k) R = n mod d.
Proof.
  intros Hn Hd. induction k as [|k IH]; intros Hk Q R HP HR HQ.
  - cbn [Driver.countdown fold_left]. change (2 ^ Z.of_nat 0) with 1 in *.
    rewrite Z.div_1_r in HP.
    apply (Z.div_mod_unique d Q (n / d) R (n mod d)); try lia.
    + left. apply Z.mod_pos_bound. lia.
    + rewrite <- Z.div_mod by lia. lia.
  - cbn [Driver.countdown fold_left].
    rewrite Nat2Z.inj_succ, <- Z.add_1_r in HP.
    set (i := Z.of_nat k) in *. assert (Hi : 0 <= i <= 31) by lia.
    destruct (next_remainder n d i Q R Hn ltac:(lia) ltac:(lia) HP HR HQ)
      as (Hr & Hdiv & Hrd & Hr32).
    unfold Driver.umod_body at 2. cbv zeta.
    set (r := Z.lor (shl32 R 1) (Z.land (Z.shiftr n i) 1)) in *.
    destruct (Z.leb_spec d r) as [Hge|Hlt].
    + unfold sub32, u32. rewrite (Z.mod_small (r - d)) by lia.
      apply (IH ltac:(lia) (2 * Q + 1)); lia.
    + apply (IH ltac:(lia) (2 * Q)); lia.
Qed.

Lemma div_top (n : Z) : 0 <= n < 2 ^ 32 -> n / 2 ^ Z.of_nat 32 = 0.
Proof. intros Hn. apply Z.div_small. change (Z.of_nat 32) with 32. lia. Qed.

Lemma udiv_value (n d : Z) :
  0 <= n < 2 ^ 32 -> 0 < d < 2 ^ 32 -> Driver.udiv n d = n / d.
Proof.
  intros Hn Hd. unfold Driver.udiv.
  destruct (Z.eqb_spec d 0) as [|_]; [lia|].
  pose proof (udiv_fold n d 32 Hn Hd ltac:(lia) 0 0) as H.
  change (0 * 2 ^ Z.of_nat 32) with 0 in H.
  rewrite H; [reflexivity| |lia|lia].
  rewrite div_top by assumption. lia.
Qed.

Lemma umod_value (n d : Z) :
  0 <= n < 2 ^ 32 -> 0 < d < 2 ^ 32 -> Driver.umod n d = n mod d.
Proof.
  intros Hn Hd. unfold Driver.umod.
  destruct (Z.eqb_spec d 0) as [|_]; [lia|].
  apply (umod_fold n d 32 Hn Hd ltac:(lia) 0 0); try lia.
  rewrite div_top by assumption. lia.
Qed.

(** X12.  The driver's [udiv] is unsigned 32-bit division: for 32-bit
    [n] and nonzero [d] it returns the quotient [n / d]; for [d = 0] it
    returns 0; the result fits in 32 bits. *)
Theorem udiv_is_quotient (n d : Z) :
  is_u32 n -> is_u32 d ->
  (d = 0 -> Driver.udiv n d = 0)
  /\ (d <> 0 -> Driver.udiv n d = n / d)
  /\ is_u32 (Driver.udiv n d).
Proof.
  unfold is_u32. intros Hn Hd.
  destruct (Z.eq_dec d 0) as [->|Hnz].
  - change (Driver.udiv n 0) with 0. repeat split; lia.
  - rewrite udiv_value by lia.
    assert (0 <= n / d <= n).
    { split; [apply Z.div_pos; lia|].
      apply Z.div_le_upper_bound; [lia|nia]. }
    repeat split; lia.
Qed.

Lemma udiv_is_quotient_witness :
  (is_u32 4294967295 /\ is_u32 10)
  /\ ((10 = 0 -> Driver.udiv 4294967295 10 = 0)
      /\ (10 <> 0 -> Driver.udiv 4294967295 10 = 4294967295 / 10)
      /\ is_u32 (Driver.udiv 4294967295 10)).
Proof.
  assert (Hn : is_u32 4294967295) by (unfold is_u32; lia).
  assert (Hd : is_u32 10) by (unfold is_u32; lia).
  split; [exact (conj Hn Hd) | exact (udiv_is_quotient _ _ Hn Hd)].
Defined.

(** X13.  The driver's [umod] is the unsigned 32-bit remainder: for 32-bit
    [n] and nonzero [d] it returns [n mod d], which is below [d], and
    [n = udiv n d * d + umod n d]; for [d = 0] it returns 0. *)
Theorem umod_is_remainder (n d : Z) :
  is_u32 n -> is_u32 d ->
  (d = 0 -> Driver.umod n d = 0)
  /\ (d <> 0 ->
      Driver.umod n d = n mod d
      /\ 0 <= Driver.umod n d < d
      /\ n = Driver.udiv n d * d + Driver.umod n d).
Proof.
  unfold is_u32. intros Hn Hd. split.
  - intros ->. reflexivity.
  - intros Hnz. rewrite umod_value, udiv_value by lia.
    split; [reflexivity|].
    split; [apply Z.mod_pos_bound; lia|].
    rewrite Z.mul_comm. apply Z.div_mod. lia.
Qed.

Lemma umod_is_remainder_witness :
  (is_u32 4294967295 /\ is_u32 10)
  /\ ((10 = 0 -> Driver.umod 4294967295 10 = 0)
      /\ (10 <> 0 ->
          Driver.umod 4294967295 10 = 4294967295 mod 10
          /\ 0 <= Driver.umod 4294967295 10 < 10
          /\ 4294967295
             = Driver.udiv 4294967295 10 * 10 + Driver.umod 4294967295 10)).
Proof.
  assert (Hn : is_u32 4294967295) by (unfold is_u32; lia).
  assert (Hd : is_u32 10) by (unfold is_u32; lia).
  split; [exact (conj Hn Hd) | exact (umod_is_remainder _ _ Hn Hd)].
Defined.

Lemma wrapped_step (M r a q c : Z) :
  0 < M ->
  ((r + c * a) mod M + (a * 2) mod M * q) mod M = (r + a * (2 * q + c)) mod M.
Proof.
  intros HM.
  pose proof (Z.div_mod (r + c * a) M ltac:(lia)) as H1.
  pose proof (Z.div_mod (a * 2) M ltac:(lia)) as H2.
  set (d1 := (r + c * a) / M) in *. set (m1 := (r + c * a) mod M) in *.
  set (d2 := (a * 2) / M) in *. set (m2 := (a * 2) mod M) in *.
  replace (m1 + m2 * q) with ((r + a * (2 * q + c)) + (- (d1 + d2 * q)) * M)
    by nia.
  apply Z_mod_plus_full.
Qed.

(** Loop invariant of [umul]: [res + a * b] is preserved modulo [2^32]. *)
Lemma umul_loop_wraps (fuel : nat) :
  forall res a b,
    0 <= b < 2 ^ Z.of_nat fuel -> is_u32 res ->
    Driver.umul_loop fuel res a b = Driver.Done ((res + a * b) mod 2 ^ 32).
Proof.
  induction fuel as [|fuel IH]; intros res a b Hb Hres.
  - change (2 ^ Z.of_nat 0) with 1 in Hb. assert (b = 0) by lia. subst b.
    cbn. rewrite Z.mul_0_r, Z.add_0_r, Z.mod_small by exact Hres. reflexivity.
  - cbn [Driver.umul_loop].
    destruct (Z.eqb_spec b 0) as [->|Hb0].
    + rewrite Z.mul_0_r, Z.add_0_r, Z.mod_small by exact Hres. reflexivity.
    + rewrite Nat2Z.inj_succ, Z.pow_succ_r in Hb by lia.
      rewrite land_1, shiftr_div by lia. change (2 ^ 1) with 2.
      assert (Hdm : b = 2 * (b / 2) + b mod 2) by (apply Z.div_mod; lia).
      assert (Hm : 0 <= b mod 2 < 2) by (apply Z.mod_pos_bound; lia).
      unfold shl32, add32, u32. rewrite Z.shiftl_mul_pow2 by lia.
      change (2 ^ 1) with 2.
      destruct (Z.eqb_spec (b mod 2) 0) as [H0|H1].
      * rewrite IH by (assumption || lia). f_equal.
        pose proof (wrapped_step (2 ^ 32) res a (b / 2) 0 ltac:(lia)) as Hw.
        rewrite Z.mul_0_l, Z.add_0_r in Hw.
        rewrite (Z.mod_small res) in Hw by exact Hres.
        rewrite Hw. replace (2 * (b / 2) + 0) with b by lia. reflexivity.
      * rewrite IH; [|lia|apply Z.mod_pos_bound; lia]. f_equal.
        pose proof (wrapped_step (2 ^ 32) res a (b / 2) 1 ltac:(lia)) as Hw.
        rewrite Z.mul_1_l in Hw. rewrite Hw.
        replace (2 * (b / 2) + 1) with b by lia. reflexivity.
Qed.

(** X14.  The driver's [umul], and [__mulsi3] which calls it, terminate
    on all 32-bit operands and return the product reduced modulo 2^32, that
    is, the low 32 bits of what the reference [mul32_shift_add] returns. *)
Theorem umul_wraps (a b : Z) :
  is_u32 a -> is_u32 b ->
  Driver.umul a b = Driver.Done ((a * b) mod 2 ^ 32)
  /\ Driver.__mulsi3 a b = Driver.Done ((a * b) mod 2 ^ 32)
  /\ (forall log v, Reference.mul32_shift_add a b log = Ok (v, log) ->
        Driver.umul a b = Driver.Done (u32 v)).
Proof.
  intros Ha Hb.
  assert (H : Driver.umul a b = Driver.Done ((a * b) mod 2 ^ 32)).
  { unfold Driver.umul. rewrite umul_loop_wraps.
    - reflexivity.
    - unfold is_u32 in Hb. change (Z.of_nat 32) with 32. lia.
    - unfold is_u32. lia. }
  split; [exact H|]. split; [exact H|].
  intros log v Hv. rewrite mul32_shift_add_exact in Hv by assumption.
  injection Hv as <-. exact H.
Qed.

Lemma umul_wraps_witness :
  (is_u32 4000000000 /\ is_u32 3000000001)
  /\ (Driver.umul 4000000000 3000000001
      = Driver.Done ((4000000000 * 3000000001) mod 2 ^ 32)
      /\ Driver.__mulsi3 4000000000 3000000001
         = Driver.Done ((4000000000 * 3000000001) mod 2 ^ 32)
      /\ (forall log v,
            Reference.mul32_shift_add 4000000000 3000000001 log = Ok (v, log) ->
            Driver.umul 4000000000 3000000001 = Driver.Done (u32 v))).
Proof.
  assert (Ha : is_u32 4000000000) by (unfold is_u32; lia).
  assert (Hb : is_u32 3000000001) by (unfold is_u32; lia).
  split; [exact (conj Ha Hb) | exact (umul_wraps _ _ Ha Hb)].
Defined.

(** ** [memcpy] *)

Lemma memcpy_loop_spec (k : nat) :
  forall m d s,
    0 <= d -> 0 <= s ->
    d + Z.of_nat k <= 2 ^ 32 -> s + Z.of_nat k <= 2 ^ 32 ->
    d <= s \/ s + Z.of_nat k <= d ->
    (forall i, 0 <= i < Z.of_nat k ->
       Driver.memcpy_loop k m d s (d + i) = m (s + i))
    /\ (forall a, ~ (d <= a < d + Z.of_nat k) ->
       Driver.memcpy_loop k m d s a = m a).
Proof.
  induction k as [|k IH]; intros m d s Hd Hs Hdk Hsk Hov.
  - split; [intros i Hi; lia | intros a _; reflexivity].
  - cbn [Driver.memcpy_loop]. rewrite Nat2Z.inj_succ in *.
    set (m1 := Driver.mem_store m d (m s)).
    destruct k as [|k'].
    + cbn [Driver.memcpy_loop]. split.
      * intros i Hi. assert (i = 0) by lia. subst i. rewrite !Z.add_0_r.
        unfold m1, Driver.mem_store. rewrite Z.eqb_refl. reflexivity.
      * intros a Ha. unfold m1, Driver.mem_store.
        destruct (Z.eqb_spec a d); [lia|reflexivity].
    + assert (Hd1 : add32 d 1 = d + 1)
        by (unfold add32, u32; apply Z.mod_small; lia).
      assert (Hs1 : add32 s 1 = s + 1)
        by (unfold add32, u32; apply Z.mod_small; lia).
      rewrite Hd1, Hs1.
      destruct (IH m1 (d + 1) (s + 1) ltac:(lia) ltac:(lia) ltac:(lia)
                  ltac:(lia) ltac:(lia)) as [Hcopy Hframe].
      split.
      * intros i Hi. destruct (Z.eq_dec i 0) as [->|Hi0].
        -- rewrite !Z.add_0_r. rewrite Hframe by lia.
           unfold m1, Driver.mem_store. rewrite Z.eqb_refl. reflexivity.
        -- replace (d + i) with (d + 1 + (i - 1)) by lia.
           rewrite Hcopy by lia.
           unfold m1, Driver.mem_store.
           destruct (Z.eqb_spec (s + 1 + (i - 1)) d); [lia|].
           f_equal. lia.
      * intros a Ha. rewrite Hframe by lia.
        unfold m1, Driver.mem_store.
        destruct (Z.eqb_spec a d); [lia|reflexivity].
Qed.

(** X15.  The driver's [memcpy] returns [dest], copies the [n] source
    bytes to [dest .. dest+n-1] and leaves every other byte unchanged,
    provided both ranges lie in the 32-bit address space and the
    destination does not start inside the source range after its first
    byte ([dest <= src] or [src + n <= dest]). *)
Theorem memcpy_copies (m : Driver.memory) (dest src n : Z) :
  0 <= dest -> 0 <= src -> 0 <= n ->
  dest + n <= 2 ^ 32 -> src + n <= 2 ^ 32 ->
  dest <= src \/ src + n <= dest ->
  snd (Driver.memcpy m dest src n) = dest
  /\ (forall i, 0 <= i < n ->
        fst (Driver.memcpy m dest src n) (dest + i) = m (src + i))
  /\ (forall a, ~ (dest <= a < dest + n) ->
        fst (Driver.memcpy m dest src n) a = m a).
Proof.
  intros Hd Hs Hn Hdn Hsn Hov. unfold Driver.memcpy. cbn [fst snd].
  split; [reflexivity|].
  destruct (memcpy_loop_spec (Z.to_nat n) m dest src Hd Hs) as [Hc Hf];
    try (rewrite Z2Nat.id by lia; lia).
  rewrite Z2Nat.id in * by lia. split; assumption.
Qed.

Lemma memcpy_copies_witness :
  (0 <= 100 /\ 0 <= 104 /\ 0 <= 8
   /\ 100 + 8 <= 2 ^ 32 /\ 104 + 8 <= 2 ^ 32 /\ (100 <= 104 \/ 104 + 8 <= 100))
  /\ (snd (Driver.memcpy (fun a => a mod 256) 100 104 8) = 100
      /\ (forall i, 0 <= i < 8 ->
            fst (Driver.memcpy (fun a => a mod 256) 100 104 8) (100 + i)
            = (fun a => a mod 256) (104 + i))
      /\ (forall a, ~ (100 <= a < 100 + 8) ->
            fst (Driver.memcpy (fun a => a mod 256) 100 104 8) a
            = (fun a => a mod 256) a)).
Proof.
  assert (H1 : 0 <= 100) by lia. assert (H2 : 0 <= 104) by lia.
  assert (H3 : 0 <= 8) by lia. assert (H4 : 100 + 8 <= 2 ^ 32) by lia.
  assert (H5 : 104 + 8 <= 2 ^ 32) by lia.
  assert (H6 : 100 <= 104 \/ 104 + 8 <= 100) by (left; lia).
  split; [exact (conj H1 (conj H2 (conj H3 (conj H4 (conj H5 H6)))))|].
  exact (memcpy_copies (fun a => a mod 256) 100 104 8 H1 H2 H3 H4 H5 H6).
Defined.

(** ** Buffers *)

Lemma upd_length {A : Type} (n : nat) (v : A) (l : list A) :
  length (Driver.upd n v l) = length l.
Proof.
  revert n. induction l as [|h t IH]; intros [|n]; cbn; try reflexivity.
  rewrite IH. reflexivity.
Qed.

Lemma skipn_upd {A : Type} (n : nat) (v : A) (l : list A) :
  (n < length l)%nat ->
  skipn n (Driver.upd n v l) = v :: skipn (S n) l.
Proof.
  revert n. induction l as [|h t IH]; intros [|n] Hn; cbn in *; try lia.
  - reflexivity.
  - apply IH. lia.
Qed.

Lemma buf_store_spec (buf : Driver.buffer) (i c : Z) :
  0 <= i < Z.of_nat (length buf) ->
  exists buf',
    Driver.buf_store buf i c = Driver.Done buf'
    /\ length buf' = length buf
    /\ skipn (Z.to_nat i) buf' = Some c :: skipn (Z.to_nat (i + 1)) buf.
Proof.
  intros Hi. unfold Driver.buf_store.
  destruct (Z.leb_spec 0 i); [|lia].
  destruct (Z.ltb_spec i (Z.of_nat (length buf))); [|lia]. cbn [andb].
  eexists. split; [reflexivity|]. split; [apply upd_length|].
  rewrite skipn_upd by lia. do 2 f_equal. lia.
Qed.

Lemma load_cells_written (s : list Z) (rest : Driver.buffer) (i : Z) :
  Driver.load_cells (map Some s ++ rest) i (length s) = Driver.Done s.
Proof.
  revert i. induction s as [|c s IH]; intros i; cbn; [reflexivity|].
  rewrite IH. reflexivity.
Qed.

Lemma printstr_written (buf : Driver.buffer) (p : Z) (s out : list Z) :
  0 <= p -> skipn (Z.to_nat p) buf = map Some s ->
  Driver.printstr buf p (Z.of_nat (length s)) out = Driver.Done (tt, out ++ s).
Proof.
  intros Hp Hs. unfold Driver.printstr.
  destruct (Z.ltb_spec p 0); [lia|].
  rewrite Hs, Nat2Z.id.
  rewrite <- (app_nil_r (map Some s)), load_cells_written. reflexivity.
Qed.

Lemma print_ch_emits (c : Z) (out : list Z) :
  Driver.print_ch c out = Driver.Done (tt, out ++ [c]).
Proof. reflexivity. Qed.

(** ** Decimal digits *)

Lemma decimal_value_from (s : list Z) (a : Z) :
  fold_left (fun acc c => 10 * acc + (c - 48)) s a
  = a * 10 ^ Z.of_nat (length s) + decimal_value s.
Proof.
  unfold decimal_value. revert a.
  induction s as [|c s IH]; intros a.
  - cbn. lia.
  - cbn [fold_left length]. rewrite IH, (IH (10 * 0 + (c - 48))).
    rewrite Nat2Z.inj_succ, Z.pow_succ_r by lia. lia.
Qed.

Lemma decimal_value_cons (c : Z) (s : list Z) :
  decimal_value (c :: s) = (c - 48) * 10 ^ Z.of_nat (length s) + decimal_value s.
Proof.
  unfold decimal_value at 1. cbn [fold_left]. rewrite decimal_value_from.
  lia.
Qed.

Lemma decimal_value_snoc (s : list Z) (c : Z) :
  decimal_value (s ++ [c]) = 10 * decimal_value s + (c - 48).
Proof. unfold decimal_value. rewrite fold_left_app. reflexivity. Qed.

Lemma dec_char (val : Z) :
  is_u32 val ->
  Driver.char_of (Driver.chr "0" + Driver.umod val 10) = 48 + val mod 10
  /\ Driver.udiv val 10 = val / 10
  /\ is_u32 (val / 10).
Proof.
  unfold is_u32. intros Hv.
  rewrite umod_value, udiv_value by lia.
  pose proof (Z.mod_pos_bound val 10 ltac:(lia)).
  change (Driver.chr "0") with 48. unfold Driver.char_of.
  split; [apply Z.mod_small; lia|]. split; [reflexivity|].
  split; [apply Z.div_pos; lia|]. apply Z.div_lt_upper_bound; lia.
Qed.

(** ** Printing decimal numbers *)

(** The [do ... while] loop of [print_dec_inline], entered at position [p]
    of a buffer whose cells from [p] on hold [s]: it leaves the digits of
    [val] in front of [s]. *)
Lemma dec_inline_loop_spec (fuel : nat) :
  forall (m : nat) buf p val s,
    length buf = 20%nat -> 1 <= p <= 20 ->
    skipn (Z.to_nat p) buf = map Some s ->
    is_u32 val -> val < 10 ^ Z.of_nat m ->
    Z.of_nat m <= p -> (m <= fuel)%nat -> (1 <= fuel)%nat ->
    exists buf' ds,
      Driver.dec_inline_loop fuel buf p val
      = Driver.Done (buf', p - Z.of_nat (length ds))
      /\ length buf' = 20%nat
      /\ skipn (Z.to_nat (p - Z.of_nat (length ds))) buf' = map Some (ds ++ s)
      /\ Forall is_dec_digit ds
      /\ decimal_value ds = val
      /\ (1 <= length ds <= Nat.max 1 m)%nat
      /\ (val <> 0 -> hd 0 ds <> 48).
Proof.
  induction fuel as [|fuel IH]; intros m buf p val s Hlen Hp Hs Hv Hm Hmp Hmf Hf;
    [lia|].
  cbn [Driver.dec_inline_loop].
  destruct (dec_char val Hv) as (Hc & Hq & Hq32).
  rewrite Hc, Hq.
  destruct (buf_store_spec buf (p - 1) (48 + val mod 10) ltac:(lia))
    as (buf1 & Hst & Hlen1 & Hsk1).
  rewrite Hst.
  replace (p - 1 + 1) with p in Hsk1 by lia. rewrite Hs in Hsk1.
  pose proof (Z.mod_pos_bound val 10 ltac:(lia)) as Hmod.
  pose proof (Z.div_mod val 10 ltac:(lia)) as Hdm.
  unfold is_u32 in Hv.
  destruct (Z.eqb_spec (val / 10) 0) as [Hz|Hnz].
  - exists buf1, [48 + val mod 10]. cbn [length app hd].
    change (Z.of_nat 1) with 1.
    split; [reflexivity|]. split; [lia|]. split; [exact Hsk1|].
    split; [constructor; [unfold is_dec_digit; lia|constructor]|].
    split; [change (decimal_value [48 + val mod 10])
              with (10 * 0 + (48 + val mod 10 - 48)); lia|].
    split; [lia|]. intros Hv0. lia.
  - assert (Hm1 : (1 <= m)%nat).
    { destruct m; [|lia]. change (10 ^ Z.of_nat 0) with 1 in Hm. lia. }
    assert (Hpow : 10 ^ Z.of_nat m = 10 * 10 ^ Z.of_nat (m - 1)).
    { replace (Z.of_nat m) with (Z.succ (Z.of_nat (m - 1))) by lia.
      apply Z.pow_succ_r. lia. }
    assert (Hm2 : (2 <= m)%nat).
    { destruct (Nat.eq_dec m 1) as [->|]; [|lia].
      change (10 ^ Z.of_nat 1) with 10 in Hm. lia. }
    assert (Hlt : val / 10 < 10 ^ Z.of_nat (m - 1)) by lia.
    assert (Hlb : length buf1 = 20%nat) by lia.
    assert (Hp1 : 1 <= p - 1 <= 20) by lia.
    assert (Hmp1 : Z.of_nat (m - 1) <= p - 1) by lia.
    assert (Hmf1 : (m - 1 <= fuel)%nat) by lia.
    assert (Hf1 : (1 <= fuel)%nat) by lia.
    destruct (IH (m - 1)%nat buf1 (p - 1) (val / 10) ((48 + val mod 10) :: s)
                Hlb Hp1 Hsk1 Hq32 Hlt Hmp1 Hmf1 Hf1)
      as (buf2 & ds & Hrun & Hlen2 & Hsk2 & Hdig & Hval & Hlds & Hhd).
    exists buf2, (ds ++ [48 + val mod 10]).
    rewrite length_app. cbn [length].
    replace (p - Z.of_nat (length ds + 1)) with (p - 1 - Z.of_nat (length ds))
      by lia.
    split; [exact Hrun|]. split; [exact Hlen2|].
    split; [rewrite <- app_assoc; exact Hsk2|].
    split.
    { apply Forall_app. split; [assumption|].
      constructor; [unfold is_dec_digit; lia|constructor]. }
    split; [rewrite decimal_value_snoc, Hval; lia|].
    split; [lia|].
    intros _. destruct ds as [|d ds']; [cbn in Hlds; lia|].
    cbn [app hd] in *. apply Hhd. assumption.
Qed.

Lemma fresh_buf_length : length Driver.fresh_buf = 20%nat.
Proof. reflexivity. Qed.

Lemma u32_below_ten_digits (val : Z) : is_u32 val -> val < 10 ^ Z.of_nat 10.
Proof. unfold is_u32. intros Hv. change (10 ^ Z.of_nat 10) with 10000000000. lia. Qed.

(** X16.  [print_dec_inline] writes, for a 32-bit value, its decimal
    digits and nothing else: between 1 and 10 digit characters whose decimal
    reading is the value, with no leading zero unless the value is 0, and no
    newline. *)
Theorem print_dec_inline_digits (val : Z) (out : list Z) :
  is_u32 val ->
  exists ds,
    Driver.print_dec_inline val out = Driver.Done (tt, out ++ ds)
    /\ Forall is_dec_digit ds
    /\ decimal_value ds = val
    /\ (1 <= length ds <= 10)%nat
    /\ (val <> 0 -> hd 0 ds <> 48).
Proof.
  intros Hv. unfold Driver.print_dec_inline.
  destruct (dec_inline_loop_spec 20 10 Driver.fresh_buf Driver.BUF_SIZE val []
              fresh_buf_length ltac:(unfold Driver.BUF_SIZE; lia)
              ltac:(reflexivity) Hv (u32_below_ten_digits val Hv)
              ltac:(unfold Driver.BUF_SIZE; lia) ltac:(lia) ltac:(lia))
    as (buf & ds & Hrun & Hlen & Hsk & Hdig & Hval & Hl & Hhd).
  cbv zeta. rewrite Hrun. rewrite app_nil_r in Hsk.
  exists ds.
  replace (Driver.BUF_SIZE - (Driver.BUF_SIZE - Z.of_nat (length ds)))
    with (Z.of_nat (length ds)) by lia.
  rewrite (printstr_written buf _ ds out)
    by (unfold Driver.BUF_SIZE; try exact Hsk; lia).
  repeat split; try assumption; lia.
Qed.

Lemma print_dec_inline_digits_witness :
  is_u32 4294967295
  /\ exists ds,
    Driver.print_dec_inline 4294967295 [] = Driver.Done (tt, [] ++ ds)
    /\ Forall is_dec_digit ds
    /\ decimal_value ds = 4294967295
    /\ (1 <= length ds <= 10)%nat
    /\ (4294967295 <> 0 -> hd 0 ds <> 48).
Proof.
  assert (H : is_u32 4294967295) by (unfold is_u32; lia).
  split; [exact H | exact (print_dec_inline_digits 4294967295 [] H)].
Defined.

(** The [while] loop of [print_dec] on a nonzero value is the
    [do ... while] loop, one position further left. *)
Lemma dec_loop_as_inline (fuel : nat) :
  forall buf q val,
    val <> 0 ->
    Driver.dec_loop fuel buf (q - 1) val
    = match Driver.dec_inline_loop fuel buf q val with
      | Driver.Done (b, p) => Driver.Done (b, p - 1)
      | Driver.Crash e => Driver.Crash e
      end.
Proof.
  induction fuel as [|fuel IH]; intros buf q val Hv.
  - cbn. destruct (Z.eqb_spec val 0); [contradiction|reflexivity].
  - cbn [Driver.dec_loop Driver.dec_inline_loop].
    destruct (Z.eqb_spec val 0); [contradiction|].
    destruct (Driver.buf_store buf (q - 1)
                (Driver.char_of (Driver.chr "0" + Driver.umod val 10)))
      as [buf1|e]; [|reflexivity].
    destruct (Z.eqb_spec (Driver.udiv val 10) 0) as [Hz|Hnz].
    + rewrite Hz. destruct fuel; reflexivity.
    + apply IH. assumption.
Qed.

(** X17.  [print_dec] writes, for a 32-bit value, its decimal digits
    followed by one newline: between 1 and 10 digit characters whose decimal
    reading is the value, with no leading zero unless the value is 0. *)
Theorem print_dec_digits (val : Z) (out : list Z) :
  is_u32 val ->
  exists ds,
    Driver.print_dec val out = Driver.Done (tt, out ++ ds ++ [Driver.newline])
    /\ Forall is_dec_digit ds
    /\ decimal_value ds = val
    /\ (1 <= length ds <= 10)%nat
    /\ (val <> 0 -> hd 0 ds <> 48).
Proof.
  intros Hv. unfold Driver.print_dec. cbv zeta.
  destruct (buf_store_spec Driver.fresh_buf (Driver.BUF_SIZE - 1)
              Driver.newline ltac:(rewrite fresh_buf_length;
                                    unfold Driver.BUF_SIZE; lia))
    as (buf0 & Hst0 & Hlen0 & Hsk0).
  rewrite Hst0.
  replace (skipn (Z.to_nat (Driver.BUF_SIZE - 1 + 1)) Driver.fresh_buf)
    with (@nil (option Z)) in Hsk0 by reflexivity.
  destruct (Z.eqb_spec val 0) as [->|Hnz].
  - destruct (buf_store_spec buf0 (Driver.BUF_SIZE - 1 - 1) (Driver.chr "0")
                ltac:(rewrite Hlen0, fresh_buf_length;
                      unfold Driver.BUF_SIZE; lia))
      as (buf1 & Hst1 & Hlen1 & Hsk1).
    rewrite Hst1.
    replace (Driver.BUF_SIZE - 1 - 1 + 1) with (Driver.BUF_SIZE - 1) in Hsk1
      by lia.
    rewrite Hsk0 in Hsk1.
    exists [48].
    replace (Driver.BUF_SIZE - 1 - 1 - 1 + 1) with (Driver.BUF_SIZE - 1 - 1)
      by lia.
    rewrite (printstr_written buf1 _ ([48] ++ [Driver.newline]) out);
      [|unfold Driver.BUF_SIZE; lia|exact Hsk1].
    split; [reflexivity|].
    split; [constructor; [unfold is_dec_digit; lia|constructor]|].
    split; [reflexivity|]. split; [cbn; lia|]. intros H; contradiction.
  - rewrite (dec_loop_as_inline 20 buf0 (Driver.BUF_SIZE - 1) val Hnz).
    destruct (dec_inline_loop_spec 20 10 buf0 (Driver.BUF_SIZE - 1) val
                [Driver.newline]
                ltac:(rewrite Hlen0; apply fresh_buf_length)
                ltac:(unfold Driver.BUF_SIZE; lia)
                Hsk0 Hv (u32_below_ten_digits val Hv)
                ltac:(unfold Driver.BUF_SIZE; lia) ltac:(lia) ltac:(lia))
      as (buf & ds & Hrun & Hlen & Hsk & Hdig & Hval & Hl & Hhd).
    rewrite Hrun. exists ds.
    replace (Driver.BUF_SIZE - 1 - Z.of_nat (length ds) - 1 + 1)
      with (Driver.BUF_SIZE - 1 - Z.of_nat (length ds)) by lia.
    replace (Driver.BUF_SIZE - (Driver.BUF_SIZE - 1 - Z.of_nat (length ds)))
      with (Z.of_nat (length (ds ++ [Driver.newline])))
      by (rewrite length_app; cbn [length]; lia).
    rewrite (printstr_written buf _ (ds ++ [Driver.newline]) out)
      by (unfold Driver.BUF_SIZE; try exact Hsk; lia).
    repeat split; try assumption; lia.
Qed.

Lemma print_dec_digits_witness :
  is_u32 0
  /\ exists ds,
    Driver.print_dec 0 [] = Driver.Done (tt, [] ++ ds ++ [Driver.newline])
    /\ Forall is_dec_digit ds
    /\ decimal_value ds = 0
    /\ (1 <= length ds <= 10)%nat
    /\ (0 <> 0 -> hd 0 ds <> 48).
Proof.
  assert (H : is_u32 0) by (unfold is_u32; lia).
  split; [exact H | exact (print_dec_digits 0 [] H)].
Defined.

(** ** Printing hexadecimal numbers *)

Lemma hex_value_snoc (s : list Z) (c : Z) :
  hex_value (s ++ [c]) = 16 * hex_value s + hex_digit_value c.
Proof. unfold hex_value. rewrite fold_left_app. reflexivity. Qed.

Lemma hex_digit_spec (d : Z) :
  0 <= d < 16 ->
  is_hex_digit (Driver.hex_digit d)
  /\ hex_digit_value (Driver.hex_digit d) = d
  /\ (d <> 0 -> Driver.hex_digit d <> 48).
Proof.
  intros Hd. unfold Driver.hex_digit, Driver.char_of, is_hex_digit,
    hex_digit_value.
  change (Driver.chr "0") with 48. change (Driver.chr "a") with 97.
  destruct (Z.ltb_spec d 10).
  - rewrite Z.mod_small by lia. destruct (Z.leb_spec (48 + d) 57); lia.
  - rewrite Z.mod_small by lia. destruct (Z.leb_spec (97 + (d - 10)) 57); lia.
Qed.

Lemma hex_loop_spec (fuel : nat) :
  forall (m : nat) buf p val s,
    length buf = 20%nat -> -1 <= p < 20 ->
    skipn (Z.to_nat (p + 1)) buf = map Some s ->
    0 <= val < 16 ^ Z.of_nat m ->
    Z.of_nat m <= p + 1 -> (m <= fuel)%nat ->
    exists buf' ds,
      Driver.hex_loop fuel buf p val
      = Driver.Done (buf', p - Z.of_nat (length ds))
      /\ length buf' = 20%nat
      /\ skipn (Z.to_nat (p - Z.of_nat (length ds) + 1)) buf'
         = map Some (ds ++ s)
      /\ Forall is_hex_digit ds
      /\ hex_value ds = val
      /\ (length ds <= m)%nat
      /\ (val = 0 -> ds = [])
      /\ (val <> 0 -> ds <> [] /\ hd 0 ds <> 48).
Proof.
  induction fuel as [|fuel IH]; intros m buf p val s Hlen Hp Hs Hv Hmp Hmf.
  - assert (m = 0%nat) by lia. subst m. change (16 ^ Z.of_nat 0) with 1 in Hv.
    assert (val = 0) by lia. subst val.
    exists buf, []. cbn [Driver.hex_loop Z.eqb length app].
    rewrite Z.sub_0_r. repeat split; try assumption; try constructor; try lia.
    all: intros H; contradiction.
  - cbn [Driver.hex_loop].
    destruct (Z.eqb_spec val 0) as [->|Hnz].
    + exists buf, []. cbn [length app]. rewrite Z.sub_0_r.
      repeat split; try assumption; try constructor; try lia.
      all: intros H; contradiction.
    + assert (Hm1 : (1 <= m)%nat).
      { destruct m; [|lia]. change (16 ^ Z.of_nat 0) with 1 in Hv. lia. }
      assert (Hpow : 16 ^ Z.of_nat m = 16 * 16 ^ Z.of_nat (m - 1)).
      { replace (Z.of_nat m) with (Z.succ (Z.of_nat (m - 1))) by lia.
        apply Z.pow_succ_r. lia. }
      change 0xF with (2 ^ 4 - 1). rewrite land_low, shiftr_div by lia.
      change (2 ^ 4) with 16.
      pose proof (Z.mod_pos_bound val 16 ltac:(lia)) as Hmod.
      pose proof (Z.div_mod val 16 ltac:(lia)) as Hdm.
      destruct (hex_digit_spec (val mod 16) Hmod) as (Hhex & Hhv & Hh0).
      set (c := Driver.hex_digit (val mod 16)) in *.
      destruct (buf_store_spec buf p c ltac:(lia))
        as (buf1 & Hst & Hlen1 & Hsk1).
      rewrite Hst. rewrite Hs in Hsk1.
      assert (Hlt : 0 <= val / 16 < 16 ^ Z.of_nat (m - 1)) by lia.
      assert (Hlb : length buf1 = 20%nat) by lia.
      assert (Hp1 : -1 <= p - 1 < 20) by lia.
      assert (Hsk1' : skipn (Z.to_nat (p - 1 + 1)) buf1 = map Some (c :: s))
        by (replace (p - 1 + 1) with p by lia; exact Hsk1).
      assert (Hmp1 : Z.of_nat (m - 1) <= p - 1 + 1) by lia.
      assert (Hmf1 : (m - 1 <= fuel)%nat) by lia.
      destruct (IH (m - 1)%nat buf1 (p - 1) (val / 16) (c :: s)
                  Hlb Hp1 Hsk1' Hlt Hmp1 Hmf1)
        as (buf2 & ds & Hrun & Hlen2 & Hsk2 & Hdig & Hval & Hlds & Hz & Hnz').
      exists buf2, (ds ++ [c]). rewrite length_app. cbn [length].
      replace (p - Z.of_nat (length ds + 1)) with (p - 1 - Z.of_nat (length ds))
        by lia.
      split; [exact Hrun|]. split; [exact Hlen2|].
      split; [rewrite <- app_assoc; exact Hsk2|].
      split; [apply Forall_app; split; [assumption|constructor; [assumption|constructor]]|].
      split; [rewrite hex_value_snoc, Hval, Hhv; lia|].
      split; [lia|]. split; [intros H; contradiction|].
      intros _. split; [destruct ds; discriminate|].
      destruct (Z.eq_dec (val / 16) 0) as [Hq0|Hq0].
      * rewrite (Hz Hq0). cbn [app hd]. apply Hh0. lia.
      * destruct (Hnz' Hq0) as [Hne Hhd].
        destruct ds as [|d ds']; [contradiction|]. exact Hhd.
Qed.

Lemma u32_below_eight_hex (val : Z) :
  is_u32 val -> 0 <= val < 16 ^ Z.of_nat 8.
Proof. unfold is_u32. intros Hv. change (16 ^ Z.of_nat 8) with (2 ^ 32). lia. Qed.

(** X18.  [print_hex] writes, for a 32-bit value, its lower-case
    hexadecimal digits followed by one newline: between 1 and 8 characters
    from 0-9 and a-f whose hexadecimal reading is the value, with no leading
    zero unless the value is 0 (and no 0x prefix). *)
Theorem print_hex_digits (val : Z) (out : list Z) :
  is_u32 val ->
  exists ds,
    Driver.print_hex val out = Driver.Done (tt, out ++ ds ++ [Driver.newline])
    /\ Forall is_hex_digit ds
    /\ hex_value ds = val
    /\ (1 <= length ds <= 8)%nat
    /\ (val <> 0 -> hd 0 ds <> 48).
Proof.
  intros Hv. unfold Driver.print_hex. cbv zeta.
  destruct (buf_store_spec Driver.fresh_buf (Driver.BUF_SIZE - 1)
              Driver.newline ltac:(rewrite fresh_buf_length;
                                    unfold Driver.BUF_SIZE; lia))
    as (buf0 & Hst0 & Hlen0 & Hsk0).
  rewrite Hst0.
  replace (skipn (Z.to_nat (Driver.BUF_SIZE - 1 + 1)) Driver.fresh_buf)
    with (@nil (option Z)) in Hsk0 by reflexivity.
  destruct (Z.eqb_spec val 0) as [->|Hnz].
  - destruct (buf_store_spec buf0 (Driver.BUF_SIZE - 1 - 1) (Driver.chr "0")
                ltac:(rewrite Hlen0, fresh_buf_length;
                      unfold Driver.BUF_SIZE; lia))
      as (buf1 & Hst1 & Hlen1 & Hsk1).
    rewrite Hst1.
    replace (Driver.BUF_SIZE - 1 - 1 + 1) with (Driver.BUF_SIZE - 1) in Hsk1
      by lia.
    rewrite Hsk0 in Hsk1.
    exists [48].
    replace (Driver.BUF_SIZE - 1 - 1 - 1 + 1) with (Driver.BUF_SIZE - 1 - 1)
      by lia.
    rewrite (printstr_written buf1 _ ([48] ++ [Driver.newline]) out);
      [|unfold Driver.BUF_SIZE; lia|exact Hsk1].
    split; [reflexivity|].
    split; [constructor; [unfold is_hex_digit; lia|constructor]|].
    split; [reflexivity|]. split; [cbn; lia|]. intros H; contradiction.
  - assert (Hsk0' : skipn (Z.to_nat (Driver.BUF_SIZE - 1 - 1 + 1)) buf0
                    = map Some [Driver.newline])
      by (replace (Driver.BUF_SIZE - 1 - 1 + 1) with (Driver.BUF_SIZE - 1)
            by lia; exact Hsk0).
    destruct (hex_loop_spec 20 8 buf0 (Driver.BUF_SIZE - 1 - 1) val
                [Driver.newline]
                ltac:(rewrite Hlen0; apply fresh_buf_length)
                ltac:(unfold Driver.BUF_SIZE; lia)
                Hsk0' (u32_below_eight_hex val Hv)
                ltac:(unfold Driver.BUF_SIZE; lia) ltac:(lia))
      as (buf & ds & Hrun & Hlen & Hsk & Hdig & Hval & Hl & _ & Hne).
    rewrite Hrun. exists ds. destruct (Hne Hnz) as [Hds Hhd].
    replace (Driver.BUF_SIZE -
             (Driver.BUF_SIZE - 1 - 1 - Z.of_nat (length ds) + 1))
      with (Z.of_nat (length (ds ++ [Driver.newline])))
      by (rewrite length_app; cbn [length]; lia).
    rewrite (printstr_written buf _ (ds ++ [Driver.newline]) out)
      by (unfold Driver.BUF_SIZE; try exact Hsk; lia).
    repeat split; try assumption; try lia.
    destruct ds; [contradiction|cbn; lia].
Qed.

Lemma print_hex_digits_witness :
  is_u32 0xDEADBEEF
  /\ exists ds,
    Driver.print_hex 0xDEADBEEF [] = Driver.Done (tt, [] ++ ds ++ [Driver.newline])
    /\ Forall is_hex_digit ds
    /\ hex_value ds = 0xDEADBEEF
    /\ (1 <= length ds <= 8)%nat
    /\ (0xDEADBEEF <> 0 -> hd 0 ds <> 48).
Proof.
  assert (H : is_u32 0xDEADBEEF) by (unfold is_u32; lia).
  split; [exact H | exact (print_hex_digits 0xDEADBEEF [] H)].
Defined.

(** ** Printing a Q16 value *)

Lemma frac_loop_spec (n : nat) :
  forall frac out,
    0 <= frac < 2 ^ 16 ->
    exists fp,
      Driver.frac_loop n frac out = Driver.Done (tt, out ++ fp)
      /\ length fp = n
      /\ Forall is_dec_digit fp
      /\ decimal_value fp = frac * 10 ^ Z.of_nat n / 2 ^ 16.
Proof.
  induction n as [|n IH]; intros frac out Hf.
  - exists []. cbn [Driver.frac_loop]. unfold Driver.io_ret.
    rewrite app_nil_r. repeat split; try constructor.
    change (10 ^ Z.of_nat 0) with 1. rewrite Z.mul_1_r.
    symmetry. apply Z.div_small. lia.
  - cbn [Driver.frac_loop]. unfold Driver.io_bind.
    unfold add32, shl32, u32. rewrite !Z.shiftl_mul_pow2 by lia.
    change (2 ^ 3) with 8. change (2 ^ 1) with 2.
    rewrite (Z.mod_small (frac * 8)), (Z.mod_small (frac * 2)) by lia.
    rewrite (Z.mod_small (frac * 8 + frac * 2)) by lia.
    replace (frac * 8 + frac * 2) with (10 * frac) by lia.
    change 0xFFFF with (2 ^ 16 - 1). rewrite land_low, shiftr_div by lia.
    pose proof (Z.div_mod (10 * frac) (2 ^ 16) ltac:(lia)) as Hdm.
    pose proof (Z.mod_pos_bound (10 * frac) (2 ^ 16) ltac:(lia)) as Hmod.
    set (digit := 10 * frac / 2 ^ 16) in *.
    set (frac' := (10 * frac) mod 2 ^ 16) in *.
    assert (Hd : 0 <= digit <= 9) by lia.
    change (Driver.chr "0") with 48. unfold Driver.char_of.
    rewrite (Z.mod_small (48 + digit)) by lia.
    rewrite print_ch_emits.
    destruct (IH frac' (out ++ [48 + digit]) Hmod)
      as (fp & Hrun & Hlen & Hdig & Hval).
    rewrite Hrun. exists ((48 + digit) :: fp).
    split; [rewrite <- app_assoc; reflexivity|].
    split; [cbn; lia|].
    split; [constructor; [unfold is_dec_digit; lia|assumption]|].
    rewrite decimal_value_cons, Hval, Hlen.
    rewrite Nat2Z.inj_succ, Z.pow_succ_r by lia.
    replace (frac * (10 * 10 ^ Z.of_nat n))
      with (digit * 10 ^ Z.of_nat n * 2 ^ 16 + frac' * 10 ^ Z.of_nat n)
      by (replace (frac * (10 * 10 ^ Z.of_nat n))
            with (10 * frac * 10 ^ Z.of_nat n) by lia;
          rewrite Hdm; lia).
    rewrite Z.div_add_l by lia. lia.
Qed.

(** X19.  [print_q16_u y frac_digits] writes the integer part [y >> 16] in
    decimal (1 to 5 digits), then, when [frac_digits > 0], a point and
    exactly [frac_digits] decimal digits, then one newline; the fractional
    digits read as [(y mod 2^16) * 10^frac_digits / 2^16] rounded down, so
    the fraction is truncated, not rounded.  With [frac_digits <= 0] only
    the integer part and the newline are written. *)
Theorem print_q16_u_renders (y_q16 frac_digits : Z) (out : list Z) :
  is_u32 y_q16 ->
  exists ip fp,
    Driver.print_q16_u y_q16 frac_digits out
    = Driver.Done (tt, out ++ ip
                        ++ (if frac_digits <=? 0 then [Driver.newline]
                            else [Driver.chr "."] ++ fp ++ [Driver.newline]))
    /\ Forall is_dec_digit ip
    /\ decimal_value ip = y_q16 / 2 ^ 16
    /\ (1 <= length ip <= 5)%nat
    /\ Forall is_dec_digit fp
    /\ (0 < frac_digits ->
        length fp = Z.to_nat frac_digits
        /\ decimal_value fp = (y_q16 mod 2 ^ 16) * 10 ^ frac_digits / 2 ^ 16).
Proof.
  intros Hv. unfold Driver.print_q16_u, Driver.io_bind,
    Driver.print_dec_inline. cbv zeta.
  rewrite shiftr_div by lia.
  change 0xFFFF with (2 ^ 16 - 1). rewrite land_low by lia.
  assert (Hq : 0 <= y_q16 / 2 ^ 16 < 2 ^ 16).
  { unfold is_u32 in Hv. split; [apply Z.div_pos; lia|].
    apply Z.div_lt_upper_bound; lia. }
  assert (Hq32 : is_u32 (y_q16 / 2 ^ 16)) by (unfold is_u32; lia).
  assert (Hq5 : y_q16 / 2 ^ 16 < 10 ^ Z.of_nat 5)
    by (change (10 ^ Z.of_nat 5) with 100000; lia).
  destruct (dec_inline_loop_spec 20 5 Driver.fresh_buf Driver.BUF_SIZE
              (y_q16 / 2 ^ 16) []
              fresh_buf_length ltac:(unfold Driver.BUF_SIZE; lia)
              ltac:(reflexivity) Hq32 Hq5
              ltac:(unfold Driver.BUF_SIZE; lia) ltac:(lia) ltac:(lia))
    as (buf & ip & Hrun & Hlen & Hsk & Hdig & Hval & Hl & Hhd).
  rewrite Hrun. rewrite app_nil_r in Hsk.
  replace (Driver.BUF_SIZE - (Driver.BUF_SIZE - Z.of_nat (length ip)))
    with (Z.of_nat (length ip)) by lia.
  rewrite (printstr_written buf _ ip out)
    by (unfold Driver.BUF_SIZE; try exact Hsk; lia).
  pose proof (Z.mod_pos_bound y_q16 (2 ^ 16) ltac:(lia)) as Hmod.
  destruct (Z.leb_spec frac_digits 0) as [Hk|Hk].
  - exists ip, []. rewrite print_ch_emits.
    split; [rewrite <- app_assoc; reflexivity|].
    split; [assumption|]. split; [assumption|].
    split; [lia|]. split; [constructor|]. lia.
  - rewrite print_ch_emits.
    destruct (frac_loop_spec (Z.to_nat frac_digits) (y_q16 mod 2 ^ 16)
                ((out ++ ip) ++ [Driver.chr "."]) Hmod)
      as (fp & Hfrun & Hflen & Hfdig & Hfval).
    rewrite Hfrun, print_ch_emits. exists ip, fp.
    split; [rewrite <- !app_assoc; reflexivity|].
    rewrite Z2Nat.id in Hfval by lia.
    repeat split; try assumption; lia.
Qed.

Lemma print_q16_u_renders_witness :
  is_u32 98304
  /\ exists ip fp,
    Driver.print_q16_u 98304 4 []
    = Driver.Done (tt, [] ++ ip
                        ++ (if 4 <=? 0 then [Driver.newline]
                            else [Driver.chr "."] ++ fp ++ [Driver.newline]))
    /\ Forall is_dec_digit ip
    /\ decimal_value ip = 98304 / 2 ^ 16
    /\ (1 <= length ip <= 5)%nat
    /\ Forall is_dec_digit fp
    /\ (0 < 4 ->
        length fp = Z.to_nat 4
        /\ decimal_value fp = (98304 mod 2 ^ 16) * 10 ^ 4 / 2 ^ 16).
Proof.
  assert (H : is_u32 98304) by (unfold is_u32; lia).
  split; [exact H | exact (print_q16_u_renders 98304 4 [] H)].
Defined.

(** ** Printing a string *)

(** The scan of [print_str] stops at the first zero byte. *)
Lemma str_end_spec (m : Driver.memory) (k : nat) :
  forall fuel s,
    0 <= s -> s + Z.of_nat k < 2 ^ 32 ->
    (forall i, 0 <= i < Z.of_nat k -> m (s + i) <> 0) ->
    m (s + Z.of_nat k) = 0 ->
    (k <= fuel)%nat ->
    Driver.str_end fuel m s = Driver.Done (s + Z.of_nat k).
Proof.
  induction k as [|k IH]; intros fuel s Hs Hend Hnz Hz Hf.
  - change (Z.of_nat 0) with 0 in *. rewrite Z.add_0_r in *.
    destruct fuel; cbn [Driver.str_end]; rewrite Hz; reflexivity.
  - destruct fuel as [|fuel]; [lia|]. cbn [Driver.str_end].
    pose proof (Hnz 0 ltac:(lia)) as H0. rewrite Z.add_0_r in H0.
    destruct (Z.eqb_spec (m s) 0); [contradiction|].
    unfold add32, u32. rewrite Z.mod_small by lia.
    rewrite IH.
    + f_equal. lia.
    + lia.
    + lia.
    + intros i Hi. replace (s + 1 + i) with (s + (i + 1)) by lia.
      apply Hnz. lia.
    + replace (s + 1 + Z.of_nat k) with (s + Z.of_nat (S k)) by lia. exact Hz.
    + lia.
Qed.

(** X20.  [print_str] writes the bytes of a string up to, and not
    including, its first zero byte: when the [n] bytes from [s] on are
    nonzero, the byte at [s + n] is zero and the string lies in the 32-bit
    address space, a scan of at least [n] passes ends and exactly those [n]
    bytes are written, none of them zero. *)
Theorem print_str_prints_text (m : Driver.memory) (s n : Z) (fuel : nat)
    (out : list Z) :
  0 <= s -> 0 <= n -> s + n < 2 ^ 32 ->
  (forall i, 0 <= i < n -> m (s + i) <> 0) ->
  m (s + n) = 0 ->
  (Z.to_nat n <= fuel)%nat ->
  Driver.print_str fuel m s out
  = Driver.Done (tt, out ++ map (fun i => m (s + Z.of_nat i))
                                (seq 0 (Z.to_nat n)))
  /\ Forall (fun c => c <> 0)
            (map (fun i => m (s + Z.of_nat i)) (seq 0 (Z.to_nat n))).
Proof.
  intros Hs Hn Hend Hnz Hz Hf. split.
  - unfold Driver.print_str. cbv zeta.
    rewrite (str_end_spec m (Z.to_nat n) fuel s Hs); rewrite ?Z2Nat.id by lia;
      try assumption.
    unfold Driver.printstr_at, sub32, u32.
    replace (s + n - s) with n by lia. rewrite Z.mod_small by lia.
    do 3 f_equal. apply map_ext_in. intros i Hi. apply in_seq in Hi.
    unfold add32, u32. rewrite Z.mod_small by lia. reflexivity.
  - apply Forall_forall. intros c Hc. apply in_map_iff in Hc.
    destruct Hc as (i & <- & Hi). apply in_seq in Hi. apply Hnz. lia.
Qed.

Lemma print_str_prints_text_witness :
  (0 <= 100 /\ 0 <= 2 /\ 100 + 2 < 2 ^ 32
   /\ (forall i, 0 <= i < 2 -> text_x_eq (100 + i) <> 0)
   /\ text_x_eq (100 + 2) = 0 /\ (Z.to_nat 2 <= 5)%nat)
  /\ Driver.print_str 5 text_x_eq 100 []
     = Driver.Done (tt, [] ++ map (fun i => text_x_eq (100 + Z.of_nat i))
                                  (seq 0 (Z.to_nat 2)))
  /\ Forall (fun c => c <> 0)
            (map (fun i => text_x_eq (100 + Z.of_nat i)) (seq 0 (Z.to_nat 2))).
Proof.
  assert (H1 : 0 <= 100) by lia. assert (H2 : 0 <= 2) by lia.
  assert (H3 : 100 + 2 < 2 ^ 32) by lia.
  assert (H4 : forall i, 0 <= i < 2 -> text_x_eq (100 + i) <> 0).
  { intros i Hi. assert (i = 0 \/ i = 1) as [-> | ->] by lia;
      vm_compute; discriminate. }
  assert (H5 : text_x_eq (100 + 2) = 0) by reflexivity.
  assert (H6 : (Z.to_nat 2 <= 5)%nat) by (vm_compute; lia).
  split; [exact (conj H1 (conj H2 (conj H3 (conj H4 (conj H5 H6)))))|].
  exact (print_str_prints_text text_x_eq 100 2 5 [] H1 H2 H3 H4 H5 H6).
Defined.
